(** * LocalAINews: a moderation-gated news bot

    A shallow embedding of the orchestration core of the bot
    (config.py, lmstudio_helpers.py, news.py, tasks.py, discord_bot.py,
    main.py) and the properties of its specification.

    Conventions.
    - Python values that come out of JSON are the type [json]; a Python
      [dict] is an association list read by its first binding.
    - A Python exception is the [Raise] outcome of the monad [M]; the state it
      threads is the module-level state of news.py (the two query pools)
      together with the trace of effects (prints, sleeps, HTTP requests).
    - Everything the program does not decide (HTTP replies, [json.loads],
      the random draws of [random.shuffle], the clock) is an input. *)

From Stdlib Require Import ZArith String Ascii List Lia Permutation.
From stdpp Require Import base gmap sets list strings.
Import ListNotations.
Local Open Scope string_scope.
Local Open Scope list_scope.
Local Set Warnings "-register-all".

(** ** Python values and the few built-ins the program uses *)
Module Py.

(** What [json.loads] and [r.json()] give. A number is kept as an integer:
    of a float the program only asks whether it is zero. *)
Inductive json : Type :=
| JNull
| JBool (b : bool)
| JNum (n : Z)
| JStr (s : string)
| JArr (items : list json)
| JObj (fields : list (string * json)).

(** The exceptions the program can meet. [ConnectionError] is
    [requests.exceptions.ConnectionError]; the others are all caught by
    [except Exception]. *)
Inductive exn : Type :=
| ConnectionError
| RequestException
| HTTPError
| JSONDecodeError
| AttributeError
| TypeError
| KeyError
| IndexError
| ValueError.

Inductive result (A : Type) : Type :=
| Ok (a : A)
| Raise (e : exn).
Arguments Ok {A} a.
Arguments Raise {A} e.

(** [bool(v)] *)
Definition truthy (v : json) : bool :=
  match v with
  | JNull => false
  | JBool b => b
  | JNum n => negb (n =? 0)%Z
  | JStr s => negb (String.eqb s "")
  | JArr items => match items with [] => false | _ :: _ => true end
  | JObj fields => match fields with [] => false | _ :: _ => true end
  end.

(** [a or b] *)
Definition py_or (a b : json) : json := if truthy a then a else b.

Fixpoint assoc (k : string) (fields : list (string * json)) : option json :=
  match fields with
  | [] => None
  | (k', v) :: rest => if String.eqb k k' then Some v else assoc k rest
  end.

(** [d.get(k, default)]: only a dict has [get]. *)
Definition get (d : json) (k : string) (default : json) : result json :=
  match d with
  | JObj fields => Ok (match assoc k fields with Some v => v | None => default end)
  | _ => Raise AttributeError
  end.

(** [v[0]] *)
Definition item0 (v : json) : result json :=
  match v with
  | JArr (x :: _) => Ok x
  | JArr [] => Raise IndexError
  | JStr (String c _) => Ok (JStr (String c EmptyString))
  | JStr EmptyString => Raise IndexError
  | JObj _ => Raise KeyError
  | _ => Raise TypeError
  end.

(** [v[k]] for a string key *)
Definition item (v : json) (k : string) : result json :=
  match v with
  | JObj fields =>
      match assoc k fields with Some x => Ok x | None => Raise KeyError end
  | _ => Raise TypeError
  end.

(** ASCII white space, as [str.strip] and [str.isspace] see it. *)
Definition is_space (c : ascii) : bool :=
  let n := nat_of_ascii c in
  ((9 <=? n)%nat && (n <=? 13)%nat) || ((28 <=? n)%nat && (n <=? 32)%nat).

Fixpoint lstrip (s : string) : string :=
  match s with
  | String c rest => if is_space c then lstrip rest else s
  | EmptyString => EmptyString
  end.

(** [rstrip_with p s] removes the longest suffix of characters satisfying [p]. *)
Fixpoint rstrip_with (p : ascii -> bool) (s : string) : string :=
  match s with
  | EmptyString => EmptyString
  | String c rest =>
      match rstrip_with p rest with
      | EmptyString => if p c then EmptyString else String c EmptyString
      | rest' => String c rest'
      end
  end.

(** [s.strip()] *)
Definition strip (s : string) : string := rstrip_with is_space (lstrip s).

(** [s.rstrip('/')] *)
Definition rstrip_slash (s : string) : string :=
  rstrip_with (fun c => Ascii.eqb c "/"%char) s.

(** [v.strip()]: only a string has [strip]. *)
Definition str_strip (v : json) : result string :=
  match v with
  | JStr s => Ok (strip s)
  | _ => Raise AttributeError
  end.

Definition lower_char (c : ascii) : ascii :=
  let n := nat_of_ascii c in
  if (65 <=? n)%nat && (n <=? 90)%nat then ascii_of_nat (n + 32) else c.

(** [s.lower()] on ASCII letters *)
Fixpoint lower (s : string) : string :=
  match s with
  | EmptyString => EmptyString
  | String c rest => String (lower_char c) (lower rest)
  end.

(** [needle in hay] for strings *)
Fixpoint contains (needle hay : string) : bool :=
  String.prefix needle hay ||
  match hay with
  | EmptyString => false
  | String _ rest => contains needle rest
  end.

(** [l.remove(x)]: the first element equal to [x] goes; [None] stands for the
    [ValueError] raised when there is none. *)
Fixpoint list_remove {A} `{EqDecision A} (x : A) (l : list A) : option (list A) :=
  match l with
  | [] => None
  | y :: rest =>
      if decide (x = y) then Some rest
      else match list_remove x rest with
           | Some rest' => Some (y :: rest')
           | None => None
           end
  end.

(** [s[:n]] *)
Definition take_chars (n : nat) (s : string) : string := String.substring 0 n s.

End Py.
Export Py.

(** ** config.py: the module-level settings, as [os.getenv] left them *)
Module Config.

Record config : Type := {
  DISCORD_TOKEN : option string;
  ADMIN_CHANNEL_ID : option Z;
  POST_CHANNEL_ID : option Z;
  NEWS_API_KEY : option string;
  LMSTUDIO_BASE_URL : option string;
  LMSTUDIO_MODEL : option string;
  LMSTUDIO_API_KEY : option string;
  LMSTUDIO_TIMEOUT : Z;
  LM_USE_TOOLS : bool
}.

(** [not s] for an optional string: unset or empty. *)
Definition unset (s : option string) : bool :=
  match s with
  | None => true
  | Some v => String.eqb v ""
  end.

(** What a start-up check does: go on, or print its diagnostics and
    [sys.exit(code)]. *)
Inductive checked : Type :=
| Passed
| Exits (code : Z) (diagnostics : list string).

(** [ensure_token]: the token is unset, empty or blank. (The second line of
    the diagnostic is printed with quotes around the placeholder.) *)
Definition ensure_token (cfg : config) : checked :=
  if unset (DISCORD_TOKEN cfg)
     || match DISCORD_TOKEN cfg with
        | Some t => String.eqb (strip t) ""
        | None => true
        end
  then Exits 1 ["❌ ERROR: DISCORD_TOKEN is not set. Set it in your environment or a .env file.";
                "   Example (macOS/Linux): export DISCORD_TOKEN=<your-bot-token>";
                "   Or create a .env file with: DISCORD_TOKEN=<your-bot-token>"]
  else Passed.

(** [ensure_required]: the list [missing], in the order the code appends. *)
Definition missing_keys (cfg : config) : list string :=
  (if ADMIN_CHANNEL_ID cfg is None then ["ADMIN_CHANNEL_ID"] else []) ++
  (if POST_CHANNEL_ID cfg is None then ["POST_CHANNEL_ID"] else []) ++
  (if unset (LMSTUDIO_BASE_URL cfg) then ["LMSTUDIO_BASE_URL"] else []) ++
  (if unset (LMSTUDIO_MODEL cfg) then ["LMSTUDIO_MODEL"] else []).

Definition ensure_required (cfg : config) : checked :=
  match missing_keys cfg with
  | [] => Passed
  | missing =>
      Exits 1 ["❌ ERROR: Missing required config keys: " +:+ String.concat ", " missing;
               "   Add them to your .env or environment. See .env.example for placeholders."]
  end.

End Config.
Export Config.

(** ** The effects of the program and the monad that threads them *)
Module Runtime.

(** The body of a chat-completion request, by the fields in which the three
    requests of the summarizer differ. [pl_response_format] stands for the
    [json_schema] response format built from [build_news_schema];
    [pl_tools] for the [tools] list with [summarize_article] and the
    [tool_choice] that names it. The temperature is in tenths. *)
Record payload : Type := {
  pl_model : option string;
  pl_system : string;
  pl_user : string;
  pl_temperature_tenths : Z;
  pl_max_tokens : Z;
  pl_response_format : bool;
  pl_tools : bool
}.

(** The messages the program prints, by kind and variable part. *)
Inductive log : Type :=
| LogKeyMissing                       (* NEWS_API_KEY is not set *)
| LogNoQueriesLeft                    (* No available queries left. Resetting queries... *)
| LogQueriesReset (n : nat)           (* Queries reset. n queries are now available. *)
| LogFetching (query : string)        (* Fetching articles for query *)
| LogRateLimit                        (* API rate limit reached (429). Entering a wait state. *)
| LogSkipping (url : json)            (* Skipping previously posted article *)
| LogNoArticlesFor (query : string)   (* No articles found for query. Trying next query... *)
| LogFetchFailed (query : string) (e : exn)
| LogNoArticlesAny                    (* No articles found for any query. *)
| LogUsingDescription                 (* Using NewsAPI description as summary *)
| LogWaiting                          (* Waiting for API rate limit to reset... *)
| LogStillWaiting (minutes : Z)       (* Still waiting ... minutes remaining. *)
| LogResuming                         (* Resuming article fetching after API rate limit reset. *)
| LogModelsList (ids : list json)     (* LM Studio /v1/models -> ids *)
| LogModelsUnreachable (e : exn)
| LogModelNotListed
| LogHintInstruct
| LogSchemaNotAccepted (status : Z)
| LogSchemaNoParsed
| LogCannotConnect
| LogSchemaFailed (e : exn)
| LogToolArgsFailed (e : exn)
| LogToolFallbackFailed (e : exn)
| LogPlainFailed (e : exn)
| LogNoStructured
| LogResetForNewDay                   (* Resetting queries for the new day. *)
| LogTopicsLoaded (n : nat)           (* Loaded n topics from topics.txt. *)
| LogTopicsMissing.                   (* topics.txt not found. Please create the file and add topics. *)

Inductive event : Type :=
| EvPrint (m : log)
| EvSleep (seconds : Z)               (* await asyncio.sleep(seconds) *)
| EvSearch (query : string)           (* requests.get(api_url, params={..., "q": query}) *)
| EvModels                            (* requests.get(<base>/v1/models) *)
| EvChat (p : payload).               (* requests.post(<base>/v1/chat/completions, json=p) *)

(** What an HTTP call comes back with: no response at all (the call raised:
    a [ConnectionError] or something else), or a response with its status
    code and its body as [r.json()] reads it ([None] when that raises). *)
Inductive http_reply : Type :=
| NoReply (connection_error : bool)
| Reply (status_code : Z) (body : option json).

(** The world outside the program. [search i q] answers the request of the
    [i]-th iteration of the fetch loop, made for the term [q];
    [randbelow i] is the draw [random.shuffle] makes at index [i]. *)
Record service : Type := {
  search : nat -> string -> http_reply;
  models : http_reply;
  chat : payload -> http_reply;
  json_loads : string -> option json;
  randbelow : nat -> nat
}.

(** The module-level state of news.py and the trace of effects so far. *)
Record world : Type := {
  available_queries : list string;
  used_queries : list string;
  trace : list event
}.

Definition M (A : Type) : Type := world -> result A * world.

Definition ret {A} (a : A) : M A := fun w => (Ok a, w).

Definition bind {A B} (m : M A) (k : A -> M B) : M B :=
  fun w =>
    match m w with
    | (Ok a, w') => k a w'
    | (Raise e, w') => (Raise e, w')
    end.

Definition raise {A} (e : exn) : M A := fun w => (Raise e, w).

(** [try: m except Exception as e: handler e] *)
Definition try_except {A} (m : M A) (handler : exn -> M A) : M A :=
  fun w =>
    match m w with
    | (Ok a, w') => (Ok a, w')
    | (Raise e, w') => handler e w'
    end.

Definition lift {A} (r : result A) : M A := fun w => (r, w).

Definition emit (ev : event) : M unit :=
  fun w => (Ok tt, {| available_queries := available_queries w;
                      used_queries := used_queries w;
                      trace := trace w ++ [ev] |}).

Definition print (m : log) : M unit := emit (EvPrint m).

Definition when (b : bool) (m : M unit) : M unit := if b then m else ret tt.

Definition set_pools (available used : list string) : M unit :=
  fun w => (Ok tt, {| available_queries := available;
                      used_queries := used;
                      trace := trace w |}).

Definition get_available : M (list string) :=
  fun w => (Ok (available_queries w), w).

Definition get_used : M (list string) :=
  fun w => (Ok (used_queries w), w).

(** [r.raise_for_status()] *)
Definition raise_for_status (status : Z) : result unit :=
  if (400 <=? status)%Z && (status <? 600)%Z then Raise HTTPError else Ok tt.

(** [r.json()] *)
Definition response_json (body : option json) : result json :=
  match body with
  | Some v => Ok v
  | None => Raise JSONDecodeError
  end.

(** The reply of an HTTP call, or the exception the call raises. *)
Definition received (r : http_reply) : result (Z * option json) :=
  match r with
  | NoReply true => Raise ConnectionError
  | NoReply false => Raise RequestException
  | Reply status body => Ok (status, body)
  end.

End Runtime.
Export Runtime.

Declare Scope py_scope.
Delimit Scope py_scope with py.
Notation "x <- m ;; k" := (bind m (fun x => k))
  (at level 100, m at next level, right associativity) : py_scope.
Notation "m ;; k" := (bind m (fun _ => k))
  (at level 100, right associativity) : py_scope.
Local Open Scope py_scope.

(** ** lmstudio_helpers.py: the summarizer adapter *)
Module LMStudio.

(** The article as [fetch_article] builds it: a dict with these four keys. *)
Record article : Type := {
  title : json;
  source : json;
  summary : json;
  link : json
}.

Definition set_summary (a : article) (s : json) : article :=
  {| title := title a; source := source a; summary := s; link := link a |}.

Definition json_string (v : json) : option string :=
  match v with JStr s => Some s | _ => None end.

(** [for m in items]: what iterating [items] gives, or a [TypeError]. *)
Definition iterate (items : json) : result (list json) :=
  match items with
  | JArr l => Ok l
  | JStr s => Ok (map (fun c => JStr (String c EmptyString)) (list_ascii_of_string s))
  | JObj fields => Ok (map (fun kv => JStr (fst kv)) fields)
  | _ => Raise TypeError
  end.

(** [lmstudio_models]: the ids the models endpoint lists; [[]] on any failure. *)
Definition lmstudio_models (cfg : config) (svc : service) : M (list string) :=
  try_except
    (_ <- lift (match LMSTUDIO_BASE_URL cfg with
                | Some b => Ok (rstrip_slash b +:+ "/v1/models")
                | None => Raise AttributeError
                end) ;;
     emit EvModels ;;
     r <- lift (received (models svc)) ;;
     lift (raise_for_status (fst r)) ;;
     data <- lift (response_json (snd r)) ;;
     listed <- lift (get data "data" (JArr [])) ;;
     items <- lift (iterate listed) ;;
     let ids := omap (fun m => match get m "id" JNull with
                               | Ok v => Some v
                               | Raise _ => None
                               end) items in
     print (LogModelsList ids) ;;
     ret (omap json_string ids))
    (fun e => print (LogModelsUnreachable e) ;; ret []).

(** [safe_json_parse]: [json.loads(text)], or [None] when it raises (as it
    does on anything that is not a string). *)
Definition safe_json_parse (svc : service) (text : json) : json :=
  match text with
  | JStr s => match json_loads svc s with Some v => v | None => JNull end
  | _ => JNull
  end.

(** [looks_like_instruct_model]; [model_id.lower()] needs a string. *)
Definition looks_like_instruct_model (model_id : option string) : result bool :=
  match model_id with
  | None => Raise AttributeError
  | Some model_id =>
      let m := lower model_id in
      if contains "instruct" m then Ok true
      else Ok (existsb (fun x => contains x m) ["qwen"; "mistral"; "llama"; "phi"; "gemma"]
               && negb (existsb (fun y => contains y m) ["r1"; "reasoning"]))
  end.

(** [isinstance(parsed, dict) and parsed.get("title")], as a condition *)
Definition accepted (parsed : json) : bool :=
  match parsed with
  | JObj fields => match assoc "title" fields with Some t => truthy t | None => false end
  | _ => false
  end.

(** [(data.get("choices") or [{}])[0].get("message", {})] *)
Definition message_of (data : json) : result json :=
  match get data "choices" JNull with
  | Raise e => Raise e
  | Ok choices =>
      match item0 (py_or choices (JArr [JObj []])) with
      | Raise e => Raise e
      | Ok first => get first "message" (JObj [])
      end
  end.

(** [(msg.get("content") or "").strip()] *)
Definition content_of (msg : json) : result string :=
  match get msg "content" JNull with
  | Raise e => Raise e
  | Ok c => str_strip (py_or c (JStr ""))
  end.

(** [(article.get(key) or "").strip()] *)
Definition stripped (field : json) : result string :=
  str_strip (py_or field (JStr "")).

(** The newline character *)
Definition nl : string := String (ascii_of_nat 10) EmptyString.

Definition user_prompt (src url title desc : string) : string :=
  "Source: " +:+ src +:+ nl +:+ "URL: " +:+ url +:+ nl +:+ "Title: " +:+ title +:+ nl +:+ nl +:+
  "Description snippet (may be partial):" +:+ nl +:+ take_chars 2000 desc.

Definition schema_payload (cfg : config) (prompt : string) : payload :=
  {| pl_model := LMSTUDIO_MODEL cfg;
     pl_system := "Return only what the schema requires.";
     pl_user := prompt;
     pl_temperature_tenths := 1;
     pl_max_tokens := 500;
     pl_response_format := true;
     pl_tools := false |}.

(** The second request: [tools] and [tool_choice] are added [if LM_USE_TOOLS]. *)
Definition tool_payload (cfg : config) (prompt : string) : payload :=
  {| pl_model := LMSTUDIO_MODEL cfg;
     pl_system := "You are a crisp news summarizer for a Discord channel.";
     pl_user := prompt;
     pl_temperature_tenths := 2;
     pl_max_tokens := 600;
     pl_response_format := false;
     pl_tools := LM_USE_TOOLS cfg |}.

Definition plain_payload (cfg : config) (prompt : string) : payload :=
  {| pl_model := LMSTUDIO_MODEL cfg;
     pl_system := "Return ONLY a compact JSON object with keys: title (string), key_points (array of 3 short strings), why_it_matters (string).";
     pl_user := prompt;
     pl_temperature_tenths := 1;
     pl_max_tokens := 500;
     pl_response_format := false;
     pl_tools := false |}.

(** [requests.post(endpoint, headers=headers, json=p, timeout=...)] *)
Definition post (svc : service) (p : payload) : M (Z * option json) :=
  emit (EvChat p) ;; lift (received (chat svc p)).

(** How a [try] block of the adapter ends: with a [return], or by falling
    through to the code below it. *)
Inductive flow : Type :=
| Returned (v : option json)
| FellThrough.

Definition schema_rejected (status : Z) : bool :=
  existsb (Z.eqb status) [400; 404; 415; 422; 500]%Z.

(** The first [try] block: the schema-constrained request. *)
Definition schema_attempt (cfg : config) (svc : service) (prompt : string) : M flow :=
  try_except
    (r <- post svc (schema_payload cfg prompt) ;;
     if schema_rejected (fst r) then
       print (LogSchemaNotAccepted (fst r)) ;; ret FellThrough
     else
       lift (raise_for_status (fst r)) ;;
       data <- lift (response_json (snd r)) ;;
       msg <- lift (message_of data) ;;
       parsed <- lift (get msg "parsed" JNull) ;;
       if accepted parsed then ret (Returned (Some parsed))
       else
         content <- lift (content_of msg) ;;
         let parsed2 := safe_json_parse svc (JStr content) in
         if accepted parsed2 then ret (Returned (Some parsed2))
         else print LogSchemaNoParsed ;; ret FellThrough)
    (fun e =>
       match e with
       | ConnectionError => print LogCannotConnect ;; ret (Returned None)
       | _ => print (LogSchemaFailed e) ;; ret FellThrough
       end).

(** [tool_calls[0]["function"]["arguments"]] *)
Definition tool_arguments (tool_calls : json) : result json :=
  match item0 tool_calls with
  | Raise e => Raise e
  | Ok call =>
      match item call "function" with
      | Raise e => Raise e
      | Ok f => item f "arguments"
      end
  end.

(** The second [try] block: the request that carries the tools when
    [LM_USE_TOOLS] is set. *)
Definition tool_attempt (cfg : config) (svc : service) (prompt : string) : M flow :=
  try_except
    (r2 <- post svc (tool_payload cfg prompt) ;;
     lift (raise_for_status (fst r2)) ;;
     data2 <- lift (response_json (snd r2)) ;;
     msg2 <- lift (message_of data2) ;;
     content <- lift (content_of msg2) ;;
     let parsed := safe_json_parse svc (JStr content) in
     if accepted parsed then ret (Returned (Some parsed))
     else
       tc <- lift (get msg2 "tool_calls" JNull) ;;
       let tool_calls := py_or tc (JArr []) in
       if truthy tool_calls then
         try_except
           (arguments <- lift (tool_arguments tool_calls) ;;
            let parsed2 := safe_json_parse svc arguments in
            if accepted parsed2 then ret (Returned (Some parsed2))
            else ret FellThrough)
           (fun e => print (LogToolArgsFailed e) ;; ret FellThrough)
       else ret FellThrough)
    (fun e => print (LogToolFallbackFailed e) ;; ret FellThrough).

(** The third [try] block: the plain-instruction request. *)
Definition plain_attempt (cfg : config) (svc : service) (prompt : string) : M flow :=
  try_except
    (r3 <- post svc (plain_payload cfg prompt) ;;
     lift (raise_for_status (fst r3)) ;;
     data3 <- lift (response_json (snd r3)) ;;
     msg3 <- lift (message_of data3) ;;
     content3 <- lift (content_of msg3) ;;
     let parsed3 := safe_json_parse svc (JStr content3) in
     if accepted parsed3 then ret (Returned (Some parsed3))
     else ret FellThrough)
    (fun e => print (LogPlainFailed e) ;; ret FellThrough).

(** The prompt, from the four fields of the article; each [.strip()] is
    outside every [try]. *)
Definition build_prompt (a : article) : result string :=
  match stripped (summary a) with
  | Raise e => Raise e
  | Ok desc =>
  match stripped (title a) with
  | Raise e => Raise e
  | Ok title =>
  match stripped (source a) with
  | Raise e => Raise e
  | Ok src =>
  match stripped (link a) with
  | Raise e => Raise e
  | Ok url => Ok (user_prompt src url title desc)
  end end end end.

(** The lines before the requests: the models the service lists, and the
    two hints. [looks_like_instruct_model] is called outside every [try]. *)
Definition preflight (cfg : config) (svc : service) : M unit :=
  listed <- lmstudio_models cfg svc ;;
  when (match listed with [] => false | _ => true end
        && negb (bool_decide (LMSTUDIO_MODEL cfg ∈ map Some listed)))
       (print LogModelNotListed) ;;
  instruct <- lift (looks_like_instruct_model (LMSTUDIO_MODEL cfg)) ;;
  when (negb instruct) (print LogHintInstruct).

(** [f"{LMSTUDIO_BASE_URL.rstrip('/')}/v1/chat/completions"] *)
Definition endpoint (cfg : config) : result string :=
  match LMSTUDIO_BASE_URL cfg with
  | Some b => Ok (rstrip_slash b +:+ "/v1/chat/completions")
  | None => Raise AttributeError
  end.

(** The three [try] blocks in their order; the first [return] wins. *)
Definition attempts (cfg : config) (svc : service) (prompt : string) : M (option json) :=
  f1 <- schema_attempt cfg svc prompt ;;
  match f1 with
  | Returned v => ret v
  | FellThrough =>
      f2 <- tool_attempt cfg svc prompt ;;
      match f2 with
      | Returned v => ret v
      | FellThrough =>
          f3 <- plain_attempt cfg svc prompt ;;
          match f3 with
          | Returned v => ret v
          | FellThrough => print LogNoStructured ;; ret None
          end
      end
  end.

Definition summarize_with_lmstudio (cfg : config) (svc : service) (a : article)
  : M (option json) :=
  preflight cfg svc ;;
  lift (endpoint cfg) ;;
  prompt <- lift (build_prompt a) ;;
  attempts cfg svc prompt.

End LMStudio.
Export LMStudio.

(** ** news.py: the query pools and the article fetcher *)
Module News.

(** [load_topics_from_file]: the stripped non-blank lines of the file, added
    to [available_queries]; a missing file ([None]) gives no topic. *)
Definition topics_of (file : option (list string)) : list string :=
  match file with
  | Some lines => filter (fun t => t ≠ "") (map strip lines)
  | None => []
  end.

Definition load_topics_from_file (file : option (list string)) : M (list string) :=
  let topics := topics_of file in
  print (match file with
         | Some _ => LogTopicsLoaded (length topics)
         | None => LogTopicsMissing
         end) ;;
  available <- get_available ;;
  used <- get_used ;;
  set_pools (available ++ topics) used ;;
  ret topics.

(** The state when news.py has been imported: both lists empty, then the
    module-level call of [load_topics_from_file]. *)
Definition initial (file : option (list string)) : world :=
  snd (load_topics_from_file file
         {| available_queries := []; used_queries := []; trace := [] |}).

(** [x[i], x[j] = x[j], x[i]] *)
Definition swap (i j : nat) (x : list string) : list string :=
  match x !! i, x !! j with
  | Some xi, Some xj => <[j := xi]> (<[i := xj]> x)
  | _, _ => x
  end.

(** [random.shuffle(x)], as CPython writes it:
    [for i in reversed(range(1, len(x))): j = randbelow(i + 1); swap].
    [shuffle_from rnd i x] runs the iterations [i, i-1, ..., 1]. *)
Fixpoint shuffle_from (rnd : nat -> nat) (i : nat) (x : list string) : list string :=
  match i with
  | O => x
  | S i' => shuffle_from rnd i' (swap i (rnd i mod S i) x)
  end.

Definition shuffle (rnd : nat -> nat) (x : list string) : list string :=
  shuffle_from rnd (length x - 1) x.

(** [available_queries.remove(query); used_queries.append(query)] *)
Definition commit (query : string) : M unit :=
  available <- get_available ;;
  used <- get_used ;;
  match list_remove query available with
  | None => raise ValueError
  | Some available' => set_pools available' (used ++ [query])
  end.

(** [random.shuffle(available_queries)] *)
Definition shuffle_available (rnd : nat -> nat) : M unit :=
  available <- get_available ;;
  used <- get_used ;;
  set_pools (shuffle rnd available) used.

(** [available_queries.extend(used_queries); used_queries.clear()] *)
Definition reset_pools : M unit :=
  available <- get_available ;;
  used <- get_used ;;
  set_pools (available ++ used) [].

(** The loop of [handle_api_limit], by the number of rounds still allowed:
    [while sleep_seconds > 0: sleep(min(60, sleep_seconds));
     sleep_seconds -= 60; print(sleep_seconds // 60)]. *)
Fixpoint api_wait (rounds : nat) (sleep_seconds : Z) : M unit :=
  match rounds with
  | O => ret tt
  | S rounds' =>
      if (0 <? sleep_seconds)%Z then
        emit (EvSleep (Z.min 60 sleep_seconds)) ;;
        let sleep_seconds := (sleep_seconds - 60)%Z in
        print (LogStillWaiting (sleep_seconds / 60)%Z) ;;
        api_wait rounds' sleep_seconds
      else ret tt
  end.

(** The rounds a wait of [sleep_seconds] takes: one per started minute. *)
Definition rounds_of (sleep_seconds : Z) : nat := Z.to_nat ((sleep_seconds + 59) / 60).

Definition handle_api_limit : M unit :=
  print LogWaiting ;;
  let sleep_seconds := (15 * 60)%Z in
  api_wait (rounds_of sleep_seconds) sleep_seconds ;;
  print LogResuming.

(** [url in recent_urls]: a list or a dict cannot be hashed. *)
Definition seen (url : json) (recent_urls : gset string) : result bool :=
  match url with
  | JStr s => Ok (bool_decide (s ∈ recent_urls))
  | JArr _ | JObj _ => Raise TypeError
  | _ => Ok false
  end.

Definition placeholder : string := "No description available.".

(** How one round of the [for] loop ends. *)
Inductive step : Type :=
| Continue
| Return (r : option article).

(** The body of the [try] in the loop of [fetch_article], for the [i]-th
    term [query]. *)
Definition attempt (cfg : config) (svc : service) (recent_urls : gset string)
    (i : nat) (query : string) : M step :=
  print (LogFetching query) ;;
  emit (EvSearch query) ;;
  response <- lift (received (search svc i query)) ;;
  if (fst response =? 429)%Z then
    print LogRateLimit ;;
    handle_api_limit ;;
    ret (Return None)
  else
    lift (raise_for_status (fst response)) ;;
    data <- lift (response_json (snd response)) ;;
    listed <- lift (get data "articles" JNull) ;;
    let articles := py_or listed (JArr []) in
    if truthy articles then
      top <- lift (item0 articles) ;;
      url <- lift (get top "url" JNull) ;;
      dup <- lift (seen url recent_urls) ;;
      if dup then print (LogSkipping url) ;; ret Continue
      else
        commit query ;;
        t <- lift (get top "title" (JStr "")) ;;
        s <- lift (get top "source" JNull) ;;
        name <- lift (get (py_or s (JObj [])) "name" (JStr "")) ;;
        d <- lift (get top "description" JNull) ;;
        let result := {| title := t; source := name;
                         summary := py_or d (JStr placeholder); link := url |} in
        lm_summary <- summarize_with_lmstudio cfg svc result ;;
        match lm_summary with
        | Some v =>
            if truthy v then ret (Return (Some (set_summary result v)))
            else print LogUsingDescription ;; ret (Return (Some result))
        | None => print LogUsingDescription ;; ret (Return (Some result))
        end
    else print (LogNoArticlesFor query) ;; ret Continue.

(** One round: the [try] with its [except Exception], which only prints. *)
Definition round (cfg : config) (svc : service) (recent_urls : gset string)
    (i : nat) (query : string) : M step :=
  try_except (attempt cfg svc recent_urls i query)
             (fun e => print (LogFetchFailed query e) ;; ret Continue).

(** [for query in list(available_queries)], from the [i]-th term on. *)
Fixpoint fetch_loop (cfg : config) (svc : service) (recent_urls : gset string)
    (i : nat) (queries : list string) : M step :=
  match queries with
  | [] => ret Continue
  | query :: rest =>
      s <- round cfg svc recent_urls i query ;;
      match s with
      | Return r => ret (Return r)
      | Continue => fetch_loop cfg svc recent_urls (S i) rest
      end
  end.

(** The lines of [fetch_article] between the check of the key and the loop:
    the refill of an empty pool, and the shuffle. *)
Definition prepare (svc : service) : M unit :=
  available <- get_available ;;
  when (match available with [] => true | _ => false end)
       (print LogNoQueriesLeft ;;
        reset_pools ;;
        available <- get_available ;;
        print (LogQueriesReset (length available))) ;;
  shuffle_available (randbelow svc).

Definition fetch_article (cfg : config) (svc : service) (recent_urls : gset string)
  : M (option article) :=
  if unset (NEWS_API_KEY cfg) then print LogKeyMissing ;; ret None
  else
    prepare svc ;;
    available <- get_available ;;
    s <- fetch_loop cfg svc recent_urls 0 available ;;
    match s with
    | Return r => ret r
    | Continue => print LogNoArticlesAny ;; ret None
    end.

End News.
Export News.

(** ** tasks.py: the daily reset and the sleep of the poll scheduler *)
Module Tasks.
Local Open Scope Z_scope.

(** One round of [reset_queries_every_morning], at the hour the clock shows. *)
Definition reset_round (current_hour : Z) : M unit :=
  when (current_hour =? 9)%Z (print LogResetForNewDay ;; reset_pools) ;;
  emit (EvSleep 3600).

(** A naive [datetime]: the date by its day number ([toordinal]) and the
    time of day. *)
Record datetime : Type := {
  ordinal : Z;
  hour : Z;
  minute : Z;
  second : Z;
  microsecond : Z
}.

(** [now + datetime.timedelta(days=n)] *)
Definition plus_days (now : datetime) (n : Z) : datetime :=
  {| ordinal := ordinal now + n; hour := hour now; minute := minute now;
     second := second now; microsecond := microsecond now |}.

(** [datetime.datetime(d.year, d.month, d.day, h, m)] *)
Definition on_date_of (d : datetime) (h m : Z) : datetime :=
  {| ordinal := ordinal d; hour := h; minute := m; second := 0; microsecond := 0 |}.

Definition microseconds_of (d : datetime) : Z :=
  (((ordinal d * 24 + hour d) * 60 + minute d) * 60 + second d) * 1000000 + microsecond d.

(** [(a - b).total_seconds()], in microseconds: the durations of the
    scheduler are kept exact, in microseconds. *)
Definition total_microseconds (a b : datetime) : Z :=
  microseconds_of a - microseconds_of b.

Definition seconds (n : Z) : Z := n * 1000000.

(** [9 <= current_hour < 22] *)
Definition active (current_hour : Z) : bool :=
  (9 <=? current_hour)%Z && (current_hour <? 22)%Z.

(** [current_hour >= 22 or current_hour < 9] *)
Definition quiet (current_hour : Z) : bool :=
  (22 <=? current_hour)%Z || (current_hour <? 9)%Z.

(** The code of the quiet branch:
    [tomorrow = now + timedelta(days=1);
     next_morning = datetime(tomorrow.year, tomorrow.month, tomorrow.day, 9, 0);
     sleep_seconds = (next_morning - now).total_seconds()]. *)
Definition sleep_until_morning (now : datetime) : Z :=
  let tomorrow := plus_days now 1 in
  let next_morning := on_date_of tomorrow 9 0 in
  total_microseconds next_morning now.

(** The hours and minutes of the message "Sleeping until 9 AM. Resuming in
    ... hours and ... minutes." *)
Definition announced (sleep_us : Z) : Z * Z :=
  (sleep_us / seconds 3600, (sleep_us mod seconds 3600) / seconds 60).

(** The sleep loop of the quiet branch, by the rounds still allowed; it
    returns the sleeps it makes. [clock k] is what [datetime.now()] shows at
    the [k]-th wake:
    [while sleep_seconds > 0: sleep(min(60, sleep_seconds)); sleep_seconds -= 60;
     now = datetime.now(); if 9 <= now.hour < 22: break]. *)
Fixpoint quiet_wait (rounds : nat) (sleep_us : Z) (clock : nat -> datetime) (k : nat)
  : list Z :=
  match rounds with
  | O => []
  | S rounds' =>
      if (0 <? sleep_us)%Z then
        Z.min (seconds 60) sleep_us ::
          (let sleep_us := (sleep_us - seconds 60)%Z in
           let now := clock k in
           if active (hour now) then []
           else quiet_wait rounds' sleep_us clock (S k))
      else []
  end.

(** The rounds a sleep of [sleep_us] takes at most: one per started minute. *)
Definition quiet_rounds (sleep_us : Z) : nat :=
  Z.to_nat ((sleep_us + seconds 60 - 1) / seconds 60).

(** The sleeps at the end of one round of [fetch_and_post_articles] that
    began at [now] (and did not [continue] for a missing channel). *)
Definition scheduler_sleeps (now : datetime) (clock : nat -> datetime) : list Z :=
  if quiet (hour now) then
    let sleep_us := sleep_until_morning now in
    quiet_wait (quiet_rounds sleep_us) sleep_us clock 0
  else [seconds 1800].

(** The next 09:00 strictly after [now], as the specification words it: today's
    when the hour is before 9, tomorrow's otherwise. *)
Definition next_nine (now : datetime) : datetime :=
  if (hour now <? 9)%Z then on_date_of now 9 0
  else on_date_of (plus_days now 1) 9 0.

(** Seconds (in microseconds) until the next 09:00. *)
Definition until_next_nine (now : datetime) : Z :=
  total_microseconds (next_nine now) now.

End Tasks.
Export Tasks.

(** ** backup.py: the single-file variant of the scheduler *)
Module Backup.

(** [current_hour >= 19 or current_hour < 9]; the sleep it then computes is
    the same expression as in tasks.py, [sleep_until_morning]. *)
Definition quiet (current_hour : Z) : bool :=
  (19 <=? current_hour)%Z || (current_hour <? 9)%Z.

(** [9 <= current_hour < 23]: the hours in which a round fetches. *)
Definition active (current_hour : Z) : bool :=
  (9 <=? current_hour)%Z && (current_hour <? 23)%Z.

(** [9 <= now.hour < 19]: the test that ends the sleep loop early. *)
Definition resumes (current_hour : Z) : bool :=
  (9 <=? current_hour)%Z && (current_hour <? 19)%Z.

End Backup.

(** ** main.py: start-up *)
Module Main.

Inductive boot_event : Type :=
| BootPrint (line : string)
| BootExit (code : Z)               (* sys.exit(code) *)
| BotRun (token : option string).   (* bot.run(DISCORD_TOKEN): connects to the platform *)

(** [main]: [ensure_token()], then the registration of [on_ready] (no effect
    yet) and [bot.run]. [ensure_required] is not called. *)
Definition main (cfg : config) : list boot_event :=
  match ensure_token cfg with
  | Exits code diagnostics => map BootPrint diagnostics ++ [BootExit code]
  | Passed => [BotRun (DISCORD_TOKEN cfg)]
  end.

(** The events of start-up that reach the network. *)
Definition network (es : list boot_event) : list boot_event :=
  List.filter (λ e, match e with BotRun _ => true | _ => false end) es.

(** The exits of start-up. *)
Definition exits (es : list boot_event) : list boot_event :=
  List.filter (λ e, match e with BootExit _ => true | _ => false end) es.

End Main.
Export Main.

(** ** discord_bot.py: the moderation queue and the two button handlers *)
Module Moderation.

Inductive action : Type := Accept | Reject.

(** The two button presses on the review message of one article. *)
Inductive tid : Type := T1 | T2.

#[export] Instance tid_eq_dec : EqDecision tid.
Proof. solve_decision. Defined.

#[export] Instance action_eq_dec : EqDecision action.
Proof. solve_decision. Defined.

Definition other (t : tid) : tid := match t with T1 => T2 | T2 => T1 end.

(** Where a handler ([accept] or [reject]) stands. It can be suspended at
    every point; the two handlers differ in the messages and in [Post]. *)
Inductive pc : Type :=
| Start      (* about to [await interaction.response.defer(ephemeral=True)] *)
| Acquire    (* about to enter [async with unactioned_articles_lock] *)
| Critical   (* in the block: [if self.article in unactioned_articles: remove] *)
| Release    (* removed and printed; about to leave the block *)
| Notify     (* in the [else]: about to send the already-moderated notice *)
| Leave      (* notice sent; [return], which leaves the block *)
| Ack        (* about to send "Accepted ... Posting now..." or "Rejected ..." *)
| Edit       (* about to edit the original message and drop its buttons *)
| Post       (* [accept] only: about to [post_to_public_channel] *)
| Done.

#[export] Instance pc_eq_dec : EqDecision pc.
Proof. solve_decision. Defined.

(** What the handlers do that others can see. *)
Inductive effect : Type :=
| Removed (t : tid)                    (* [unactioned_articles.remove(self.article)] *)
| AlreadyModerated (t : tid)           (* the notice "This article has already been moderated ..." *)
| Acknowledged (t : tid) (a : action)  (* the follow-up "Accepted ..." or "Rejected ..." *)
| Edited (t : tid) (a : action)        (* [original_message.edit(content=..., view=None)] *)
| Published (t : tid)                  (* [channel.send(embed=embed)] on the public channel *)
| NoPublicChannel (t : tid)            (* [POST_CHANNEL_ID] is invalid: printed, nothing sent *)
| Failed (t : tid).                    (* [remove] raised [ValueError] *)

#[export] Instance effect_eq_dec : EqDecision effect.
Proof. solve_decision. Defined.

(** One press: which button, and whether [interaction.message] is there. *)
Record press : Type := {
  button : action;
  has_message : bool
}.

Section Queue.
Context {A : Type} `{EqDecision A}.

(** Modelled from the spec: state.py is not among the sources; it declares
    the list [unactioned_articles], initially empty, and the one
    [asyncio.Lock] that guards it (backup.py declares the same two).
    [lock_owner] is the handler inside [async with], if any. *)
Record mstate : Type := {
  unactioned_articles : list A;
  lock_owner : option tid;
  at_pc : tid -> pc;
  effects : list effect
}.

Definition set_pc (f : tid -> pc) (t : tid) (p : pc) : tid -> pc :=
  fun t' => if decide (t' = t) then p else f t'.

(** One step of the handler [t], for the article [a] of its view. [None]:
    the handler cannot move (it waits for the lock, or it has returned).
    [channel_ok] tells whether the public channel resolves, should the step
    be the publication. *)
Definition handler_step (a : A) (presses : tid -> press) (t : tid) (channel_ok : bool)
    (s : mstate) : option mstate :=
  let go q l p es :=
    Some {| unactioned_articles := q; lock_owner := l;
            at_pc := set_pc (at_pc s) t p; effects := effects s ++ es |} in
  let q := unactioned_articles s in
  let l := lock_owner s in
  let b := button (presses t) in
  match at_pc s t with
  | Start => go q l Acquire []
  | Acquire =>
      match l with
      | None => go q (Some t) Critical []
      | Some _ => None
      end
  | Critical =>
      if bool_decide (a ∈ q) then
        match list_remove a q with
        | Some q' => go q' l Release [Removed t]
        | None => go q None Done [Failed t]
        end
      else go q l Notify []
  | Release => go q None Ack []
  | Notify => go q l Leave [AlreadyModerated t]
  | Leave => go q None Done []
  | Ack => go q l Edit [Acknowledged t b]
  | Edit =>
      go q l (match b with Accept => Post | Reject => Done end)
         (if has_message (presses t) then [Edited t b] else [])
  | Post => go q l Done [if channel_ok then Published t else NoPublicChannel t]
  | Done => None
  end.

(** What happens between two steps of the handlers: a handler moves, or
    the rest of the program (the scheduler appending a candidate, the
    handlers of other articles) changes the queue in a critical section of
    its own, which needs the lock free. *)
Inductive move : Type :=
| Handler (t : tid) (channel_ok : bool)
| Others (queue : list A).

(** How often [a] is in the queue. *)
Definition occurrences (a : A) (q : list A) : nat :=
  length (List.filter (λ x, bool_decide (x = a)) q).

(** The other users of the queue leave the occurrences of [a] alone. *)
Definition same_count (a : A) (q q' : list A) : bool :=
  bool_decide (occurrences a q' = occurrences a q).

Definition step (a : A) (presses : tid -> press) (m : move) (s : mstate) : mstate :=
  match m with
  | Handler t channel_ok =>
      match handler_step a presses t channel_ok s with
      | Some s' => s'
      | None => s
      end
  | Others q' =>
      match lock_owner s with
      | None =>
          if same_count a (unactioned_articles s) q'
          then {| unactioned_articles := q'; lock_owner := None;
                  at_pc := at_pc s; effects := effects s |}
          else s
      | Some _ => s
      end
  end.

(** The state after a schedule, first move first. *)
Fixpoint run (a : A) (presses : tid -> press) (schedule : list move) (s : mstate) : mstate :=
  match schedule with
  | [] => s
  | m :: rest => run a presses rest (step a presses m s)
  end.

(** Both buttons have just been pressed; nobody holds the lock. *)
Definition pressed (queue : list A) : mstate :=
  {| unactioned_articles := queue; lock_owner := None;
     at_pc := fun _ => Start; effects := [] |}.

Definition finished (s : mstate) : Prop := at_pc s T1 = Done ∧ at_pc s T2 = Done.

End Queue.

Definition by_handler (t : tid) (e : effect) : bool :=
  match e with
  | Removed t' | AlreadyModerated t' | Acknowledged t' _ | Edited t' _
  | Published t' | NoPublicChannel t' | Failed t' => bool_decide (t' = t)
  end.

Definition is_removal (e : effect) : bool :=
  match e with Removed _ => true | _ => false end.

Definition is_publication (e : effect) : bool :=
  match e with Published _ => true | _ => false end.

(** The effects of the handler [t], in order. *)
Definition effects_of (t : tid) (es : list effect) : list effect :=
  List.filter (by_handler t) es.

(** The removals and the publications among the effects. *)
Definition removals (es : list effect) : list effect := List.filter is_removal es.

Definition publications (es : list effect) : list effect := List.filter is_publication es.

(** The points inside [async with unactioned_articles_lock]. *)
Definition holds_lock (p : pc) : bool :=
  match p with
  | Critical | Release | Notify | Leave => true
  | _ => false
  end.

(** The steps a handler has at most before it returns. *)
Definition rank (p : pc) : nat :=
  match p with
  | Start => 7
  | Acquire => 6
  | Critical => 5
  | Release => 4
  | Ack => 3
  | Edit => 2
  | Notify => 2
  | Post => 1
  | Leave => 1
  | Done => 0
  end.

(** What a handler that found the article does, from the removal to its
    return. *)
Definition acted (t : tid) (p : press) (channel_ok : bool) : list effect :=
  [Removed t; Acknowledged t (button p)] ++
  (if has_message p then [Edited t (button p)] else []) ++
  match button p with
  | Accept => [if channel_ok then Published t else NoPublicChannel t]
  | Reject => []
  end.

(** What the effects of a handler are, by the point where it stands. *)
Definition history (p : press) (t : tid) (at_ : pc) (es : list effect) : Prop :=
  match at_ with
  | Start | Acquire | Critical | Notify => es = []
  | Leave => es = [AlreadyModerated t]
  | Release | Ack => es = [Removed t]
  | Edit => es = [Removed t; Acknowledged t (button p)]
  | Post =>
      button p = Accept ∧
      es = [Removed t; Acknowledged t (button p)] ++
           (if has_message p then [Edited t (button p)] else [])
  | Done => es = [AlreadyModerated t] ∨ ∃ channel_ok, es = acted t p channel_ok
  end.

(** What holds of the two handlers and the queue at every moment, when the
    article [a] was in the queue once. *)
Record invariant {A} `{EqDecision A} (a : A) (presses : tid → press) (s : mstate)
  : Prop := {
  inv_lock : ∀ t, lock_owner s = Some t ↔ holds_lock (at_pc s t) = true;
  inv_count : occurrences a (unactioned_articles s) + length (removals (effects s)) = 1;
  inv_history : ∀ t, history (presses t) t (at_pc s t) (effects_of t (effects s));
  inv_absent : ∀ t, at_pc s t = Notify ∨ effects_of t (effects s) = [AlreadyModerated t] →
                    occurrences a (unactioned_articles s) = 0
}.

End Moderation.
Export Moderation.
(** ** discord_bot.py: the cards, and the scan of the review channel *)
Module Discord.

(** An embed and a message, by what the program writes and reads of them.
    [by_bot] is [message.author == bot.user]; [with_view] tells whether the
    message carries the two buttons. *)
Record field : Type := {
  field_name : string;
  field_value : string;
  inline : bool
}.

Record embed : Type := {
  embed_title : string;
  embed_description : string;
  embed_fields : list field
}.

Record message : Type := {
  by_bot : bool;
  msg_content : string;
  embeds : list embed;
  with_view : bool
}.

(** A channel as [bot.get_channel] resolves it: [None] when there is no
    such channel or it is not a text channel; else its messages, the newest
    first, as [channel.history] yields them. *)
Definition channel : Type := option (list message).

(** The two inner loops of [get_all_recent_bot_article_urls]:
    [for field in embed.fields: if field.name == "Link": urls.add(str(field.value))]. *)
Definition add_links (urls : gset string) (e : embed) : gset string :=
  foldl (λ urls f, if String.eqb (field_name f) "Link" then urls ∪ {[field_value f]} else urls)
        urls (embed_fields e).

(** [get_all_recent_bot_article_urls]: over [channel.history(limit=50)]. *)
Definition get_all_recent_bot_article_urls (history : list message) : gset string :=
  foldl (λ urls m,
           if by_bot m && match embeds m with [] => false | _ :: _ => true end
           then foldl add_links urls (embeds m)
           else urls)
        ∅ (take 50 history).

(** [original_message.edit(content=..., view=None)]: the embeds stay. *)
Definition edit (content : string) (m : message) : message :=
  {| by_bot := by_bot m; msg_content := content; embeds := embeds m; with_view := false |}.

Section Cards.

(** What [str] gives for a value that is not a string. *)
Variable repr : json → string.

(** [str(v)] *)
Definition str (v : json) : string :=
  match v with
  | JStr s => s
  | _ => repr v
  end.

(** [d.get(k, default)] on the entries of a dict *)
Definition entry (k : string) (fields : list (string * json)) (default : json) : json :=
  match assoc k fields with
  | Some v => v
  | None => default
  end.

(** ["\n".join(f"- {pt}" for pt in key_points)] *)
Definition bullets (key_points : json) : result string :=
  match iterate key_points with
  | Ok pts => Ok (String.concat nl (map (λ pt, "- " +:+ str pt) pts))
  | Raise e => Raise e
  end.

(** The title of the card: that of a structured summary when it has one,
    else that of the article. *)
Definition title_text (a : article) : string :=
  let title_fallback := str (title a) in
  match summary a with
  | JObj fields =>
      if truthy (entry "title" fields JNull) then str (entry "title" fields JNull)
      else title_fallback
  | _ => title_fallback
  end.

(** The embed [send_moderation_message] builds. *)
Definition moderation_embed (a : article) : result embed :=
  match summary a with
  | JObj fields =>
      let key_points := entry "key_points" fields (JArr []) in
      match bullets key_points with
      | Raise e => Raise e
      | Ok description =>
          let why := entry "why_it_matters" fields JNull in
          Ok {| embed_title := take_chars 256 (title_text a);
                embed_description := take_chars 4000 description;
                embed_fields :=
                  [{| field_name := "Source"; field_value := str (source a); inline := true |};
                   {| field_name := "Link"; field_value := str (link a); inline := false |}] ++
                  (if truthy why
                   then [{| field_name := "Why it matters"; field_value := str why;
                            inline := false |}]
                   else []) |}
      end
  | s =>
      Ok {| embed_title := take_chars 256 (title_text a);
            embed_description := take_chars 4000 (str s);
            embed_fields :=
              [{| field_name := "Source"; field_value := str (source a); inline := true |};
               {| field_name := "Link"; field_value := str (link a); inline := false |}] |}
  end.

(** The embed [post_to_public_channel] builds, from its own copy of the
    code. *)
Definition public_embed (a : article) : result embed :=
  match summary a with
  | JObj fields =>
      match bullets (entry "key_points" fields (JArr [])) with
      | Raise e => Raise e
      | Ok description =>
          let why := entry "why_it_matters" fields JNull in
          Ok {| embed_title := take_chars 256 (title_text a);
                embed_description := take_chars 4000 description;
                embed_fields :=
                  [{| field_name := "Source"; field_value := str (source a); inline := true |};
                   {| field_name := "Link"; field_value := str (link a); inline := false |}] ++
                  (if truthy why
                   then [{| field_name := "Why it matters"; field_value := str why;
                            inline := false |}]
                   else []) |}
      end
  | s =>
      Ok {| embed_title := take_chars 256 (title_text a);
            embed_description := take_chars 4000 (str s);
            embed_fields :=
              [{| field_name := "Source"; field_value := str (source a); inline := true |};
               {| field_name := "Link"; field_value := str (link a); inline := false |}] |}
  end.

(** [send_moderation_message]: with no review channel the error is printed
    and nothing is sent; else the card goes out with the two buttons. The
    result is the channel afterwards. *)
Definition send_moderation_message (a : article) (admin : channel) : result channel :=
  match admin with
  | None => Ok None
  | Some history =>
      match moderation_embed a with
      | Raise e => Raise e
      | Ok e =>
          Ok (Some ({| by_bot := true; msg_content := "New article for review:";
                       embeds := [e]; with_view := true |} :: history))
      end
  end.

(** [post_to_public_channel] *)
Definition post_to_public_channel (a : article) (public : channel) : result channel :=
  match public with
  | None => Ok None
  | Some history =>
      match public_embed a with
      | Raise e => Raise e
      | Ok e =>
          Ok (Some ({| by_bot := true; msg_content := ""; embeds := [e];
                       with_view := false |} :: history))
      end
  end.

End Cards.

End Discord.
Export Discord.

(** ** tasks.py: the diagnostics of start-up *)
Module Channels.

(** A text channel with what [ch.permissions_for(me)] gives, and a guild;
    [me_resolved] is [bool(g.me)]. *)
Record text_channel : Type := {
  ch_name : string;
  ch_id : Z;
  view_channel : bool;
  send_messages : bool;
  embed_links : bool;
  read_message_history : bool
}.

Record guild : Type := {
  g_name : string;
  g_id : Z;
  me_resolved : bool;
  text_channels : list text_channel
}.

(** The lines the two diagnostics print. *)
Inductive line : Type :=
| ListingHeader                               (* Listing accessible text channels per guild (first 50): *)
| GuildLine (name : string) (id : Z)          (* - Guild: name / id *)
| CannotResolveMember (guild_id : Z)          (* cannot resolve bot member in guild id *)
| ChannelLine (name : string) (id : Z)        (*   - #name (ID: id) *)
| NoAccessible                                (*   No accessible text channels found. *)
| ChannelNotFound (label : string)
| CannotResolveGuild (label : string)
| CannotResolveMemberOf (label : string) (guild_id : Z)
| PermissionsOK (label : string) (name : string)
| PermissionsMissing (label : string) (name : string) (missing : string).

(** The inner loop of [list_accessible_text_channels], from the count
    [count] on; it gives the lines printed and the count at its end:
    [for ch in g.text_channels: me = g.me; if not me: print; break;
     if p.view_channel: print; count += 1; if count >= 50: break]. *)
Fixpoint list_channels (g : guild) (count : nat) (chs : list text_channel)
  : list line * nat :=
  match chs with
  | [] => ([], count)
  | ch :: rest =>
      if negb (me_resolved g) then ([CannotResolveMember (g_id g)], count)
      else
        let shown := if view_channel ch then [ChannelLine (ch_name ch) (ch_id ch)] else [] in
        let count := if view_channel ch then S count else count in
        if (50 <=? count)%nat then (shown, count)
        else
          let r := list_channels g count rest in
          (shown ++ fst r, snd r)
  end.

Definition list_guild (g : guild) : list line :=
  let r := list_channels g 0 (text_channels g) in
  GuildLine (g_name g) (g_id g) :: fst r ++
  (if (snd r =? 0)%nat then [NoAccessible] else []).

Definition list_accessible_text_channels (guilds : list guild) : list line :=
  ListingHeader :: flat_map list_guild guilds.

(** The dict [required] of [check_channel_perms], in its order. *)
Definition required (ch : text_channel) : list (string * bool) :=
  [("view_channel", view_channel ch);
   ("send_messages", send_messages ch);
   ("embed_links", embed_links ch);
   ("read_message_history", read_message_history ch)].

(** [check_channel_perms]: [found] is what [bot.get_channel] gives, with
    the guild of the channel when it resolves. *)
Definition check_channel_perms (found : option (text_channel * option guild))
    (label : string) : line :=
  match found with
  | None => ChannelNotFound label
  | Some (ch, None) => CannotResolveGuild label
  | Some (ch, Some g) =>
      if negb (me_resolved g) then CannotResolveMemberOf label (g_id g)
      else if forallb snd (required ch) then PermissionsOK label (ch_name ch)
      else PermissionsMissing label (ch_name ch)
             (String.concat ", " (map fst (List.filter (λ kv, negb (snd kv)) (required ch))))
  end.

End Channels.
Export Channels.

(** ** tasks.py: one round of [fetch_and_post_articles] *)
Module Scheduler.

(** What a round prints, beyond what [fetch_article] prints itself. *)
Inductive notice : Type :=
| ReviewChannelInvalid                      (* ADMIN_CHANNEL_ID is invalid or the bot has no access to it. *)
| Diagnostics (lines : list line)           (* [list_accessible_text_channels()] *)
| NewArticle (added : article) (awaiting : list article)
                                            (* New article added for moderation; the list awaiting approval *)
| NoNewArticles                             (* No new articles found or API rate limit reached. *)
| OutsideActiveHours (hour minute : Z)      (* Outside active hours. Current time: HH:MM *)
| SleepingUntilNine (hours minutes : Z).    (* Sleeping until 9 AM. Resuming in ... hours and ... minutes. *)

(** The state a round works on: the module state of news.py with the
    trace, the list [unactioned_articles], and the review channel as
    [bot.get_channel(ADMIN_CHANNEL_ID)] resolves it. *)
Record bot : Type := {
  news : world;
  unactioned : list article;
  review : channel
}.

Section Round.

Variable repr : json → string.
Variable cfg : config.
Variable svc : service.
Variable guilds : list guild.

(** The branch [if 9 <= current_hour < 22]. It gives what is printed and
    whether the loop [continue]s (after its own sleep of half an hour), or
    the exception that leaves the loop; the article is appended to the
    queue before the review message is sent. ([if article_post:] holds of
    every article: a dict of four keys counts as true.) *)
Definition active_branch (b : bot) : result (list notice * bool) * bot :=
  match review b with
  | None =>
      (Ok ([ReviewChannelInvalid; Diagnostics (list_accessible_text_channels guilds)], true), b)
  | Some history =>
      let recent_urls := get_all_recent_bot_article_urls history in
      match fetch_article cfg svc recent_urls (news b) with
      | (Raise e, w) =>
          (Raise e, {| news := w; unactioned := unactioned b; review := review b |})
      | (Ok None, w) =>
          (Ok ([NoNewArticles], false),
           {| news := w; unactioned := unactioned b; review := review b |})
      | (Ok (Some article_post), w) =>
          let queue := unactioned b ++ [article_post] in
          match send_moderation_message repr article_post (review b) with
          | Raise e => (Raise e, {| news := w; unactioned := queue; review := review b |})
          | Ok sent =>
              (Ok ([NewArticle article_post queue], false),
               {| news := w; unactioned := queue; review := sent |})
          end
      end
  end.

(** One round of the loop that began at [now]: what it prints and the
    sleeps it makes, or the exception that ends the task. *)
Definition fetch_and_post_round (now : datetime) (clock : nat → datetime) (b : bot)
  : result (list notice * list Z) * bot :=
  let current_hour := hour now in
  let tail :=
    if quiet current_hour
    then [SleepingUntilNine (fst (announced (sleep_until_morning now)))
                            (snd (announced (sleep_until_morning now)))]
    else [] in
  if active current_hour then
    match active_branch b with
    | (Raise e, b') => (Raise e, b')
    | (Ok (notices, true), b') => (Ok (notices, [seconds 1800]), b')
    | (Ok (notices, false), b') => (Ok (notices ++ tail, scheduler_sleeps now clock), b')
    end
  else
    (Ok (OutsideActiveHours current_hour (minute now) :: tail, scheduler_sleeps now clock), b).

End Round.

End Scheduler.
Export Scheduler.


(** ** The program as a whole: what can happen to the pools *)
Module Program.

(** The two operations on the pools: a call of [fetch_article] (with the
    settings, the outside world and the excluded links of that call) and a
    round of [reset_queries_every_morning] (at the hour the clock shows).
    [fetch_article] can be suspended only inside [handle_api_limit], after
    which it touches the pools no more, so a round of the reset that runs
    in between acts as one that runs after it. *)
Inductive op : Type :=
| Fetch (cfg : config) (svc : service) (recent_urls : gset string)
| ResetRound (current_hour : Z).

Definition apply_op (o : op) (w : world) : world :=
  match o with
  | Fetch cfg svc recent_urls => snd (fetch_article cfg svc recent_urls w)
  | ResetRound current_hour => snd (reset_round current_hour w)
  end.

Definition run_ops (ops : list op) (w : world) : world :=
  fold_left (fun w o => apply_op o w) ops w.

Definition pools (w : world) : list string * list string :=
  (available_queries w, used_queries w).

(** [m] takes the pools along [P], whatever it returns or raises. *)
Definition preserves {A} (P : relation (list string * list string)) (m : M A) : Prop :=
  ∀ w, P (pools w) (pools (snd (m w))).

(** The terms of both pools together are the same, as a multiset. *)
Definition conserved : relation (list string * list string) :=
  λ p q, (q.1 ++ q.2) ≡ₚ (p.1 ++ p.2).

(** The term [t] is in one pool and not in the other. *)
Definition in_exactly_one (t : string) (w : world) : Prop :=
  ((t ∈ available_queries w) ∧ ¬ (t ∈ used_queries w)) ∨
  (¬ (t ∈ available_queries w) ∧ (t ∈ used_queries w)).

End Program.
Export Program.

(** ** What the fetcher reads in a search reply, and what it returns *)
Module Fetched.

(** The first article of a reply the fetcher takes as a success: a response
    that is neither a 429 nor an HTTP error, whose body is a dict with a
    non-empty [articles]. *)
Definition top_result (r : http_reply) : option json :=
  match r with
  | Reply status (Some data) =>
      if (status =? 429)%Z then None
      else
        match raise_for_status status, get data "articles" JNull with
        | Ok _, Ok listed =>
            let articles := py_or listed (JArr []) in
            if truthy articles
            then match item0 articles with Ok top => Some top | Raise _ => None end
            else None
        | _, _ => None
        end
  | _ => None
  end.

(** The link of that article, when it is a string. *)
Definition top_link (r : http_reply) : option string :=
  match top_result r with
  | Some top => match get top "url" JNull with Ok (JStr s) => Some s | _ => None end
  | None => None
  end.

(** The summary [s] of a fetched article whose search result has the
    description [description] ([JNull] when it has none): a dict with a
    non-empty title, or a non-empty string, which is the description, or the
    placeholder when the description is missing or empty. *)
Definition summary_shape (s description : json) : Prop :=
  (∃ fields t, s = JObj fields ∧ assoc "title" fields = Some t ∧ truthy t = true) ∨
  (∃ text, s = JStr text ∧ text ≠ "" ∧
           (description = JStr text ∨ (truthy description = false ∧ text = placeholder))).

Definition add_events (es : list event) (w : world) : world :=
  {| available_queries := available_queries w;
     used_queries := used_queries w;
     trace := trace w ++ es |}.

End Fetched.
Export Fetched.

(** ** Reading the trace: the rate-limit wait and the requests made *)
Module Traces.

(** What [handle_api_limit] does: the announcement, fifteen sleeps of a
    minute, each followed by the minutes that remain, and the resumption. *)
Definition backoff : list event :=
  EvPrint LogWaiting ::
  flat_map (λ remaining, [EvSleep 60; EvPrint (LogStillWaiting remaining)])
           [14; 13; 12; 11; 10; 9; 8; 7; 6; 5; 4; 3; 2; 1; 0]%Z ++
  [EvPrint LogResuming].

(** The sleeps of a trace, in seconds. *)
Definition sleeps (es : list event) : list Z :=
  omap (λ e, match e with EvSleep s => Some s | _ => None end) es.

(** The search requests of a trace. *)
Definition searches (es : list event) : list string :=
  omap (λ e, match e with EvSearch q => Some q | _ => None end) es.

(** The chat-completion requests of a trace. *)
Definition chats (es : list event) : list payload :=
  omap (λ e, match e with EvChat p => Some p | _ => None end) es.

Definition total (l : list Z) : Z := fold_right Z.add 0%Z l.

(** The chat-completion requests made so far. *)
Definition chat_log (w : world) : list payload := chats (trace w).

(** [m] makes exactly the chat-completion requests [L], in this order,
    whether it returns or raises. *)
Definition issues {A} (L : list payload) (m : M A) : Prop :=
  ∀ w, chat_log (snd (m w)) = chat_log w ++ L.

End Traces.
Export Traces.

(** ** Sample settings and services, for the concrete cases *)
Module Samples.

Definition sample_config : config :=
  {| DISCORD_TOKEN := Some "token";
     ADMIN_CHANNEL_ID := Some 1%Z;
     POST_CHANNEL_ID := Some 2%Z;
     NEWS_API_KEY := Some "key";
     LMSTUDIO_BASE_URL := Some "http://localhost:1234/";
     LMSTUDIO_MODEL := Some "qwen2.5-7b-instruct-mlx";
     LMSTUDIO_API_KEY := None;
     LMSTUDIO_TIMEOUT := 120;
     LM_USE_TOOLS := false |}.

(** A search result of one article about [q], without description. *)
Definition one_article (q : string) : json :=
  JObj [("status", JStr "ok");
        ("articles",
         JArr [JObj [("title", JStr ("News on " +:+ q));
                     ("source", JObj [("id", JNull); ("name", JStr "Example Press")]);
                     ("description", JNull);
                     ("url", JStr ("https://example.org/" +:+ q))]])].

(** A search service with a fresh article for every term, and a completion
    service that cannot be reached. *)
Definition fresh_service : service :=
  {| search := fun _ q => Reply 200 (Some (one_article q));
     models := NoReply true;
     chat := fun _ => NoReply true;
     json_loads := fun _ => None;
     randbelow := fun _ => O |}.

(** A search service whose top result is the same old article for every
    term. *)
Definition stale_service : service :=
  {| search := fun _ _ => Reply 200 (Some (one_article "old"));
     models := NoReply true;
     chat := fun _ => NoReply true;
     json_loads := fun _ => None;
     randbelow := fun _ => O |}.

(** A search service that answers every request with 429. *)
Definition limited_service : service :=
  {| search := fun _ _ => Reply 429 None;
     models := NoReply true;
     chat := fun _ => NoReply true;
     json_loads := fun _ => None;
     randbelow := fun _ => O |}.

Definition sample_article : article :=
  {| title := JStr "News on AI";
     source := JStr "Example Press";
     summary := JStr placeholder;
     link := JStr "https://example.org/AI" |}.

(** The settings with the model id left unset. *)
Definition no_model_config : config :=
  {| DISCORD_TOKEN := Some "token";
     ADMIN_CHANNEL_ID := Some 1%Z;
     POST_CHANNEL_ID := Some 2%Z;
     NEWS_API_KEY := Some "key";
     LMSTUDIO_BASE_URL := Some "http://localhost:1234/";
     LMSTUDIO_MODEL := None;
     LMSTUDIO_API_KEY := None;
     LMSTUDIO_TIMEOUT := 120;
     LM_USE_TOOLS := false |}.

(** The double quote *)
Definition dq : string := String (ascii_of_nat 34) EmptyString.

(** The JSON text of an object with the one key [title]. *)
Definition titled (t : string) : string :=
  "{" +:+ dq +:+ "title" +:+ dq +:+ ": " +:+ dq +:+ t +:+ dq +:+ "}".

(** [json.loads] on the two texts the sample replies hold. *)
Definition sample_loads (s : string) : option json :=
  if String.eqb s (titled "From the content") then
    Some (JObj [("title", JStr "From the content")])
  else if String.eqb s (titled "From the tool call") then
    Some (JObj [("title", JStr "From the tool call")])
  else None.

(** A reply whose message holds a summary in its content and another in a
    tool call. *)
Definition both_reply : json :=
  JObj [("choices",
         JArr [JObj [("message",
                      JObj [("role", JStr "assistant");
                            ("content", JStr (titled "From the content"));
                            ("tool_calls",
                             JArr [JObj [("type", JStr "function");
                                         ("function",
                                          JObj [("name", JStr "summarize_article");
                                                ("arguments",
                                                 JStr (titled "From the tool call"))])]])])]])].

(** A completion service that refuses the schema-constrained request with
    422 and answers every other request with [both_reply]. *)
Definition refusing_service : service :=
  {| search := fun _ q => Reply 200 (Some (one_article q));
     models := NoReply true;
     chat := fun p => if pl_response_format p then Reply 422 None
                      else Reply 200 (Some both_reply);
     json_loads := sample_loads;
     randbelow := fun _ => O |}.

(** A completion service that refuses the schema-constrained request with
    422 and answers every other request with an empty object. *)
Definition silent_service : service :=
  {| search := fun _ q => Reply 200 (Some (one_article q));
     models := NoReply true;
     chat := fun p => if pl_response_format p then Reply 422 None
                      else Reply 200 (Some (JObj []));
     json_loads := fun _ => None;
     randbelow := fun _ => O |}.

(** The settings with the search-service key left unset. *)
Definition no_key_config : config :=
  {| DISCORD_TOKEN := Some "token";
     ADMIN_CHANNEL_ID := Some 1%Z;
     POST_CHANNEL_ID := Some 2%Z;
     NEWS_API_KEY := None;
     LMSTUDIO_BASE_URL := Some "http://localhost:1234/";
     LMSTUDIO_MODEL := Some "qwen2.5-7b-instruct-mlx";
     LMSTUDIO_API_KEY := None;
     LMSTUDIO_TIMEOUT := 120;
     LM_USE_TOOLS := false |}.

(** The settings with the bot credential left unset. *)
Definition no_token_config : config :=
  {| DISCORD_TOKEN := None;
     ADMIN_CHANNEL_ID := Some 1%Z;
     POST_CHANNEL_ID := Some 2%Z;
     NEWS_API_KEY := Some "key";
     LMSTUDIO_BASE_URL := Some "http://localhost:1234/";
     LMSTUDIO_MODEL := Some "qwen2.5-7b-instruct-mlx";
     LMSTUDIO_API_KEY := None;
     LMSTUDIO_TIMEOUT := 120;
     LM_USE_TOOLS := false |}.

(** The settings with both channel identifiers left unset. *)
Definition no_channel_config : config :=
  {| DISCORD_TOKEN := Some "token";
     ADMIN_CHANNEL_ID := None;
     POST_CHANNEL_ID := None;
     NEWS_API_KEY := Some "key";
     LMSTUDIO_BASE_URL := Some "http://localhost:1234/";
     LMSTUDIO_MODEL := Some "qwen2.5-7b-instruct-mlx";
     LMSTUDIO_API_KEY := None;
     LMSTUDIO_TIMEOUT := 120;
     LM_USE_TOOLS := false |}.

(** One o'clock at night, and eleven in the evening, of some day. *)
Definition one_am : datetime :=
  {| ordinal := 739000; hour := 1; minute := 0; second := 0; microsecond := 0 |}.

Definition eleven_pm : datetime :=
  {| ordinal := 739000; hour := 23; minute := 0; second := 0; microsecond := 0 |}.

(** Two presses on the review message of one article: an accept and a
    reject. *)
Definition sample_presses (t : tid) : press :=
  match t with
  | T1 => {| button := Accept; has_message := true |}
  | T2 => {| button := Reject; has_message := true |}
  end.

(** An interleaving in which the reject gets the lock first and the accept
    waits for it; the scheduler tries to add a candidate while the lock is
    held (to no effect), and adds it once the lock is free. *)
Definition sample_schedule : list (move (A := string)) :=
  [Handler T1 true; Handler T2 true; Handler T2 true; Handler T1 true;
   Handler T2 true; Others ["older"; "article"; "newer"]; Handler T2 true;
   Handler T1 true; Handler T1 true; Handler T2 true; Handler T1 true;
   Handler T1 true; Others ["older"; "newer"]; Handler T2 true].

(** An article whose title came out of the search reply as a number. *)
Definition numbered_article : article :=
  {| title := JNum 2024;
     source := JStr "Example Press";
     summary := JStr placeholder;
     link := JStr "https://example.org/AI" |}.

Definition empty_world : world :=
  {| available_queries := []; used_queries := []; trace := [] |}.

Definition sample_prompt : string :=
  user_prompt "Example Press" "https://example.org/AI" "News on AI" placeholder.

End Samples.
Export Samples.
(** ** Reading the trace: the search requests of a call *)
Module Requests.

(** The search requests made so far, by their terms. *)
Definition search_log (w : world) : list string := searches (trace w).

(** [m] makes exactly the search requests for the terms [L], in this
    order, whether it returns or raises. *)
Definition asks {A} (L : list string) (m : M A) : Prop :=
  ∀ w, search_log (snd (m w)) = search_log w ++ L.

(** The used pool is only appended to. *)
Definition grows : relation (list string * list string) :=
  λ p q, ∃ more, q.2 = p.2 ++ more.

(** The terms a call of [fetch_article] can ask for: the available pool,
    or the used one when the available pool is empty. *)
Definition candidates (w : world) : list string :=
  match available_queries w with
  | [] => used_queries w
  | _ => available_queries w
  end.

(** The used pool as the loop of [fetch_article] finds it: emptied by the
    refill when the available pool was empty. *)
Definition used_at_start (w : world) : list string :=
  match available_queries w with
  | [] => []
  | _ => used_queries w
  end.

(** A reply to a search request that gives the fetcher nothing to go on
    with, and is not a 429 either. *)
Definition fruitless (r : http_reply) : bool :=
  match r with
  | Reply status _ =>
      negb (status =? 429)%Z && match top_result r with Some _ => false | None => true end
  | NoReply _ => true
  end.

End Requests.
Export Requests.


(** ** Articles the summarizer can take *)
Module Articles.

(** A field the summarizer can strip: a string, or a value that counts as
    false (which [or ""] replaces by the empty string). *)
Definition text_or_empty (v : json) : bool :=
  match v with
  | JStr _ => true
  | _ => negb (truthy v)
  end.

(** The four fields of the article are such. *)
Definition plain_text (a : article) : bool :=
  forallb text_or_empty [summary a; title a; source a; link a].

(** The three requests of the adapter, in the order of the code. *)
Definition request_plan (cfg : config) (prompt : string) : list payload :=
  [schema_payload cfg prompt; tool_payload cfg prompt; plain_payload cfg prompt].

End Articles.
Export Articles.

(** ** Reading the review channel *)
Module Review.

(** The link [L] is in a "Link" field of an embed of the bot's message [m]. *)
Definition carries (m : message) (L : string) : Prop :=
  by_bot m = true ∧
  ∃ e f, e ∈ embeds m ∧ f ∈ embed_fields e ∧ field_name f = "Link" ∧ field_value f = L.

End Review.
Export Review.

(** ** The queue and the review channel *)
Module Queue.

(** Every link of a queued article is found by the scan of the review
    channel. *)
Definition links_known (b : bot) : Prop :=
  ∃ history, review b = Some history ∧
             ∀ a L, a ∈ unactioned b → link a = JStr L →
                    L ∈ get_all_recent_bot_article_urls history.

(** No two entries of the queue have the same link. *)
Definition distinct_links (queue : list article) : Prop :=
  ∀ i j a a' L, queue !! i = Some a → queue !! j = Some a' →
                link a = JStr L → link a' = JStr L → i = j.

(** The review channel has room: fewer than fifty messages. *)
Definition has_room (b : bot) : Prop :=
  ∀ history, review b = Some history → (length history < 50)%nat.

End Queue.
Export Queue.

(** ** The handlers, whatever the queue holds *)
Module Handlers.

Section Lawful.
Context {A : Type} `{EqDecision A}.

(** The handler [t] has reached the public channel, or tried to. *)
Definition posted (t : tid) (s : mstate (A := A)) : Prop :=
  Published t ∈ effects s ∨ NoPublicChannel t ∈ effects s.

(** The points after the removal. *)
Definition past_removal (p : pc) : bool :=
  match p with
  | Release | Ack | Edit | Post => true
  | _ => false
  end.

(** A handler publishes last, only as an accept, and only after its own
    removal of the article. *)
Definition lawful (presses : tid → press) (s : mstate (A := A)) : Prop :=
  ∀ t, (posted t s → at_pc s t = Done) ∧
       (posted t s ∨ at_pc s t = Post → button (presses t) = Accept) ∧
       (posted t s ∨ past_removal (at_pc s t) = true → Removed t ∈ effects s).

(** The article is not in the queue, and the handlers have done no more
    than send the already-moderated notice. *)
Definition unnoticed (a : A) (s : mstate (A := A)) : Prop :=
  (a ∉ unactioned_articles s) ∧
  ∀ t, match at_pc s t with
       | Start | Acquire | Critical | Notify => effects_of t (effects s) = []
       | Leave | Done => effects_of t (effects s) = [AlreadyModerated t]
       | _ => False
       end.

End Lawful.

End Handlers.
Export Handlers.

(** ** More samples *)
Module MoreSamples.

(** A search service whose every reply lists no article. *)
Definition barren_service : service :=
  {| search := fun _ _ => Reply 200 (Some (JObj [("status", JStr "ok"); ("articles", JArr [])]));
     models := NoReply true;
     chat := fun _ => NoReply true;
     json_loads := fun _ => None;
     randbelow := fun _ => O |}.

(** The settings with the base URL of the completion service left unset. *)
Definition no_base_config : config :=
  {| DISCORD_TOKEN := Some "token";
     ADMIN_CHANNEL_ID := Some 1%Z;
     POST_CHANNEL_ID := Some 2%Z;
     NEWS_API_KEY := Some "key";
     LMSTUDIO_BASE_URL := None;
     LMSTUDIO_MODEL := Some "qwen2.5-7b-instruct-mlx";
     LMSTUDIO_API_KEY := None;
     LMSTUDIO_TIMEOUT := 120;
     LM_USE_TOOLS := false |}.

(** What [str] gives for the values that are no strings, as far as the
    samples need it. *)
Definition sample_repr (v : json) : string :=
  match v with
  | JNull => "None"
  | JBool true => "True"
  | JBool false => "False"
  | _ => "?"
  end.

(** An article with a structured summary whose key points are a number. *)
Definition odd_article : article :=
  {| title := JStr "News on AI";
     source := JStr "Example Press";
     summary := JObj [("title", JStr "AI news"); ("key_points", JNum 3)];
     link := JStr "https://example.org/AI" |}.

(** A guild with three channels, the second hidden from the bot. *)
Definition sample_guild : guild :=
  {| g_name := "newsroom"; g_id := 10; me_resolved := true;
     text_channels :=
       [{| ch_name := "review"; ch_id := 1; view_channel := true; send_messages := true;
           embed_links := true; read_message_history := true |};
        {| ch_name := "staff"; ch_id := 3; view_channel := false; send_messages := false;
           embed_links := false; read_message_history := false |};
        {| ch_name := "news"; ch_id := 2; view_channel := true; send_messages := true;
           embed_links := false; read_message_history := true |}] |}.

(** The review message of [sample_article]. *)
Definition sample_review : message :=
  {| by_bot := true; msg_content := "New article for review:";
     embeds := [{| embed_title := "News on AI";
                   embed_description := placeholder;
                   embed_fields :=
                     [{| field_name := "Source"; field_value := "Example Press";
                         inline := true |};
                      {| field_name := "Link"; field_value := "https://example.org/AI";
                         inline := false |}] |}];
     with_view := true |}.

(** Noon of some day. *)
Definition noon : datetime :=
  {| ordinal := 739000; hour := 12; minute := 0; second := 0; microsecond := 0 |}.

(** The bot after start-up: two topics loaded, nothing queued, an empty
    review channel. *)
Definition fresh_bot : bot :=
  {| news := initial (Some ["climate"; "AI"]); unactioned := []; review := Some [] |}.

(** Two presses handled one after the other. *)
Definition late_schedule : list (move (A := string)) :=
  [Handler T1 true; Handler T1 true; Handler T1 true; Handler T1 true; Handler T1 true;
   Handler T2 true; Handler T2 true; Handler T2 true; Handler T2 true; Handler T2 true].

End MoreSamples.
Export MoreSamples.


(** * Properties *)

(** Settles a decidable closed statement by evaluation. *)
Ltac decide_by_compute := apply (bool_decide_unpack _); vm_compute; exact I.

(** ** What a computation does to the two pools *)
Section Preservation.

Context (P : relation (list string * list string)) `{!PreOrder P}.

Lemma preserves_ret {A} (a : A) : preserves P (ret a).
Proof. intros w. reflexivity. Qed.

Lemma preserves_raise {A} (e : exn) : preserves P (@raise A e).
Proof. intros w. reflexivity. Qed.

Lemma preserves_lift {A} (r : result A) : preserves P (lift r).
Proof. intros w. reflexivity. Qed.

Lemma preserves_emit (ev : event) : preserves P (emit ev).
Proof. intros w. reflexivity. Qed.

Lemma preserves_get_available : preserves P get_available.
Proof. intros w. reflexivity. Qed.

Lemma preserves_get_used : preserves P get_used.
Proof. intros w. reflexivity. Qed.

Lemma preserves_bind {A B} (m : M A) (k : A → M B) :
  preserves P m → (∀ a, preserves P (k a)) → preserves P (bind m k).
Proof.
  intros Hm Hk w. unfold bind. specialize (Hm w).
  destruct (m w) as [[a|e] w1]; simpl in *; [|done].
  etrans; [exact Hm|apply Hk].
Qed.

Lemma preserves_try_except {A} (m : M A) (h : exn → M A) :
  preserves P m → (∀ e, preserves P (h e)) → preserves P (try_except m h).
Proof.
  intros Hm Hh w. unfold try_except. specialize (Hm w).
  destruct (m w) as [[a|e] w1]; simpl in *; [done|].
  etrans; [exact Hm|apply Hh].
Qed.

End Preservation.

(** Takes a goal [preserves P m] apart along the structure of [m]. *)
Ltac preserve_step :=
  match goal with
  | |- preserves _ (bind _ _) => refine (preserves_bind _ _ _ _ _); [|intros]
  | |- preserves _ (try_except _ _) => refine (preserves_try_except _ _ _ _ _); [|intros]
  | |- preserves _ (ret _) => refine (preserves_ret _ _)
  | |- preserves _ (raise _) => refine (preserves_raise _ _)
  | |- preserves _ (lift _) => refine (preserves_lift _ _)
  | |- preserves _ (emit _) => refine (preserves_emit _ _)
  | |- preserves _ (print _) => refine (preserves_emit _ _)
  | |- preserves _ get_available => refine (preserves_get_available _)
  | |- preserves _ get_used => refine (preserves_get_used _)
  | |- preserves _ (when ?b _) => destruct b; simpl
  | |- preserves _ (if ?b then _ else _) => destruct b
  | |- preserves _ (match ?x with _ => _ end) => destruct x
  end.

Ltac preserve := repeat (preserve_step; try assumption).

(** The summarizer leaves the pools as they are. *)
Lemma summarize_keeps_pools cfg svc a :
  preserves eq (summarize_with_lmstudio cfg svc a).
Proof.
  unfold summarize_with_lmstudio, preflight, attempts, lmstudio_models, schema_attempt,
    tool_attempt, plain_attempt, post.
  preserve.
Qed.

#[local] Instance conserved_preorder : PreOrder conserved.
Proof.
  split.
  - intros p. unfold conserved. done.
  - intros p q r Hpq Hqr. unfold conserved in *. by rewrite Hqr.
Qed.

Lemma preserves_weaken {A} (P Q : relation (list string * list string)) (m : M A) :
  (∀ p q, P p q → Q p q) → preserves P m → preserves Q m.
Proof. intros HPQ Hm w. apply HPQ, Hm. Qed.

Lemma eq_conserved p q : p = q → conserved p q.
Proof. intros ->. done. Qed.

(** *** [random.shuffle] permutes *)

Lemma insert_head_perm (x : list string) (j : nat) (a b : string) :
  x !! j = Some b → b :: <[j := a]> x ≡ₚ a :: x.
Proof.
  revert j. induction x as [|c x IH]; intros [|j] Hj; simpl in *; try done.
  - injection Hj as ->. apply perm_swap.
  - rewrite (perm_swap c b). rewrite (IH j Hj). apply perm_swap.
Qed.

Lemma swap_perm (i j : nat) (x : list string) : swap i j x ≡ₚ x.
Proof.
  unfold swap.
  destruct (x !! i) as [xi|] eqn:Hi; [|done].
  destruct (x !! j) as [xj|] eqn:Hj; [|done].
  revert i j Hi Hj. induction x as [|c x IH]; intros i j Hi Hj; [done|].
  destruct i as [|i], j as [|j]; simpl in *.
  - by simplify_eq.
  - simplify_eq. by apply insert_head_perm.
  - simplify_eq. by apply insert_head_perm.
  - f_equiv. by apply IH.
Qed.

Lemma shuffle_from_perm rnd (i : nat) (x : list string) : shuffle_from rnd i x ≡ₚ x.
Proof.
  revert x. induction i as [|i IH]; intros x; simpl; [done|].
  rewrite IH. apply swap_perm.
Qed.

Lemma shuffle_perm rnd (x : list string) : shuffle rnd x ≡ₚ x.
Proof. apply shuffle_from_perm. Qed.

(** *** [list.remove] takes one occurrence away *)

Lemma list_remove_perm {A} `{EqDecision A} (x : A) (l l' : list A) :
  list_remove x l = Some l' → x :: l' ≡ₚ l.
Proof.
  revert l'. induction l as [|y l IH]; intros l' Hl; simpl in *; [done|].
  destruct (decide (x = y)) as [->|Hne]; [by simplify_eq|].
  destruct (list_remove x l) as [r|]; [|done].
  simplify_eq. rewrite perm_swap. f_equiv. by apply IH.
Qed.

Lemma list_remove_elem {A} `{EqDecision A} (x : A) (l : list A) :
  x ∈ l → is_Some (list_remove x l).
Proof.
  induction l as [|y l IH]; intros Hx; simpl; [by apply elem_of_nil in Hx|].
  destruct (decide (x = y)); [by eexists|].
  apply elem_of_cons in Hx as [?|Hx]; [done|].
  destruct (IH Hx) as [r ->]. by eexists.
Qed.

(** *** The operations conserve the terms *)

Lemma commit_conserves q : preserves conserved (commit q).
Proof.
  intros [av us tr]. unfold commit, bind, get_available, get_used; simpl.
  destruct (list_remove q av) as [av'|] eqn:Hrm; simpl; [|done].
  unfold conserved; simpl. apply list_remove_perm in Hrm.
  rewrite <- Hrm. simpl. rewrite (assoc_L (++)). symmetry. apply Permutation_cons_append.
Qed.

Lemma reset_pools_conserves : preserves conserved reset_pools.
Proof.
  intros [av us tr]. unfold reset_pools, bind, get_available, get_used, conserved; simpl.
  by rewrite (right_id_L [] (++)).
Qed.

Lemma shuffle_available_conserves rnd : preserves conserved (shuffle_available rnd).
Proof.
  intros [av us tr]. unfold shuffle_available, bind, get_available, get_used, conserved; simpl.
  f_equiv. apply shuffle_perm.
Qed.

Lemma api_wait_keeps_pools n s : preserves eq (api_wait n s).
Proof.
  revert s. induction n as [|n IH]; intros s; simpl; preserve. apply IH.
Qed.

Lemma handle_api_limit_keeps_pools : preserves eq handle_api_limit.
Proof. unfold handle_api_limit. preserve. apply api_wait_keeps_pools. Qed.

Lemma attempt_conserves cfg svc recent i q :
  preserves conserved (attempt cfg svc recent i q).
Proof.
  unfold attempt. preserve.
  - eapply preserves_weaken; [apply eq_conserved|apply handle_api_limit_keeps_pools].
  - apply commit_conserves.
  - eapply preserves_weaken; [apply eq_conserved|apply summarize_keeps_pools].
Qed.

Lemma fetch_loop_conserves cfg svc recent i qs :
  preserves conserved (fetch_loop cfg svc recent i qs).
Proof.
  revert i. induction qs as [|q qs IH]; intros i; simpl; preserve.
  - unfold round. preserve. apply attempt_conserves.
  - apply IH.
Qed.

Lemma fetch_article_conserves cfg svc recent :
  preserves conserved (fetch_article cfg svc recent).
Proof.
  unfold fetch_article, prepare. preserve.
  - apply reset_pools_conserves.
  - apply shuffle_available_conserves.
  - apply fetch_loop_conserves.
Qed.

Lemma reset_round_conserves h : preserves conserved (reset_round h).
Proof. unfold reset_round. preserve. apply reset_pools_conserves. Qed.

Lemma apply_op_conserves o w : conserved (pools w) (pools (apply_op o w)).
Proof.
  destruct o; simpl; [apply fetch_article_conserves|apply reset_round_conserves].
Qed.

Lemma run_ops_conserves ops w : conserved (pools w) (pools (run_ops ops w)).
Proof.
  revert w. induction ops as [|o ops IH]; intros w; simpl; [done|].
  etrans; [apply apply_op_conserves|apply IH].
Qed.

Lemma initial_pools file :
  available_queries (initial file) = topics_of file ∧ used_queries (initial file) = [].
Proof. done. Qed.

(** C1 (amended). From the loaded topic list on, whatever calls of
    [fetch_article] and rounds of the daily reset follow, the two pools
    together hold the loaded terms, each as often as it was loaded; and when
    no term was loaded twice, every loaded term is in exactly one of the two
    pools. *)
Theorem query_pool_conservation (file : option (list string)) (ops : list op) :
  let w := run_ops ops (initial file) in
  available_queries w ++ used_queries w ≡ₚ topics_of file ∧
  (NoDup (topics_of file) →
   NoDup (available_queries w ++ used_queries w) ∧
   ∀ t, t ∈ topics_of file → in_exactly_one t w).
Proof.
  intros w.
  assert (Hperm : available_queries w ++ used_queries w ≡ₚ topics_of file).
  { pose proof (run_ops_conserves ops (initial file)) as Hc.
    unfold conserved in Hc; simpl in Hc. fold w in Hc. rewrite Hc.
    by rewrite (right_id_L [] (++)). }
  split; [exact Hperm|]. intros Hnd.
  assert (Hnd' : NoDup (available_queries w ++ used_queries w)) by by rewrite Hperm.
  split; [exact Hnd'|]. intros t Ht.
  rewrite <- Hperm in Ht. apply NoDup_app in Hnd' as (_ & Hdisj & _).
  unfold in_exactly_one. apply elem_of_app in Ht as [Ht|Ht].
  - left. split; [done|]. by apply Hdisj.
  - right. split; [|done]. intros Hav. by apply (Hdisj t).
Qed.

Lemma query_pool_conservation_witness :
  let w := run_ops [Fetch sample_config fresh_service ∅; ResetRound 9]
                   (initial (Some ["climate"; "AI"])) in
  available_queries w ++ used_queries w ≡ₚ ["climate"; "AI"] ∧
  in_exactly_one "climate" w.
Proof.
  intros w.
  destruct (query_pool_conservation (Some ["climate"; "AI"])
              [Fetch sample_config fresh_service ∅; ResetRound 9]) as [Hp Hn].
  split; [exact Hp|].
  apply Hn.
  - decide_by_compute.
  - decide_by_compute.
Defined.

(** C1, as stated, fails when a term is loaded twice: after one successful
    fetch for "AI" the term is in both pools. *)
Lemma repeated_term_in_both_pools :
  let w := run_ops [Fetch sample_config fresh_service ∅] (initial (Some ["AI"; "AI"])) in
  "AI" ∈ topics_of (Some ["AI"; "AI"]) ∧ ¬ in_exactly_one "AI" w.
Proof.
  intros w.
  assert (Hav : available_queries w = ["AI"]) by (vm_compute; reflexivity).
  assert (Hus : used_queries w = ["AI"]) by (vm_compute; reflexivity).
  split; [decide_by_compute|].
  unfold in_exactly_one. rewrite Hav, Hus. intros [[_ H]|[H _]]; apply H; set_solver.
Qed.

(** ** Inverting a computation that returned *)

Lemma bind_ok {A B} (m : M A) (k : A → M B) w b w' :
  bind m k w = (Ok b, w') → ∃ a w1, m w = (Ok a, w1) ∧ k a w1 = (Ok b, w').
Proof.
  unfold bind. destruct (m w) as [[a|e] w1]; intros Hk; [eauto|done].
Qed.

Lemma try_except_ok {A} (m : M A) (h : exn → M A) w b w' :
  try_except m h w = (Ok b, w') →
  m w = (Ok b, w') ∨ ∃ e w1, m w = (Raise e, w1) ∧ h e w1 = (Ok b, w').
Proof.
  unfold try_except. destruct (m w) as [[a|e] w1]; intros Hk; [by left|right; eauto].
Qed.

Lemma lift_ok {A} (r : result A) w a w' : lift r w = (Ok a, w') → r = Ok a ∧ w' = w.
Proof. unfold lift. by intros [= -> ->]. Qed.

Lemma ret_ok {A} (a b : A) w w' : ret a w = (Ok b, w') → b = a ∧ w' = w.
Proof. unfold ret. by intros [= -> ->]. Qed.

Lemma emit_ok ev w u w' : emit ev w = (Ok u, w') → w' = add_events [ev] w.
Proof. unfold emit. by intros [= <-]. Qed.

(** Inverts a hypothesis that a computation returned. *)
Ltac invert_ok :=
  repeat match goal with
  | H : bind _ _ _ = (Ok _, _) |- _ =>
      let a := fresh "a" in let w := fresh "w" in let H1 := fresh "H" in
      apply bind_ok in H as (a & w & H1 & H)
  | H : try_except _ _ _ = (Ok _, _) |- _ =>
      let e := fresh "e" in let w := fresh "w" in let H1 := fresh "H" in
      apply try_except_ok in H as [H|(e & w & H1 & H)]
  | H : lift _ _ = (Ok _, _) |- _ => apply lift_ok in H as [H ->]
  | H : ret _ _ = (Ok _, _) |- _ => apply ret_ok in H as [? ->]
  | H : emit _ _ = (Ok _, _) |- _ => apply emit_ok in H as ->
  | H : print _ _ = (Ok _, _) |- _ => apply emit_ok in H as ->
  | H : raise _ _ = (Ok _, _) |- _ => discriminate H
  | H : when ?b _ _ = (Ok _, _) |- _ => unfold when in H
  | H : (if ?b then _ else _) _ = (Ok _, _) |- _ => destruct b eqn:?
  | H : (match ?x with _ => _ end) _ = (Ok _, _) |- _ => destruct x eqn:?
  end.

(** ** What the summarizer returns *)

Lemma schema_attempt_accepts cfg svc p w v w' :
  schema_attempt cfg svc p w = (Ok (Returned (Some v)), w') → accepted v = true.
Proof. unfold schema_attempt. intros H. invert_ok; by simplify_eq. Qed.

Lemma tool_attempt_accepts cfg svc p w v w' :
  tool_attempt cfg svc p w = (Ok (Returned v), w') → ∃ x, v = Some x ∧ accepted x = true.
Proof. unfold tool_attempt. intros H. invert_ok; simplify_eq; eauto. Qed.

Lemma plain_attempt_accepts cfg svc p w v w' :
  plain_attempt cfg svc p w = (Ok (Returned v), w') → ∃ x, v = Some x ∧ accepted x = true.
Proof. unfold plain_attempt. intros H. invert_ok; simplify_eq; eauto. Qed.

Lemma summarize_ok cfg svc a w r w' :
  summarize_with_lmstudio cfg svc a w = (Ok r, w') →
  (∃ p, build_prompt a = Ok p) ∧ (∀ v, r = Some v → accepted v = true).
Proof.
  unfold summarize_with_lmstudio, attempts. intros H.
  invert_ok; (split; [by eauto|]); intros x ?; simplify_eq.
  all: match goal with
       | Hs : schema_attempt _ _ _ _ = (Ok (Returned (Some _)), _) |- _ =>
           by eapply schema_attempt_accepts
       | Ht : tool_attempt _ _ _ _ = (Ok (Returned _), _) |- _ =>
           by apply tool_attempt_accepts in Ht as (? & [= <-] & ?)
       | Hp : plain_attempt _ _ _ _ = (Ok (Returned _), _) |- _ =>
           by apply plain_attempt_accepts in Hp as (? & [= <-] & ?)
       end.
Qed.

Lemma accepted_shape v :
  accepted v = true → ∃ fields t, v = JObj fields ∧ assoc "title" fields = Some t ∧ truthy t = true.
Proof.
  destruct v as [| | | |?|fields]; simpl; try done.
  destruct (assoc "title" fields) as [t|] eqn:Ht; [|done]. eauto.
Qed.

(** ** What one round of the fetch loop returns *)

Lemma stripped_string v s : stripped v = Ok s → truthy v = true → ∃ text, v = JStr text ∧ text ≠ "".
Proof.
  unfold stripped, py_or. intros Hs Ht. rewrite Ht in Hs.
  destruct v as [| | |text| |]; try done. exists text. split; [done|].
  intros ->. done.
Qed.

Lemma build_prompt_summary a p : build_prompt a = Ok p → ∃ s, stripped (summary a) = Ok s.
Proof. unfold build_prompt. destruct (stripped (summary a)); [eauto|done]. Qed.

Lemma received_ok r p : received r = Ok p → r = Reply p.1 p.2.
Proof. destruct r as [[]|status body]; simpl; [done..|]. by intros [= <-]. Qed.

Lemma top_result_intro r p data listed top :
  received r = Ok p → (p.1 =? 429)%Z = false → raise_for_status p.1 = Ok tt →
  response_json p.2 = Ok data → get data "articles" JNull = Ok listed →
  truthy (py_or listed (JArr [])) = true → item0 (py_or listed (JArr [])) = Ok top →
  top_result r = Some top.
Proof.
  intros ->%received_ok H429 Hst Hdata Hl Ht Htop. unfold top_result.
  destruct (p.2) as [data'|]; simpl in Hdata; [|done]. simplify_eq.
  by rewrite H429, Hst, Hl, Ht, Htop.
Qed.

Lemma description_shape d s :
  stripped (py_or d (JStr placeholder)) = Ok s →
  summary_shape (py_or d (JStr placeholder)) d.
Proof.
  intros Hs. right. unfold py_or in *. destruct (truthy d) eqn:Hd.
  - destruct (stripped_string _ _ Hs Hd) as (text & -> & Hne). eauto.
  - exists placeholder. eauto.
Qed.

Lemma attempt_returned cfg svc E i q w art w' :
  attempt cfg svc E i q w = (Ok (Return (Some art)), w') →
  ∃ top d, top_result (search svc i q) = Some top ∧
           get top "url" JNull = Ok (link art) ∧
           seen (link art) E = Ok false ∧
           get top "description" JNull = Ok d ∧
           summary_shape (summary art) d.
Proof.
  unfold attempt. intros H. invert_ok; simplify_eq.
  all: match goal with
       | Hr : received _ = Ok _, Hu : get ?top "url" _ = Ok _,
         Hd : get ?top "description" _ = Ok ?d |- _ =>
           exists top, d; split_and!; simpl; try done;
           [by eapply top_result_intro; eauto; destruct (raise_for_status _) as [[]|]|]
       end.
  - match goal with
    | Hs : summarize_with_lmstudio _ _ _ _ = _ |- _ =>
        apply summarize_ok in Hs as [_ Hs]; left; by apply accepted_shape, Hs
    end.
  - match goal with
    | Hs : summarize_with_lmstudio _ _ _ _ = _ |- _ =>
        apply summarize_ok in Hs as [[p Hp] _];
        apply build_prompt_summary in Hp as [s Hp]; by eapply description_shape
    end.
  - match goal with
    | Hs : summarize_with_lmstudio _ _ _ _ = _ |- _ =>
        apply summarize_ok in Hs as [[p Hp] _];
        apply build_prompt_summary in Hp as [s Hp]; by eapply description_shape
    end.
Qed.

(** ** Running the effects *)

Lemma add_events_add es1 es2 w :
  add_events es2 (add_events es1 w) = add_events (es1 ++ es2) w.
Proof. unfold add_events; simpl. by rewrite (assoc_L (++)). Qed.

Lemma add_events_nil w : add_events [] w = w.
Proof. destruct w. unfold add_events; simpl. by rewrite (right_id_L [] (++)). Qed.

Lemma bind_emit {B} ev (k : unit → M B) w : bind (emit ev) k w = k tt (add_events [ev] w).
Proof. done. Qed.

Lemma bind_print {B} m (k : unit → M B) w : bind (print m) k w = k tt (add_events [EvPrint m] w).
Proof. done. Qed.

Lemma bind_lift_ok {A B} (a : A) (k : A → M B) w : bind (lift (Ok a)) k w = k a w.
Proof. done. Qed.

Lemma bind_ret {A B} (a : A) (k : A → M B) w : bind (ret a) k w = k a w.
Proof. done. Qed.

Lemma bind_bind {A B C} (m : M A) (k : A → M B) (h : B → M C) w :
  bind (bind m k) h w = bind m (λ a, bind (k a) h) w.
Proof. unfold bind. by destruct (m w) as [[a|e] w1]. Qed.

Lemma bind_run {A B} (m : M A) (k : A → M B) w a w1 :
  m w = (Ok a, w1) → bind m k w = k a w1.
Proof. unfold bind. by intros ->. Qed.

(** ** The rate-limit wait *)

(** [api_wait], with the rounds a wait takes, is the [while] loop. *)
Lemma api_wait_while (s : Z) :
  api_wait (rounds_of s) s =
  if (0 <? s)%Z then
    emit (EvSleep (Z.min 60 s)) ;;
    print (LogStillWaiting ((s - 60) / 60)%Z) ;;
    api_wait (rounds_of (s - 60)) (s - 60)%Z
  else ret tt.
Proof.
  destruct (0 <? s)%Z eqn:Hs.
  - apply Z.ltb_lt in Hs.
    assert (rounds_of s = S (rounds_of (s - 60))) as ->.
    { unfold rounds_of.
      replace (s + 59)%Z with ((s - 60 + 59) + 1 * 60)%Z by lia.
      rewrite Z.div_add by lia.
      rewrite Z2Nat.inj_add; [|apply Z.div_pos; lia|lia].
      rewrite Nat.add_comm. done. }
    simpl. apply Z.ltb_lt in Hs. by rewrite Hs.
  - apply Z.ltb_ge in Hs.
    assert (rounds_of s = O) as ->; [|done].
    unfold rounds_of.
    assert ((s + 59) / 60 < 1)%Z by (apply Z.div_lt_upper_bound; lia).
    lia.
Qed.

Lemma handle_api_limit_run w : handle_api_limit w = (Ok tt, add_events backoff w).
Proof.
  unfold handle_api_limit.
  change (rounds_of (15 * 60)) with 15%nat.
  simpl api_wait.
  repeat (first [rewrite bind_bind | rewrite bind_emit | rewrite bind_print
                | rewrite bind_ret | rewrite add_events_add]; cbv beta).
  unfold print, emit, add_events. simpl. rewrite <- ?(assoc_L (++)). reflexivity.
Qed.

Lemma backoff_sleeps :
  sleeps backoff = replicate 15 60%Z ∧ total (sleeps backoff) = (15 * 60)%Z.
Proof. split; reflexivity. Qed.


(** ** The rounds of the fetch loop *)

Lemma round_total cfg svc E i q w : ∃ s w', round cfg svc E i q w = (Ok s, w').
Proof.
  unfold round, try_except. destruct (attempt cfg svc E i q w) as [[s|e] w1]; eauto.
Qed.

Lemma fetch_loop_total cfg svc E i qs w : ∃ s w', fetch_loop cfg svc E i qs w = (Ok s, w').
Proof.
  revert i w. induction qs as [|q qs IH]; intros i w; simpl; [by eexists _, _|].
  destruct (round_total cfg svc E i q w) as (s & w1 & Hr).
  rewrite (bind_run _ _ _ _ _ Hr). destruct s; [apply IH|by eexists _, _].
Qed.

(** [fetch_article] raises nothing. *)
Lemma fetch_article_total cfg svc E w : ∃ r w', fetch_article cfg svc E w = (Ok r, w').
Proof.
  unfold fetch_article. destruct (unset (NEWS_API_KEY cfg)); [by eexists _, _|].
  unfold bind at 1. destruct (prepare svc w) as [[[]|e] w0] eqn:Hp.
  - unfold bind, get_available.
    destruct (fetch_loop_total cfg svc E 0 (available_queries w0) w0) as (s & w1 & ->).
    destruct s; by eexists _, _.
  - exfalso. revert Hp. unfold prepare, shuffle_available, reset_pools, bind, get_available,
      get_used, when, print, emit, set_pools, ret.
    by repeat case_match.
Qed.

Lemma prepare_run svc w : ∃ w0, prepare svc w = (Ok tt, w0).
Proof.
  unfold prepare, shuffle_available, reset_pools, bind, get_available,
    get_used, when, print, emit, set_pools, ret.
  repeat case_match; simplify_eq; by eexists.
Qed.

(** The loop over a list in two parts. *)
Lemma fetch_loop_app cfg svc E i pre rest w w1 :
  fetch_loop cfg svc E i pre w = (Ok Continue, w1) →
  fetch_loop cfg svc E i (pre ++ rest) w = fetch_loop cfg svc E (i + length pre) rest w1.
Proof.
  revert i w. induction pre as [|q pre IH]; intros i w; simpl.
  - intros [= ->]. by rewrite Nat.add_0_r.
  - intros H. destruct (round_total cfg svc E i q w) as (s & w2 & Hr).
    rewrite (bind_run _ _ _ _ _ Hr) in H. rewrite (bind_run _ _ _ _ _ Hr).
    destruct s; [|done].
    rewrite (IH _ _ H). f_equal. lia.
Qed.

(** A round whose request is answered by 429. *)
Lemma round_rate_limited cfg svc E i q w body :
  search svc i q = Reply 429 body →
  round cfg svc E i q w =
  (Ok (Return None),
   add_events ([EvPrint (LogFetching q); EvSearch q; EvPrint LogRateLimit] ++ backoff) w).
Proof.
  intros Hs. unfold round, try_except, attempt.
  rewrite bind_print, bind_emit, Hs. simpl received. rewrite bind_lift_ok.
  cbn [fst]. change (429 =? 429)%Z with true. cbv iota.
  rewrite bind_print, (bind_run _ _ _ _ _ (handle_api_limit_run _)).
  unfold ret. by rewrite !add_events_add.
Qed.

(** A round whose top result is a link already posted. *)
Lemma round_duplicate cfg svc (E : gset string) i q w L :
  top_link (search svc i q) = Some L → L ∈ E →
  round cfg svc E i q w =
  (Ok Continue,
   add_events [EvPrint (LogFetching q); EvSearch q; EvPrint (LogSkipping (JStr L))] w).
Proof.
  unfold top_link, top_result. intros Ht HL.
  destruct (search svc i q) as [|status [data|]] eqn:Hs; try done.
  destruct (status =? 429)%Z eqn:H429; [done|].
  destruct (raise_for_status status) as [[]|] eqn:Hst; [|done].
  destruct (get data "articles" JNull) as [listed|] eqn:Hl; [|done].
  destruct (truthy (py_or listed (JArr []))) eqn:Htr; [|done].
  destruct (item0 (py_or listed (JArr []))) as [top|] eqn:Htop; [|done].
  destruct (get top "url" JNull) as [[| | |s| |]|] eqn:Hu; try done.
  simplify_eq.
  unfold round, try_except, attempt.
  rewrite bind_print, bind_emit, Hs. simpl received. rewrite bind_lift_ok.
  cbn [fst snd]. rewrite H429, Hst, bind_lift_ok. simpl response_json.
  rewrite bind_lift_ok, Hl, bind_lift_ok. cbv zeta. rewrite Htr, Htop,
    bind_lift_ok, Hu, bind_lift_ok. simpl seen.
  rewrite (bool_decide_eq_true_2 _ HL), bind_lift_ok, bind_print.
  unfold ret. by rewrite !add_events_add.
Qed.

Lemma fetch_loop_duplicates cfg svc (E : gset string) i qs w :
  (∀ j q, ∃ L, top_link (search svc j q) = Some L ∧ L ∈ E) →
  ∃ es, fetch_loop cfg svc E i qs w = (Ok Continue, add_events es w).
Proof.
  intros Hall. revert i w. induction qs as [|q qs IH]; intros i w; simpl.
  - exists []. by rewrite add_events_nil.
  - destruct (Hall i q) as (L & Ht & HL).
    rewrite (bind_run _ _ _ _ _ (round_duplicate cfg svc E i q w L Ht HL)).
    destruct (IH (S i) (add_events [EvPrint (LogFetching q); EvSearch q;
                                    EvPrint (LogSkipping (JStr L))] w)) as [es ->].
    rewrite add_events_add. by eexists.
Qed.

Lemma round_returned cfg svc E i q w art w' :
  round cfg svc E i q w = (Ok (Return (Some art)), w') →
  ∃ top d, top_result (search svc i q) = Some top ∧
           get top "url" JNull = Ok (link art) ∧
           seen (link art) E = Ok false ∧
           get top "description" JNull = Ok d ∧
           summary_shape (summary art) d.
Proof.
  unfold round. intros H. invert_ok; [by eapply attempt_returned|done].
Qed.

Lemma fetch_loop_returned cfg svc E i qs w art w' :
  fetch_loop cfg svc E i qs w = (Ok (Return (Some art)), w') →
  ∃ j q top d, top_result (search svc j q) = Some top ∧
               get top "url" JNull = Ok (link art) ∧
               seen (link art) E = Ok false ∧
               get top "description" JNull = Ok d ∧
               summary_shape (summary art) d.
Proof.
  revert i w. induction qs as [|q qs IH]; intros i w; simpl; [done|].
  intros H. destruct (round_total cfg svc E i q w) as (s & w2 & Hr).
  rewrite (bind_run _ _ _ _ _ Hr) in H. destruct s as [|r].
  - by eapply IH.
  - injection H as -> ->. exists i, q. by eapply round_returned.
Qed.

Lemma fetch_article_returned cfg svc E w art w' :
  fetch_article cfg svc E w = (Ok (Some art), w') →
  ∃ j q top d, top_result (search svc j q) = Some top ∧
               get top "url" JNull = Ok (link art) ∧
               seen (link art) E = Ok false ∧
               get top "description" JNull = Ok d ∧
               summary_shape (summary art) d.
Proof.
  unfold fetch_article. intros H.
  destruct (unset (NEWS_API_KEY cfg)); [done|].
  apply bind_ok in H as ([] & w0 & _ & H).
  unfold bind at 1, get_available in H.
  destruct (fetch_loop_total cfg svc E 0 (available_queries w0) w0) as (s & w1 & Hl).
  rewrite (bind_run _ _ _ _ _ Hl) in H. destruct s as [|r]; [done|].
  injection H as -> ->. by eapply fetch_loop_returned.
Qed.

(** ** The article fetcher: deduplication, rate limit, summary *)

Lemma prepare_used svc w w0 :
  prepare svc w = (Ok tt, w0) →
  used_queries w0 = used_queries w ∨ (available_queries w = [] ∧ used_queries w0 = []).
Proof.
  unfold prepare, shuffle_available, reset_pools, bind, get_available,
    get_used, when, print, emit, set_pools, ret.
  destruct (available_queries w) eqn:Hav; simpl; intros [= <-]; simpl; auto.
Qed.

Lemma seen_false (E : gset string) L : L ∈ E → seen (JStr L) E ≠ Ok false.
Proof. intros HL. simpl. by rewrite (bool_decide_eq_true_2 _ HL). Qed.

(** C2. Whatever the excluded links [E], [fetch_article] returns no article
    whose link is in [E]; and when the top result of the search service is,
    for every term, a link in [E], it returns null and commits no term: the
    used pool is as it was (or empty, when the available pool was empty and
    has been refilled from it). *)
Theorem fetch_excludes_posted_links cfg svc (E : gset string) w :
  (∀ art w' L, fetch_article cfg svc E w = (Ok (Some art), w') → L ∈ E → link art ≠ JStr L) ∧
  ((∀ i q, ∃ L, top_link (search svc i q) = Some L ∧ L ∈ E) →
   ∃ w', fetch_article cfg svc E w = (Ok None, w') ∧
         (used_queries w' = used_queries w ∨
          (available_queries w = [] ∧ used_queries w' = []))).
Proof.
  split.
  - intros art w' L Hf HL Hlink.
    apply fetch_article_returned in Hf as (j & q & top & d & _ & _ & Hseen & _).
    rewrite Hlink in Hseen. by eapply seen_false.
  - intros Hall. unfold fetch_article.
    destruct (unset (NEWS_API_KEY cfg)).
    { eexists. split; [reflexivity|]. by left. }
    destruct (prepare_run svc w) as [w0 Hp].
    rewrite (bind_run _ _ _ _ _ Hp). unfold bind at 1, get_available.
    destruct (fetch_loop_duplicates cfg svc E 0 (available_queries w0) w0 Hall) as [es Hl].
    rewrite (bind_run _ _ _ _ _ Hl). eexists. split; [reflexivity|].
    simpl. by apply (prepare_used svc).
Qed.

Lemma fetch_excludes_posted_links_witness :
  (∃ art w',
     fetch_article sample_config fresh_service {["https://example.org/climate"]}
       (initial (Some ["climate"; "AI"])) = (Ok (Some art), w') ∧
     link art = JStr "https://example.org/AI" ∧
     link art ≠ JStr "https://example.org/climate") ∧
  (∃ w',
     fetch_article sample_config stale_service {["https://example.org/old"]}
       (initial (Some ["climate"; "AI"])) = (Ok None, w') ∧
     used_queries w' = []).
Proof.
  split.
  - eexists _, _. split; [vm_compute; reflexivity|]. split; [reflexivity|].
    eapply (proj1 (fetch_excludes_posted_links sample_config fresh_service
                     {["https://example.org/climate"]} (initial (Some ["climate"; "AI"])))).
    + vm_compute. reflexivity.
    + apply elem_of_singleton. reflexivity.
  - destruct (proj2 (fetch_excludes_posted_links sample_config stale_service
                       {["https://example.org/old"]} (initial (Some ["climate"; "AI"]))))
      as (w' & Hf & Hu).
    + intros i q. exists "https://example.org/old". split; [reflexivity|].
      apply elem_of_singleton. reflexivity.
    + exists w'. split; [exact Hf|]. destruct Hu as [Hu|[_ Hu]]; exact Hu.
Defined.

(** C7. When the search request for a term is answered by 429 (the request
    is made: the terms before it gave no article), [fetch_article] waits
    fifteen times a minute, printing the minutes that remain after each, and
    returns null; it makes no further request, and the pools are as they were
    when the request was made. *)
Theorem rate_limit_backoff cfg svc E w w0 pre q rest w1 body :
  unset (NEWS_API_KEY cfg) = false →
  prepare svc w = (Ok tt, w0) →
  available_queries w0 = pre ++ q :: rest →
  fetch_loop cfg svc E 0 pre w0 = (Ok Continue, w1) →
  search svc (length pre) q = Reply 429 body →
  fetch_article cfg svc E w =
    (Ok None,
     add_events ([EvPrint (LogFetching q); EvSearch q; EvPrint LogRateLimit] ++ backoff) w1) ∧
  sleeps backoff = replicate 15 60%Z ∧
  total (sleeps backoff) = (15 * 60)%Z ∧
  searches backoff = [].
Proof.
  intros Hkey Hp Hav Hpre H429. split; [|by repeat split].
  unfold fetch_article. rewrite Hkey, (bind_run _ _ _ _ _ Hp).
  unfold bind at 1, get_available. rewrite Hav.
  rewrite (bind_run _ (λ s, match s with Return r => _ | Continue => _ end) w0
             (Return None)
             (add_events ([EvPrint (LogFetching q); EvSearch q; EvPrint LogRateLimit]
                          ++ backoff) w1)); [done|].
  rewrite (fetch_loop_app _ _ _ _ _ _ _ _ Hpre). simpl.
  by rewrite (bind_run _ _ _ _ _ (round_rate_limited cfg svc E _ q w1 body H429)).
Qed.

Lemma rate_limit_backoff_witness :
  let w := initial (Some ["climate"; "AI"]) in
  let w0 := {| available_queries := ["AI"; "climate"]; used_queries := [];
               trace := [EvPrint (LogTopicsLoaded 2)] |} in
  fetch_article sample_config limited_service ∅ w =
    (Ok None,
     add_events ([EvPrint (LogFetching "AI"); EvSearch "AI"; EvPrint LogRateLimit] ++ backoff) w0) ∧
  total (sleeps backoff) = 900%Z.
Proof.
  intros w w0.
  destruct (rate_limit_backoff sample_config limited_service ∅ w w0 [] "AI" ["climate"] w0 None)
    as (Hf & _ & Ht & _); try reflexivity.
  split; [exact Hf|exact Ht].
Defined.

(** C10. Every article [fetch_article] returns has a summary that is a dict
    with a non-empty title, or a non-empty string: the description of the
    search result it comes from, or the placeholder when that description is
    missing or empty. It is neither null nor the empty string. *)
Theorem fetched_summary_shape cfg svc E w art w' :
  fetch_article cfg svc E w = (Ok (Some art), w') →
  (∃ i q top d, top_result (search svc i q) = Some top ∧
                get top "description" JNull = Ok d ∧
                summary_shape (summary art) d) ∧
  summary art ≠ JNull ∧ summary art ≠ JStr "".
Proof.
  intros Hf.
  apply fetch_article_returned in Hf as (j & q & top & d & Htop & _ & _ & Hd & Hs).
  split; [by eauto 10|].
  destruct Hs as [(fields & t & -> & _)|(text & -> & Hne & _)]; [done|].
  split; [done|]. by intros [= ->].
Qed.

Lemma fetched_summary_shape_witness :
  let r := fetch_article sample_config fresh_service ∅ (initial (Some ["climate"; "AI"])) in
  r = (Ok (Some sample_article), r.2) ∧
  summary sample_article = JStr placeholder ∧
  summary sample_article ≠ JNull ∧ summary sample_article ≠ JStr "".
Proof.
  intros r.
  assert (Hr : r = (Ok (Some sample_article), r.2)) by (vm_compute; reflexivity).
  split; [exact Hr|]. split; [reflexivity|].
  exact (proj2 (fetched_summary_shape _ _ _ _ _ _ Hr)).
Defined.

(** ** The summarizer adapter *)

Lemma chats_app es1 es2 : chats (es1 ++ es2) = chats es1 ++ chats es2.
Proof. unfold chats. apply omap_app. Qed.

Lemma chat_log_add es w : chat_log (add_events es w) = chat_log w ++ chats es.
Proof. unfold chat_log, add_events; simpl. apply chats_app. Qed.

Lemma issues_run {A} L (m : M A) w r w' : issues L m → m w = (r, w') → chat_log w' = chat_log w ++ L.
Proof. intros Hm Hr. specialize (Hm w). by rewrite Hr in Hm. Qed.

Lemma issues_ret {A} (a : A) : issues [] (ret a).
Proof. intros w. simpl. by rewrite (right_id_L [] (++)). Qed.

Lemma issues_raise {A} e : issues [] (@raise A e).
Proof. intros w. simpl. by rewrite (right_id_L [] (++)). Qed.

Lemma issues_lift {A} (r : result A) : issues [] (lift r).
Proof. intros w. simpl. by rewrite (right_id_L [] (++)). Qed.

Lemma issues_print m : issues [] (print m).
Proof. intros w. apply (chat_log_add [EvPrint m]). Qed.

Lemma issues_models : issues [] (emit EvModels).
Proof. intros w. apply (chat_log_add [EvModels]). Qed.

Lemma issues_post svc p : issues [p] (post svc p).
Proof.
  intros w. unfold post. rewrite bind_emit. simpl. apply (chat_log_add [EvChat p]).
Qed.

(** A computation that makes the requests [L] followed by one that makes
    none. *)
Lemma issues_bind {A B} L (m : M A) (k : A → M B) :
  issues L m → (∀ a, issues [] (k a)) → issues L (bind m k).
Proof.
  intros Hm Hk w. unfold bind. specialize (Hm w).
  destruct (m w) as [[a|e] w1]; simpl in *; [|done].
  by rewrite (Hk a w1), (right_id_L [] (++)).
Qed.

Lemma issues_try_except {A} L (m : M A) (h : exn → M A) :
  issues L m → (∀ e, issues [] (h e)) → issues L (try_except m h).
Proof.
  intros Hm Hh w. unfold try_except. specialize (Hm w).
  destruct (m w) as [[a|e] w1]; simpl in *; [done|].
  by rewrite (Hh e w1), (right_id_L [] (++)).
Qed.

(** Takes a goal [issues L m] apart along the structure of [m]. *)
Ltac issue_step :=
  match goal with
  | |- issues _ (bind _ _) => apply issues_bind; [|intros]
  | |- issues _ (try_except _ _) => apply issues_try_except; [|intros]
  | |- issues _ (post _ _) => apply issues_post
  | |- issues _ (ret _) => apply issues_ret
  | |- issues _ (raise _) => apply issues_raise
  | |- issues _ (lift _) => apply issues_lift
  | |- issues _ (print _) => apply issues_print
  | |- issues _ (emit EvModels) => apply issues_models
  | |- issues _ (when ?b _) => destruct b; simpl
  | |- issues _ (if ?b then _ else _) => destruct b
  | |- issues _ (match ?x with _ => _ end) => destruct x
  end.

Ltac issue := repeat issue_step.

Lemma schema_attempt_issues cfg svc p : issues [schema_payload cfg p] (schema_attempt cfg svc p).
Proof. unfold schema_attempt. issue. Qed.

Lemma tool_attempt_issues cfg svc p : issues [tool_payload cfg p] (tool_attempt cfg svc p).
Proof. unfold tool_attempt. issue. Qed.

Lemma plain_attempt_issues cfg svc p : issues [plain_payload cfg p] (plain_attempt cfg svc p).
Proof. unfold plain_attempt. issue. Qed.

Lemma preflight_issues cfg svc : issues [] (preflight cfg svc).
Proof. unfold preflight, lmstudio_models. issue. Qed.

(** *** The attempts return *)

Lemma try_except_total {A} (m : M A) (h : exn → M A) w :
  (∀ e w1, ∃ a w', h e w1 = (Ok a, w')) → ∃ a w', try_except m h w = (Ok a, w').
Proof.
  intros Hh. unfold try_except. destruct (m w) as [[a|e] w1]; [by eexists _, _|apply Hh].
Qed.

Lemma schema_attempt_total cfg svc p w : ∃ f w', schema_attempt cfg svc p w = (Ok f, w').
Proof.
  apply try_except_total. intros e w1. destruct e; by eexists _, _.
Qed.

Lemma tool_attempt_total cfg svc p w : ∃ f w', tool_attempt cfg svc p w = (Ok f, w').
Proof. apply try_except_total. intros e w1. by eexists _, _. Qed.

Lemma plain_attempt_total cfg svc p w : ∃ f w', plain_attempt cfg svc p w = (Ok f, w').
Proof. apply try_except_total. intros e w1. by eexists _, _. Qed.

Lemma attempts_total cfg svc p w : ∃ r w', attempts cfg svc p w = (Ok r, w').
Proof.
  unfold attempts.
  destruct (schema_attempt_total cfg svc p w) as (f1 & w1 & H1).
  rewrite (bind_run _ _ _ _ _ H1). destruct f1; [by eexists _, _|].
  destruct (tool_attempt_total cfg svc p w1) as (f2 & w2 & H2).
  rewrite (bind_run _ _ _ _ _ H2). destruct f2; [by eexists _, _|].
  destruct (plain_attempt_total cfg svc p w2) as (f3 & w3 & H3).
  rewrite (bind_run _ _ _ _ _ H3). destruct f3; by eexists _, _.
Qed.

Lemma lmstudio_models_total cfg svc w : ∃ l w', lmstudio_models cfg svc w = (Ok l, w').
Proof. apply try_except_total. intros e w1. by eexists _, _. Qed.

Lemma preflight_total cfg svc w m :
  LMSTUDIO_MODEL cfg = Some m → ∃ w', preflight cfg svc w = (Ok tt, w').
Proof.
  intros Hm. unfold preflight.
  destruct (lmstudio_models_total cfg svc w) as (l & w1 & Hl).
  rewrite (bind_run _ _ _ _ _ Hl), Hm.
  unfold when, bind, print, emit, lift, ret; simpl.
  repeat case_match; simplify_eq; by eexists.
Qed.

(** With the model id and the base URL set, and an article whose fields are
    strings (or null), the summarizer returns: a summary or null. *)
Lemma summarize_total cfg svc a w m b p :
  LMSTUDIO_MODEL cfg = Some m → LMSTUDIO_BASE_URL cfg = Some b → build_prompt a = Ok p →
  ∃ r w', summarize_with_lmstudio cfg svc a w = (Ok r, w').
Proof.
  intros Hm Hb Hp. unfold summarize_with_lmstudio.
  destruct (preflight_total cfg svc w m Hm) as [w1 H1].
  rewrite (bind_run _ _ _ _ _ H1). unfold endpoint. rewrite Hb, bind_lift_ok, Hp, bind_lift_ok.
  apply attempts_total.
Qed.

(** C4: the adapter raises when the model id is not set, whatever the
    article and whatever the service does: [LMSTUDIO_MODEL.lower()] in
    [looks_like_instruct_model] is outside every [try]. *)
Theorem summarizer_raises_without_model svc a w :
  ∃ w', summarize_with_lmstudio no_model_config svc a w = (Raise AttributeError, w').
Proof.
  unfold summarize_with_lmstudio, preflight.
  destruct (lmstudio_models_total no_model_config svc w) as (l & w1 & Hl).
  rewrite bind_bind, (bind_run _ _ _ _ _ Hl).
  unfold when, bind, print, emit, lift, ret; simpl.
  repeat case_match; simplify_eq; by eexists.
Qed.

Lemma fetch_loses_article_without_model :
  let r := fetch_article no_model_config fresh_service ∅ (initial (Some ["climate"; "AI"])) in
  r.1 = Ok None ∧ available_queries r.2 = [] ∧ used_queries r.2 = ["AI"; "climate"].
Proof. vm_compute. done. Qed.

(** With every setting in place, an article field that is neither a string
    nor empty makes the adapter raise as well: the four [.strip()] calls are
    outside every [try]. *)
Lemma summarizer_raises_on_numeric_title svc w :
  ∃ w', summarize_with_lmstudio sample_config svc numbered_article w =
        (Raise AttributeError, w').
Proof.
  unfold summarize_with_lmstudio.
  destruct (preflight_total sample_config svc w _ eq_refl) as [w1 H1].
  rewrite (bind_run _ _ _ _ _ H1). by eexists.
Qed.

(** *** The order of the requests *)

Lemma schema_attempt_rejected cfg svc p w status body :
  chat svc (schema_payload cfg p) = Reply status body → schema_rejected status = true →
  ∃ w', schema_attempt cfg svc p w = (Ok FellThrough, w').
Proof.
  intros Hc Hs. unfold schema_attempt, try_except, post.
  rewrite bind_bind, bind_emit, Hc. simpl received. rewrite bind_lift_ok.
  cbn [fst]. rewrite Hs. by eexists.
Qed.

Lemma payloads_differ cfg p :
  tool_payload cfg p ≠ plain_payload cfg p ∧ tool_payload cfg p ≠ schema_payload cfg p.
Proof. split; intros [=]. Qed.

(** C8 (amended). When the schema-constrained request is answered by 422,
    the next request is the second one, never the plain-instruction one: it
    carries the tools when the function-call strategy is enabled, and is the
    same request without them when it is disabled. The plain-instruction
    request follows it, if any request does. *)
Theorem fallback_order_after_422 cfg svc a w m b p body :
  LMSTUDIO_MODEL cfg = Some m → LMSTUDIO_BASE_URL cfg = Some b → build_prompt a = Ok p →
  chat svc (schema_payload cfg p) = Reply 422 body →
  ∃ rest,
    chat_log (summarize_with_lmstudio cfg svc a w).2 =
      chat_log w ++ schema_payload cfg p :: tool_payload cfg p :: rest ∧
    (rest = [] ∨ rest = [plain_payload cfg p]) ∧
    pl_tools (tool_payload cfg p) = LM_USE_TOOLS cfg ∧
    tool_payload cfg p ≠ plain_payload cfg p.
Proof.
  intros Hm Hb Hp H422. unfold summarize_with_lmstudio.
  destruct (preflight_total cfg svc w m Hm) as [w1 H1].
  rewrite (bind_run _ _ _ _ _ H1). unfold endpoint. rewrite Hb, bind_lift_ok, Hp, bind_lift_ok.
  pose proof (issues_run _ _ _ _ _ (preflight_issues cfg svc) H1) as L1.
  rewrite (right_id_L [] (++)) in L1. rewrite <- L1.
  unfold attempts.
  destruct (schema_attempt_rejected cfg svc p w1 422 body H422 eq_refl) as [w2 H2].
  rewrite (bind_run _ _ _ _ _ H2).
  pose proof (issues_run _ _ _ _ _ (schema_attempt_issues cfg svc p) H2) as L2.
  destruct (tool_attempt_total cfg svc p w2) as (f2 & w3 & H3).
  rewrite (bind_run _ _ _ _ _ H3).
  pose proof (issues_run _ _ _ _ _ (tool_attempt_issues cfg svc p) H3) as L3.
  destruct f2 as [v|].
  - exists []. simpl. rewrite L3, L2, <- (assoc_L (++)).
    split; [done|]. split; [by left|]. split; [done|]. apply payloads_differ.
  - destruct (plain_attempt_total cfg svc p w3) as (f3 & w4 & H4).
    rewrite (bind_run _ _ _ _ _ H4).
    pose proof (issues_run _ _ _ _ _ (plain_attempt_issues cfg svc p) H4) as L4.
    exists [plain_payload cfg p].
    assert (chat_log w4 = chat_log w1 ++ [schema_payload cfg p; tool_payload cfg p;
                                          plain_payload cfg p]) as Hlog.
    { rewrite L4, L3, L2, <- !(assoc_L (++)). done. }
    split; [|split; [by right|split; [done|apply payloads_differ]]].
    destruct f3; [done|]. rewrite bind_print. unfold ret. cbn [snd].
    rewrite chat_log_add. simpl chats. by rewrite (right_id_L [] (++)).
Qed.

Lemma fallback_order_after_422_witness :
  ∃ rest,
    chat_log (summarize_with_lmstudio sample_config silent_service sample_article empty_world).2 =
      schema_payload sample_config sample_prompt ::
      tool_payload sample_config sample_prompt :: rest ∧
    (rest = [] ∨ rest = [plain_payload sample_config sample_prompt]).
Proof.
  destruct (fallback_order_after_422 sample_config silent_service sample_article empty_world
              "qwen2.5-7b-instruct-mlx" "http://localhost:1234/" sample_prompt None
              eq_refl eq_refl eq_refl eq_refl) as (rest & Hlog & Hrest & _).
  exists rest. split; [exact Hlog|exact Hrest].
Defined.

(** C8, as stated, fails: with the function-call strategy disabled, a 422 on
    the schema-constrained request is followed by two requests, the second
    one (without tools) and then the plain-instruction one. *)
Lemma disabled_tools_request_not_skipped :
  LM_USE_TOOLS sample_config = false ∧
  chat silent_service (schema_payload sample_config sample_prompt) = Reply 422 None ∧
  chat_log (summarize_with_lmstudio sample_config silent_service sample_article empty_world).2 =
    [schema_payload sample_config sample_prompt;
     tool_payload sample_config sample_prompt;
     plain_payload sample_config sample_prompt] ∧
  tool_payload sample_config sample_prompt ≠ plain_payload sample_config sample_prompt.
Proof.
  split; [reflexivity|]. split; [reflexivity|]. split; [vm_compute; reflexivity|].
  apply payloads_differ.
Qed.

(** *** What the second request's reply is read for *)

Lemma tool_attempt_reads cfg svc p w status data msg content :
  chat svc (tool_payload cfg p) = Reply status (Some data) →
  raise_for_status status = Ok tt →
  message_of data = Ok msg →
  content_of msg = Ok content →
  tool_attempt cfg svc p w =
  (let w1 := add_events [EvChat (tool_payload cfg p)] w in
   let parsed := safe_json_parse svc (JStr content) in
   if accepted parsed then (Ok (Returned (Some parsed)), w1)
   else
     match get msg "tool_calls" JNull with
     | Raise e => (Ok FellThrough, add_events [EvPrint (LogToolFallbackFailed e)] w1)
     | Ok tc =>
         if truthy (py_or tc (JArr [])) then
           match tool_arguments (py_or tc (JArr [])) with
           | Raise e => (Ok FellThrough, add_events [EvPrint (LogToolArgsFailed e)] w1)
           | Ok arguments =>
               if accepted (safe_json_parse svc arguments)
               then (Ok (Returned (Some (safe_json_parse svc arguments))), w1)
               else (Ok FellThrough, w1)
           end
         else (Ok FellThrough, w1)
     end).
Proof.
  intros Hc Hst Hmsg Hcontent. unfold tool_attempt, try_except, post.
  rewrite bind_bind, bind_emit, Hc. simpl received. rewrite bind_lift_ok.
  cbn [fst snd]. rewrite Hst, bind_lift_ok. simpl response_json.
  rewrite bind_lift_ok, Hmsg, bind_lift_ok, Hcontent, bind_lift_ok. cbv zeta.
  destruct (accepted (safe_json_parse svc (JStr content))); [done|].
  destruct (get msg "tool_calls" JNull) as [tc|e]; [|done].
  rewrite bind_lift_ok. destruct (truthy (py_or tc (JArr []))); [|done].
  destruct (tool_arguments (py_or tc (JArr []))) as [arguments|e]; [|done].
  rewrite bind_lift_ok. by destruct (accepted (safe_json_parse svc arguments)).
Qed.

(** C9 (amended). From the reply to the second request the adapter first
    parses the message content as JSON and returns it when it is a dict with
    a non-empty title, whatever tool call the message holds; only otherwise,
    when a tool call is present, does it parse the arguments of the first
    tool call, and return them when they are such a dict. *)
Theorem tool_reply_parse_order cfg svc p w status data msg content :
  chat svc (tool_payload cfg p) = Reply status (Some data) →
  raise_for_status status = Ok tt →
  message_of data = Ok msg →
  content_of msg = Ok content →
  let parsed := safe_json_parse svc (JStr content) in
  (accepted parsed = true →
   (tool_attempt cfg svc p w).1 = Ok (Returned (Some parsed))) ∧
  (accepted parsed = false →
   ∀ tc arguments,
     get msg "tool_calls" JNull = Ok tc → truthy tc = true →
     tool_arguments tc = Ok arguments →
     accepted (safe_json_parse svc arguments) = true →
     (tool_attempt cfg svc p w).1 = Ok (Returned (Some (safe_json_parse svc arguments)))).
Proof.
  intros Hc Hst Hmsg Hcontent parsed.
  rewrite (tool_attempt_reads cfg svc p w status data msg content Hc Hst Hmsg Hcontent).
  subst parsed. cbv zeta. split.
  - intros Hacc. by rewrite Hacc.
  - intros Hrej tc arguments Htc Htruthy Hargs Hacc.
    rewrite Hrej, Htc. unfold py_or. rewrite Htruthy. by rewrite Htruthy, Hargs, Hacc.
Qed.

Lemma tool_reply_parse_order_witness :
  (tool_attempt sample_config refusing_service sample_prompt empty_world).1 =
  Ok (Returned (Some (JObj [("title", JStr "From the content")]))).
Proof.
  refine (proj1 (tool_reply_parse_order sample_config refusing_service sample_prompt empty_world
                   200 both_reply _ (titled "From the content") _ _ _ _) _);
    reflexivity.
Defined.

(** C9, as stated, fails: a tool call is present, and what is returned is
    the parsed content, not the parsed arguments of the tool call. *)
Lemma content_wins_over_tool_call :
  let r := summarize_with_lmstudio sample_config refusing_service sample_article empty_world in
  (∃ msg tc arguments,
     message_of both_reply = Ok msg ∧
     get msg "tool_calls" JNull = Ok tc ∧ truthy tc = true ∧
     tool_arguments tc = Ok arguments ∧
     safe_json_parse refusing_service arguments = JObj [("title", JStr "From the tool call")]) ∧
  r.1 = Ok (Some (JObj [("title", JStr "From the content")])) ∧
  r.1 ≠ Ok (Some (JObj [("title", JStr "From the tool call")])).
Proof.
  intros r. split.
  - eexists _, _, _. repeat split; reflexivity.
  - assert (Hr : r.1 = Ok (Some (JObj [("title", JStr "From the content")])))
      by (vm_compute; reflexivity).
    split; [exact Hr|]. rewrite Hr. intros [=].
Qed.

(** ** Start-up *)

Lemma ensure_token_exits cfg :
  (DISCORD_TOKEN cfg = None ∨ ∃ t, DISCORD_TOKEN cfg = Some t ∧ strip t = "") →
  ∃ diagnostics, diagnostics ≠ [] ∧ ensure_token cfg = Exits 1 diagnostics.
Proof.
  unfold ensure_token, unset. intros [->|(t & -> & Ht)].
  - simpl. eexists. split; [|reflexivity]. done.
  - rewrite Ht. simpl. rewrite orb_true_r. eexists. split; [|reflexivity]. done.
Qed.

Lemma network_prints lines : network (map BootPrint lines ++ [BootExit 1]) = [].
Proof. induction lines as [|l lines IH]; [done|]. simpl. exact IH. Qed.

(** C5 (amended). A missing bot credential is fatal at start-up: the process
    prints a diagnostic and exits with status 1 before anything reaches the
    network. A missing search-service key is not: with the credential in
    place the bot starts, and every call of [fetch_article] prints a
    diagnostic and returns null without a search request, the pools
    untouched. *)
Theorem missing_token_fatal_missing_key_not cfg :
  ((DISCORD_TOKEN cfg = None ∨ ∃ t, DISCORD_TOKEN cfg = Some t ∧ strip t = "") →
   ∃ diagnostics,
     diagnostics ≠ [] ∧
     main cfg = map BootPrint diagnostics ++ [BootExit 1] ∧
     network (main cfg) = []) ∧
  (ensure_token cfg = Passed → unset (NEWS_API_KEY cfg) = true →
   main cfg = [BotRun (DISCORD_TOKEN cfg)] ∧
   exits (main cfg) = [] ∧
   ∀ svc E w, fetch_article cfg svc E w = (Ok None, add_events [EvPrint LogKeyMissing] w)).
Proof.
  split.
  - intros Hmissing. destruct (ensure_token_exits cfg Hmissing) as (d & Hd & He).
    exists d. unfold main. rewrite He. split; [done|]. split; [done|]. apply network_prints.
  - intros Htoken Hkey. unfold main. rewrite Htoken. split; [done|]. split; [done|].
    intros svc E w. unfold fetch_article. by rewrite Hkey.
Qed.

Lemma missing_token_fatal_missing_key_not_witness :
  (∃ diagnostics, diagnostics ≠ [] ∧
                  main no_token_config = map BootPrint diagnostics ++ [BootExit 1]) ∧
  main no_key_config = [BotRun (Some "token")] ∧
  fetch_article no_key_config fresh_service ∅ (initial (Some ["climate"; "AI"])) =
    (Ok None, add_events [EvPrint LogKeyMissing] (initial (Some ["climate"; "AI"]))).
Proof.
  split.
  - destruct (proj1 (missing_token_fatal_missing_key_not no_token_config))
      as (d & Hd & Hm & _); [by left|].
    exists d. split; [exact Hd|exact Hm].
  - destruct (proj2 (missing_token_fatal_missing_key_not no_key_config) eq_refl eq_refl)
      as (Hm & _ & Hf).
    split; [exact Hm|apply Hf].
Defined.

(** C5, as stated, fails: with the search-service key missing the process
    does not exit; it connects. *)
Lemma missing_key_does_not_exit :
  NEWS_API_KEY no_key_config = None ∧
  main no_key_config = [BotRun (Some "token")] ∧
  exits (main no_key_config) = [] ∧
  network (main no_key_config) ≠ [].
Proof. repeat split; done. Qed.

(** [ensure_required] would stop a start without the channel identifiers, but
    [main] does not call it. *)
Lemma main_skips_ensure_required :
  (∃ diagnostics, ensure_required no_channel_config = Exits 1 diagnostics) ∧
  main no_channel_config = [BotRun (Some "token")].
Proof. split; [by eexists|done]. Qed.

(** ** The sleep of the poll scheduler *)

Lemma quiet_not_active h : quiet h = negb (active h).
Proof. unfold quiet, active. lia. Qed.

(** In the evening the sleep computed is the time until the next 09:00. *)
Lemma sleep_until_morning_evening now :
  (22 ≤ hour now)%Z → sleep_until_morning now = until_next_nine now.
Proof.
  intros Hh. unfold sleep_until_morning, until_next_nine, next_nine.
  by destruct (hour now <? 9)%Z eqn:H9; [lia|].
Qed.

(** Before 9 in the morning it is a whole day more. *)
Lemma sleep_until_morning_night now :
  (hour now < 9)%Z → sleep_until_morning now = (until_next_nine now + seconds 86400)%Z.
Proof.
  intros Hh. unfold sleep_until_morning, until_next_nine, next_nine.
  destruct (hour now <? 9)%Z eqn:H9; [|lia].
  unfold total_microseconds, microseconds_of, on_date_of, plus_days, seconds. simpl. lia.
Qed.

(** [quiet_wait], with the rounds a sleep takes, is the [while] loop of the
    quiet branch. *)
Lemma quiet_wait_while (s : Z) clock k :
  quiet_wait (quiet_rounds s) s clock k =
  if (0 <? s)%Z then
    Z.min (seconds 60) s ::
      (if active (hour (clock k)) then []
       else quiet_wait (quiet_rounds (s - seconds 60)) (s - seconds 60) clock (S k))
  else [].
Proof.
  unfold quiet_rounds, seconds. destruct (0 <? s)%Z eqn:Hs.
  - apply Z.ltb_lt in Hs.
    replace (s + 60 * 1000000 - 1)%Z
      with ((s - 60 * 1000000 + 60 * 1000000 - 1) + 1 * (60 * 1000000))%Z by lia.
    rewrite Z.div_add by lia.
    rewrite Z2Nat.inj_add; [|apply Z.div_pos; lia|lia].
    rewrite Nat.add_comm. simpl quiet_wait. apply Z.ltb_lt in Hs. by rewrite Hs.
  - apply Z.ltb_ge in Hs.
    assert ((s + 60 * 1000000 - 1) / (60 * 1000000) < 1)%Z
      by (apply Z.div_lt_upper_bound; lia).
    by replace (Z.to_nat ((s + 60 * 1000000 - 1) / (60 * 1000000))) with O by lia.
Qed.

(** Every sleep of the quiet loop is of a minute at most. *)
Lemma quiet_wait_chunks rounds sleep_us clock k :
  Forall (λ d, (d ≤ seconds 60)%Z) (quiet_wait rounds sleep_us clock k).
Proof.
  revert sleep_us k. induction rounds as [|n IH]; intros s k; simpl; [done|].
  destruct (0 <? s)%Z; [|done]. constructor; [lia|].
  destruct (active (hour (clock k))); [done|apply IH].
Qed.

(** The loop stops at the first wake that falls in the active hours. *)
Lemma quiet_wait_breaks rounds sleep_us clock k :
  (0 < sleep_us)%Z → active (hour (clock k)) = true →
  quiet_wait (S rounds) sleep_us clock k = [Z.min (seconds 60) sleep_us].
Proof.
  intros Hs Ha. simpl. apply Z.ltb_lt in Hs. by rewrite Hs, Ha.
Qed.

(** C6: at one o'clock at night the scheduler is in the quiet state, and
    the sleep it computes (and announces: 32 hours and 0 minutes) is 32
    hours, while the next 09:00 is 8 hours away. *)
Theorem quiet_sleep_overshoots_after_midnight :
  quiet (hour one_am) = true ∧
  Backup.quiet (hour one_am) = true ∧
  sleep_until_morning one_am = seconds (32 * 3600) ∧
  announced (sleep_until_morning one_am) = (32, 0)%Z ∧
  until_next_nine one_am = seconds (8 * 3600) ∧
  sleep_until_morning one_am ≠ until_next_nine one_am.
Proof. repeat split; try reflexivity. intros [=]. Qed.

(** At eleven in the evening the sleep computed spans midnight: ten hours. *)
Lemma quiet_sleep_at_eleven_pm :
  quiet (hour eleven_pm) = true ∧
  sleep_until_morning eleven_pm = seconds (10 * 3600) ∧
  until_next_nine eleven_pm = seconds (10 * 3600).
Proof. repeat split; reflexivity. Qed.

(** ** The moderation queue: two presses on one article *)
Section ModerationFacts.
Context {A : Type} `{EqDecision A}.
Implicit Types (a : A) (q : list A) (s : mstate (A := A)) (t : tid).

Lemma occurrences_elem a q : a ∈ q ↔ occurrences a q ≠ 0.
Proof.
  unfold occurrences. induction q as [|x q IH]; simpl.
  - split; [by intros ?%elem_of_nil|done].
  - rewrite elem_of_cons. destruct (bool_decide_reflect (x = a)) as [->|Hne]; simpl.
    + split; [done|by left].
    + rewrite IH. split; [by intros [?|?]|by right].
Qed.

Lemma occurrences_remove a q q' :
  list_remove a q = Some q' → occurrences a q = S (occurrences a q').
Proof.
  unfold occurrences. revert q'. induction q as [|x q IH]; intros q'; simpl; [done|].
  destruct (decide (a = x)) as [->|Hne].
  - intros [= ->]. by rewrite bool_decide_eq_true_2.
  - destruct (list_remove a q) as [r|]; [|done]. intros [= <-]. simpl.
    rewrite bool_decide_eq_false_2 by done. by apply IH.
Qed.

Lemma effects_of_app t es1 es2 : effects_of t (es1 ++ es2) = effects_of t es1 ++ effects_of t es2.
Proof. apply List.filter_app. Qed.

Lemma removals_app es1 es2 : removals (es1 ++ es2) = removals es1 ++ removals es2.
Proof. apply List.filter_app. Qed.

Lemma invariant_pressed a presses q :
  occurrences a q = 1 → invariant a presses (pressed q).
Proof.
  intros Hq. split; simpl.
  - intros t. split; [done|done].
  - by rewrite Hq.
  - done.
  - intros t [?|?]; done.
Qed.

Lemma set_pc_same (f : tid → pc) t p : set_pc f t p t = p.
Proof. unfold set_pc. by rewrite decide_True. Qed.

Lemma set_pc_other (f : tid → pc) t p t' : t' ≠ t → set_pc f t p t' = f t'.
Proof. intros Hne. unfold set_pc. by rewrite decide_False. Qed.

(** The invariant after a step of the handler [t] that takes it to [p'],
    with the effects [es] of its own. *)
Lemma invariant_update a presses s t p' q' l' es :
  invariant a presses s →
  effects_of t es = es → (∀ t', t' ≠ t → effects_of t' es = []) →
  (l' = Some t ↔ holds_lock p' = true) →
  (∀ t', t' ≠ t → (l' = Some t' ↔ lock_owner s = Some t')) →
  occurrences a q' + length (removals (effects s ++ es)) = 1 →
  history (presses t) t p' (effects_of t (effects s) ++ es) →
  (p' = Notify ∨ effects_of t (effects s) ++ es = [AlreadyModerated t] → occurrences a q' = 0) →
  (occurrences a q' ≤ occurrences a (unactioned_articles s))%nat →
  invariant a presses {| unactioned_articles := q'; lock_owner := l';
                         at_pc := set_pc (at_pc s) t p'; effects := effects s ++ es |}.
Proof.
  intros [I1 I2 I3 I4] Hown Hothers Hl Hl' Hcount Hhist Habs Hle.
  split; simpl.
  - intros t'. destruct (decide (t' = t)) as [->|Hne].
    + by rewrite set_pc_same.
    + rewrite set_pc_other by done. rewrite (Hl' t' Hne). apply I1.
  - exact Hcount.
  - intros t'. rewrite effects_of_app. destruct (decide (t' = t)) as [->|Hne].
    + by rewrite set_pc_same, Hown.
    + rewrite set_pc_other by done. rewrite (Hothers t' Hne), (right_id_L [] (++)). apply I3.
  - intros t'. rewrite effects_of_app. destruct (decide (t' = t)) as [->|Hne].
    + by rewrite set_pc_same, Hown.
    + rewrite set_pc_other by done. rewrite (Hothers t' Hne), (right_id_L [] (++)).
      intros Ht'. specialize (I4 t' Ht'). lia.
Qed.

Lemma own_effect_nil t : effects_of t [] = [] ∧ ∀ t', t' ≠ t → effects_of t' [] = [].
Proof. done. Qed.

Lemma own_effect t e :
  by_handler t e = true →
  effects_of t [e] = [e] ∧ ∀ t', t' ≠ t → effects_of t' [e] = [].
Proof.
  intros He. unfold effects_of; simpl. rewrite He. split; [done|].
  intros t' Hne. destruct e; simpl in *; apply bool_decide_eq_true in He as ->;
    by rewrite bool_decide_eq_false_2.
Qed.

Lemma handler_step_invariant a presses t ok s s' :
  invariant a presses s → handler_step a presses t ok s = Some s' → invariant a presses s'.
Proof.
  intros Hinv Hs. pose proof Hinv as [I1 I2 I3 I4].
  pose proof (I1 t) as L. pose proof (I3 t) as Hh. pose proof (I4 t) as Hn.
  unfold handler_step in Hs.
  destruct (at_pc s t) eqn:Hpc; simpl in L, Hh.
  - (* Start *)
    injection Hs as <-.
    apply invariant_update;
      [exact Hinv|done|done|exact L|done
      |by rewrite (right_id_L [] (++))
      |by rewrite Hh
      |rewrite Hh; by intros [?|?]
      |done].
  - (* Acquire *)
    destruct (lock_owner s) as [o|] eqn:Ho; [done|]. injection Hs as <-.
    apply invariant_update;
      [exact Hinv|done|done|done
      |intros t' Hne; rewrite Ho; split; [intros [= Heq]; by destruct Hne|done]
      |by rewrite (right_id_L [] (++))
      |by rewrite Hh
      |rewrite Hh; by intros [?|?]
      |done].
  - (* Critical *)
    assert (Ho : lock_owner s = Some t) by by apply L.
    destruct (bool_decide_reflect (a ∈ unactioned_articles s)) as [Hin|Hout].
    + destruct (list_remove_elem _ _ Hin) as [q' Hq']. rewrite Hq' in Hs. injection Hs as <-.
      apply occurrences_remove in Hq'.
      destruct (own_effect t (Removed t)) as [Hown Hothers]; [by apply bool_decide_eq_true|].
      apply invariant_update;
        [exact Hinv|exact Hown|exact Hothers|done|done
        |rewrite removals_app, length_app; simpl; lia
        |by rewrite Hh
        |intros _; lia
        |lia].
    + injection Hs as <-.
      assert (Hzero : occurrences a (unactioned_articles s) = 0).
      { destruct (occurrences a (unactioned_articles s)) eqn:Hocc; [done|].
        destruct Hout. apply occurrences_elem. by rewrite Hocc. }
      apply invariant_update;
        [exact Hinv|done|done|done|done
        |by rewrite (right_id_L [] (++))
        |by rewrite Hh
        |done
        |done].
  - (* Release *)
    assert (Ho : lock_owner s = Some t) by by apply L.
    injection Hs as <-.
    apply invariant_update;
      [exact Hinv|done|done|done
      |intros t' Hne; rewrite Ho; split; [done|intros [= Heq]; by destruct Hne]
      |by rewrite (right_id_L [] (++))
      |by rewrite Hh
      |rewrite Hh; by intros [?|?]
      |done].
  - (* Notify *)
    assert (Ho : lock_owner s = Some t) by by apply L.
    injection Hs as <-.
    destruct (own_effect t (AlreadyModerated t)) as [Hown Hothers];
      [by apply bool_decide_eq_true|].
    apply invariant_update;
      [exact Hinv|exact Hown|exact Hothers|done|done
      |rewrite removals_app, length_app; simpl; lia
      |by rewrite Hh
      |intros _; apply Hn; by left
      |done].
  - (* Leave *)
    assert (Ho : lock_owner s = Some t) by by apply L.
    injection Hs as <-.
    apply invariant_update;
      [exact Hinv|done|done|done
      |intros t' Hne; rewrite Ho; split; [done|intros [= Heq]; by destruct Hne]
      |by rewrite (right_id_L [] (++))
      |rewrite Hh; by left
      |intros _; apply Hn; by right
      |done].
  - (* Ack *)
    injection Hs as <-.
    destruct (own_effect t (Acknowledged t (button (presses t)))) as [Hown Hothers];
      [by apply bool_decide_eq_true|].
    apply invariant_update;
      [exact Hinv|exact Hown|exact Hothers|exact L|done
      |rewrite removals_app, length_app; simpl; lia
      |by rewrite Hh
      |rewrite Hh; by intros [?|?]
      |done].
  - (* Edit *)
    injection Hs as <-.
    assert (Hown : effects_of t (if has_message (presses t)
                                 then [Edited t (button (presses t))] else []) =
                   (if has_message (presses t) then [Edited t (button (presses t))] else []) ∧
                   ∀ t', t' ≠ t →
                     effects_of t' (if has_message (presses t)
                                    then [Edited t (button (presses t))] else []) = []).
    { destruct (has_message (presses t)); [|done].
      by apply own_effect, bool_decide_eq_true. }
    destruct Hown as [Hown Hothers].
    apply invariant_update;
      [exact Hinv|exact Hown|exact Hothers
      |rewrite L; by destruct (button (presses t))
      |done
      |rewrite removals_app, length_app; destruct (has_message (presses t)); simpl; lia
      |rewrite Hh; destruct (button (presses t)) eqn:Hb; simpl; rewrite ?Hb; [done|];
       right; exists true; unfold acted; by rewrite Hb, (right_id_L [] (++))
      |rewrite Hh; intros [Hp|Hp];
       [by destruct (button (presses t))|by destruct (has_message (presses t))]
      |done].
  - (* Post *)
    injection Hs as <-. destruct Hh as [Hb Hh].
    destruct (own_effect t (if ok then Published t else NoPublicChannel t)) as [Hown Hothers];
      [destruct ok; by apply bool_decide_eq_true|].
    apply invariant_update;
      [exact Hinv|exact Hown|exact Hothers|exact L|done
      |rewrite removals_app, length_app; destruct ok; simpl; lia
      |right; exists ok; rewrite Hh; unfold acted; rewrite Hb;
       by destruct (has_message (presses t))
      |rewrite Hh; intros [?|Hp]; [done|]; by destruct (has_message (presses t))
      |done].
  - (* Done *)
    done.
Qed.

Lemma step_invariant a presses m s :
  invariant a presses s → invariant a presses (step a presses m s).
Proof.
  intros Hinv. destruct m as [t ok|q']; simpl.
  - destruct (handler_step a presses t ok s) as [s'|] eqn:Hs; [|done].
    by eapply handler_step_invariant.
  - destruct (lock_owner s) eqn:Ho; [done|].
    unfold same_count. destruct (bool_decide_reflect (occurrences a q' =
                                   occurrences a (unactioned_articles s))) as [Hq|]; [|done].
    destruct Hinv as [I1 I2 I3 I4]. split; simpl; [by rewrite <- Ho|lia|done|].
    intros t Ht. rewrite Hq. by apply (I4 t).
Qed.

Lemma run_invariant a presses schedule s :
  invariant a presses s → invariant a presses (run a presses schedule s).
Proof.
  revert s. induction schedule as [|m rest IH]; intros s Hinv; simpl; [done|].
  apply IH. by apply step_invariant.
Qed.

Lemma run_app a presses schedule more s :
  run a presses (schedule ++ more) s = run a presses more (run a presses schedule s).
Proof. revert s. induction schedule as [|m rest IH]; intros s; simpl; [done|apply IH]. Qed.

(** A handler that has not returned can move, unless it waits for the lock. *)
Lemma handler_enabled a presses t ok s :
  at_pc s t ≠ Done → (at_pc s t = Acquire → lock_owner s = None) →
  is_Some (handler_step a presses t ok s).
Proof.
  intros Hdone Hlock. unfold handler_step.
  destruct (at_pc s t) eqn:Hpc; try done; try by eexists.
  - by rewrite Hlock.
  - repeat case_match; by eexists.
Qed.

(** No deadlock: until both handlers have returned, one of them can move. *)
Lemma progress a presses s :
  invariant a presses s → ¬ finished s → ∃ t, is_Some (handler_step a presses t true s).
Proof.
  intros [I1 _ _ _] Hnot. destruct (lock_owner s) as [o|] eqn:Ho.
  - exists o. pose proof (proj1 (I1 o) eq_refl) as Hh. apply handler_enabled.
    + intros Hd. by rewrite Hd in Hh.
    + intros Hacq. by rewrite Hacq in Hh.
  - destruct (decide (at_pc s T1 = Done)) as [H1|H1].
    + exists T2. apply handler_enabled; [|done]. intros H2. by apply Hnot.
    + exists T1. by apply handler_enabled.
Qed.

(** Every move of a handler takes it closer to its return. *)
Lemma handler_step_rank a presses t ok s s' :
  handler_step a presses t ok s = Some s' →
  (rank (at_pc s' t) < rank (at_pc s t))%nat ∧ at_pc s' (other t) = at_pc s (other t).
Proof.
  unfold handler_step. intros Hs.
  assert (Hother : other t ≠ t) by by destruct t.
  destruct (at_pc s t) eqn:Hpc; repeat case_match; simplify_eq; simpl;
    rewrite set_pc_same, (set_pc_other _ _ _ _ Hother); simpl; split; (done || lia).
Qed.

(** From every state the handlers can run to their return. *)
Lemma can_finish a presses s :
  invariant a presses s → ∃ more, finished (run a presses more s).
Proof.
  remember (rank (at_pc s T1) + rank (at_pc s T2)) as n eqn:Hn.
  revert s Hn. induction (lt_wf n) as [n _ IH]. intros s Hn Hinv.
  destruct (decide (at_pc s T1 = Done ∧ at_pc s T2 = Done)) as [Hfin|Hnot].
  { by exists []. }
  destruct (progress a presses s Hinv Hnot) as (t & s' & Hs).
  destruct (handler_step_rank _ _ _ _ _ _ Hs) as [Hlt Hsame].
  destruct (IH (rank (at_pc s' T1) + rank (at_pc s' T2))) with (s := s') as [more Hmore].
  - subst n. destruct t; simpl in Hsame; rewrite Hsame; lia.
  - done.
  - by eapply handler_step_invariant.
  - exists (Handler t true :: more). simpl. by rewrite Hs.
Qed.

(** Each effect is of one of the two handlers. *)
Lemma filter_by_handler (P : effect → bool) es :
  length (List.filter P es) =
  length (List.filter P (effects_of T1 es)) + length (List.filter P (effects_of T2 es)).
Proof.
  induction es as [|e es IH]; [done|]. unfold effects_of in *. simpl.
  assert (He : (by_handler T1 e = true ∧ by_handler T2 e = false) ∨
               (by_handler T1 e = false ∧ by_handler T2 e = true))
    by (destruct e as [[]|[]|[] ?|[] ?|[]|[]|[]]; auto).
  destruct He as [[-> ->]|[-> ->]]; simpl; destruct (P e); simpl; lia.
Qed.

Lemma removals_by_handler es :
  length (removals es) =
  length (removals (effects_of T1 es)) + length (removals (effects_of T2 es)).
Proof. apply filter_by_handler. Qed.

Lemma publications_by_handler es :
  length (publications es) =
  length (publications (effects_of T1 es)) + length (publications (effects_of T2 es)).
Proof. apply filter_by_handler. Qed.

Lemma acted_removals t p ok : length (removals (acted t p ok)) = 1.
Proof. unfold acted. by destruct (has_message p), (button p), ok. Qed.

Lemma acted_publications t p ok : (length (publications (acted t p ok)) ≤ 1)%nat.
Proof. unfold acted. destruct (has_message p), (button p), ok; simpl; lia. Qed.

Lemma notice_removals t : length (removals [AlreadyModerated t]) = 0.
Proof. done. Qed.

Lemma notice_publications t : length (publications [AlreadyModerated t]) = 0.
Proof. done. Qed.

(** What has happened when both handlers have returned. *)
Lemma finished_outcome a presses s :
  invariant a presses s → finished s →
  ∃ w ok,
    effects_of w (effects s) = acted w (presses w) ok ∧
    effects_of (other w) (effects s) = [AlreadyModerated (other w)] ∧
    length (removals (effects s)) = 1 ∧
    (length (publications (effects s)) ≤ 1)%nat ∧
    a ∉ unactioned_articles s.
Proof.
  intros [I1 I2 I3 I4] [F1 F2].
  pose proof (I3 T1) as H1. pose proof (I3 T2) as H2. rewrite F1 in H1. rewrite F2 in H2.
  simpl in H1, H2.
  pose proof (removals_by_handler (effects s)) as Hr.
  pose proof (publications_by_handler (effects s)) as Hp.
  assert (Hout : occurrences a (unactioned_articles s) = 0 → a ∉ unactioned_articles s).
  { intros Hz Hin. by apply occurrences_elem in Hin. }
  destruct H1 as [H1|[ok1 H1]], H2 as [H2|[ok2 H2]]; rewrite H1, H2 in Hr, Hp;
    repeat first [rewrite acted_removals in Hr | rewrite notice_removals in Hr
                 | rewrite notice_publications in Hp].
  - (* nobody found the article: impossible *)
    pose proof (I4 T1 (or_intror H1)) as Hz. lia.
  - exists T2, ok2. simpl other.
    pose proof (acted_publications T2 (presses T2) ok2).
    split; [done|]. split; [done|]. split; [lia|]. split; [lia|]. apply Hout. lia.
  - exists T1, ok1. simpl other.
    pose proof (acted_publications T1 (presses T1) ok1).
    split; [done|]. split; [done|]. split; [lia|]. split; [lia|]. apply Hout. lia.
  - (* both found it: impossible *)
    lia.
Qed.

(** C3. One article is pending once; its two buttons are pressed, and the
    two handlers run interleaved in any way, also with the other users of the
    queue. At every moment only the handler that owns the lock is inside the
    critical section, the article has been removed at most once, and as long
    as a handler has not returned one of them can move, so that both can
    return. When both have returned, one of them has removed the article
    (exactly once), acknowledged, edited the message and, for an accept,
    published (at most one publication); the other has done nothing but send
    the already-moderated notice; and the article is no longer in the queue. *)
Theorem moderation_at_most_once a (presses : tid → press) (queue : list A)
    (schedule : list move) :
  occurrences a queue = 1 →
  let s := run a presses schedule (pressed queue) in
  (∀ t, holds_lock (at_pc s t) = true → lock_owner s = Some t) ∧
  (length (removals (effects s)) ≤ 1)%nat ∧
  (¬ finished s → ∃ t, is_Some (handler_step a presses t true s)) ∧
  (∃ more, finished (run a presses (schedule ++ more) (pressed queue))) ∧
  (finished s →
   ∃ w ok,
     effects_of w (effects s) = acted w (presses w) ok ∧
     effects_of (other w) (effects s) = [AlreadyModerated (other w)] ∧
     length (removals (effects s)) = 1 ∧
     (length (publications (effects s)) ≤ 1)%nat ∧
     a ∉ unactioned_articles s).
Proof.
  intros Hq s.
  assert (Hinv : invariant a presses s)
    by (apply run_invariant; by apply invariant_pressed).
  split; [intros t Ht; by apply (inv_lock _ _ _ Hinv)|].
  split; [pose proof (inv_count _ _ _ Hinv); lia|].
  split; [by apply progress|].
  split; [|by apply finished_outcome].
  destruct (can_finish a presses s Hinv) as [more Hmore].
  exists more. by rewrite run_app.
Qed.

End ModerationFacts.

Lemma moderation_at_most_once_witness :
  let s := run "article" sample_presses sample_schedule (pressed ["older"; "article"]) in
  finished s ∧
  effects s = [Removed T2; Acknowledged T2 Reject; AlreadyModerated T1; Edited T2 Reject] ∧
  unactioned_articles s = ["older"; "newer"] ∧
  ∃ w ok,
    effects_of w (effects s) = acted w (sample_presses w) ok ∧
    effects_of (other w) (effects s) = [AlreadyModerated (other w)].
Proof.
  intros s.
  assert (Hfin : finished s) by (split; reflexivity).
  split; [exact Hfin|]. split; [reflexivity|]. split; [reflexivity|].
  assert (Hocc : occurrences "article" ["older"; "article"] = 1) by reflexivity.
  destruct (moderation_at_most_once "article" sample_presses ["older"; "article"]
              sample_schedule Hocc) as (_ & _ & _ & _ & Hout).
  destruct (Hout Hfin) as (w & ok & Hw & Hl & _).
  exists w, ok. split; [exact Hw|exact Hl].
Defined.
(** ** The search requests of a call of [fetch_article] *)

Lemma searches_app es1 es2 : searches (es1 ++ es2) = searches es1 ++ searches es2.
Proof. unfold searches. apply omap_app. Qed.

Lemma search_log_add es w : search_log (add_events es w) = search_log w ++ searches es.
Proof. unfold search_log, add_events; simpl. apply searches_app. Qed.

Lemma asks_ret {A} (a : A) : asks [] (ret a).
Proof. intros w. simpl. by rewrite (right_id_L [] (++)). Qed.

Lemma asks_raise {A} e : asks [] (@raise A e).
Proof. intros w. simpl. by rewrite (right_id_L [] (++)). Qed.

Lemma asks_lift {A} (r : result A) : asks [] (lift r).
Proof. intros w. simpl. by rewrite (right_id_L [] (++)). Qed.

Lemma asks_print m : asks [] (print m).
Proof. intros w. apply (search_log_add [EvPrint m]). Qed.

Lemma asks_sleep s : asks [] (emit (EvSleep s)).
Proof. intros w. apply (search_log_add [EvSleep s]). Qed.

Lemma asks_models : asks [] (emit EvModels).
Proof. intros w. apply (search_log_add [EvModels]). Qed.

Lemma asks_chat p : asks [] (emit (EvChat p)).
Proof. intros w. apply (search_log_add [EvChat p]). Qed.

Lemma asks_search q : asks [q] (emit (EvSearch q)).
Proof. intros w. apply (search_log_add [EvSearch q]). Qed.

Lemma asks_get_available : asks [] get_available.
Proof. intros w. simpl. by rewrite (right_id_L [] (++)). Qed.

Lemma asks_get_used : asks [] get_used.
Proof. intros w. simpl. by rewrite (right_id_L [] (++)). Qed.

Lemma asks_set_pools av us : asks [] (set_pools av us).
Proof. intros w. unfold search_log; simpl. by rewrite (right_id_L [] (++)). Qed.

Lemma asks_bind {A B} L (m : M A) (k : A → M B) :
  asks L m → (∀ a, asks [] (k a)) → asks L (bind m k).
Proof.
  intros Hm Hk w. unfold bind. specialize (Hm w).
  destruct (m w) as [[a|e] w1]; simpl in *; [|done].
  by rewrite (Hk a w1), (right_id_L [] (++)).
Qed.

Lemma asks_try_except {A} L (m : M A) (h : exn → M A) :
  asks L m → (∀ e, asks [] (h e)) → asks L (try_except m h).
Proof.
  intros Hm Hh w. unfold try_except. specialize (Hm w).
  destruct (m w) as [[a|e] w1]; simpl in *; [done|].
  by rewrite (Hh e w1), (right_id_L [] (++)).
Qed.


(** Takes a goal [asks [] m] apart along the structure of [m]. *)
Ltac ask_step :=
  match goal with
  | |- asks _ (bind _ _) => apply asks_bind; [|intros]
  | |- asks _ (try_except _ _) => apply asks_try_except; [|intros]
  | |- asks _ (ret _) => apply asks_ret
  | |- asks _ (raise _) => apply asks_raise
  | |- asks _ (lift _) => apply asks_lift
  | |- asks _ (print _) => apply asks_print
  | |- asks _ (emit (EvSleep _)) => apply asks_sleep
  | |- asks _ (emit EvModels) => apply asks_models
  | |- asks _ (emit (EvChat _)) => apply asks_chat
  | |- asks _ (emit (EvSearch _)) => apply asks_search
  | |- asks _ get_available => apply asks_get_available
  | |- asks _ get_used => apply asks_get_used
  | |- asks _ (set_pools _ _) => apply asks_set_pools
  | |- asks _ (when ?b _) => destruct b; simpl
  | |- asks _ (if ?b then _ else _) => destruct b
  | |- asks _ (match ?x with _ => _ end) => destruct x
  end.

Ltac ask := repeat (ask_step; try assumption).










(** X1: [fetch_article] returns whatever the search service, the
    completion service and the settings are: every exception of a round,
    those of the summarizer included, is caught by the loop. *)
Theorem fetch_article_never_raises cfg svc (E : gset string) w :
  ∃ r, (fetch_article cfg svc E w).1 = Ok r.
Proof.
  destruct (fetch_article_total cfg svc E w) as (r & w' & H). exists r. by rewrite H.
Qed.


(** ** Rounds that find nothing, and the term of the round that returns *)

Lemma bind_lift_raise {A B} e (k : A → M B) w : bind (lift (Raise e)) k w = (Raise e, w).
Proof. done. Qed.

(** A round whose reply is fruitless prints one line and goes on. *)
Lemma round_fruitless cfg svc E i q w :
  fruitless (search svc i q) = true →
  ∃ l, round cfg svc E i q w =
       (Ok Continue, add_events [EvPrint (LogFetching q); EvSearch q; EvPrint l] w).
Proof.
  intros Hf. unfold round, try_except, attempt. rewrite bind_print, bind_emit.
  destruct (search svc i q) as [[]|status body] eqn:Hs; simpl received.
  - rewrite bind_lift_raise. cbv beta iota. rewrite bind_print. unfold ret.
    rewrite !add_events_add. by eexists.
  - rewrite bind_lift_raise. cbv beta iota. rewrite bind_print. unfold ret.
    rewrite !add_events_add. by eexists.
  - unfold fruitless in Hf. apply andb_true_iff in Hf as [H429 Ht].
    apply negb_true_iff in H429.
    rewrite bind_lift_ok. cbn [fst snd]. rewrite H429.
    unfold top_result in Ht. rewrite H429 in Ht.
    destruct (raise_for_status status) as [[]|e1] eqn:Hst.
    2:{ rewrite bind_lift_raise. cbv beta iota. rewrite bind_print. unfold ret.
        rewrite !add_events_add. by eexists. }
    rewrite bind_lift_ok. destruct body as [data|]; simpl response_json.
    2:{ rewrite bind_lift_raise. cbv beta iota. rewrite bind_print. unfold ret.
        rewrite !add_events_add. by eexists. }
    rewrite bind_lift_ok.
    destruct (get data "articles" JNull) as [listed|e2] eqn:Hl.
    2:{ rewrite bind_lift_raise. cbv beta iota. rewrite bind_print. unfold ret.
        rewrite !add_events_add. by eexists. }
    rewrite bind_lift_ok. cbv zeta.
    destruct (truthy (py_or listed (JArr []))) eqn:Htr.
    2:{ rewrite bind_print. unfold ret. rewrite !add_events_add. by eexists. }
    destruct (item0 (py_or listed (JArr []))) as [top|e3] eqn:Htop; [done|].
    rewrite bind_lift_raise. cbv beta iota. rewrite bind_print. unfold ret.
    rewrite !add_events_add. by eexists.
Qed.

Lemma fetch_loop_fruitless cfg svc E i qs w :
  (∀ j q, fruitless (search svc j q) = true) →
  ∃ es, fetch_loop cfg svc E i qs w = (Ok Continue, add_events es w) ∧
        searches es = qs ∧ chats es = [].
Proof.
  intros Hall. revert i w. induction qs as [|q qs IH]; intros i w; simpl.
  - exists []. by rewrite add_events_nil.
  - destruct (round_fruitless cfg svc E i q w (Hall i q)) as [l Hr].
    rewrite (bind_run _ _ _ _ _ Hr).
    destruct (IH (S i) (add_events [EvPrint (LogFetching q); EvSearch q; EvPrint l] w))
      as (es & -> & Hse & Hch).
    rewrite add_events_add. eexists. split; [done|].
    rewrite searches_app, chats_app, Hse, Hch. done.
Qed.

(** [prepare], run: the refill of an empty pool and the shuffle. *)
Lemma prepare_world svc w :
  ∃ es, prepare svc w =
        (Ok tt, {| available_queries := shuffle (randbelow svc) (candidates w);
                   used_queries := used_at_start w;
                   trace := trace w ++ es |}) ∧
        searches es = [] ∧ chats es = [].
Proof.
  unfold prepare, candidates, used_at_start.
  destruct w as [[|t av] us tr]; simpl.
  - exists [EvPrint LogNoQueriesLeft; EvPrint (LogQueriesReset (length us))].
    split; [|done].
    unfold reset_pools, shuffle_available, bind, get_available, get_used, print, emit,
      set_pools; simpl. by rewrite <- (assoc_L (++)).
  - exists []. split; [|done].
    unfold shuffle_available, bind, get_available, get_used, ret, set_pools; simpl.
    by rewrite (right_id_L [] (++)).
Qed.

(** X3: when the search service has nothing for any term (no reply, an
    HTTP error other than 429, a body that is no dict, or no article), a
    call of [fetch_article] asks for every candidate term once, in the
    shuffled order, commits none, makes no completion request and returns
    null. *)
Theorem fruitless_call_asks_every_term cfg svc (E : gset string) w :
  unset (NEWS_API_KEY cfg) = false →
  (∀ j q, fruitless (search svc j q) = true) →
  let r := fetch_article cfg svc E w in
  r.1 = Ok None ∧
  search_log r.2 = search_log w ++ shuffle (randbelow svc) (candidates w) ∧
  chat_log r.2 = chat_log w ∧
  available_queries r.2 = shuffle (randbelow svc) (candidates w) ∧
  used_queries r.2 = used_at_start w.
Proof.
  intros Hkey Hall r.
  destruct (prepare_world svc w) as (es0 & Hp & Hs0 & Hc0).
  match type of Hp with _ = (_, ?x) => set (w0 := x) in * end.
  destruct (fetch_loop_fruitless cfg svc E 0 (available_queries w0) w0 Hall)
    as (es & Hl & Hse & Hch).
  assert (Hr : r = (Ok None, add_events (es ++ [EvPrint LogNoArticlesAny]) w0)).
  { subst r. unfold fetch_article. rewrite Hkey, (bind_run _ _ _ _ _ Hp).
    unfold bind at 1, get_available.
    by rewrite (bind_run _ _ _ _ _ Hl), bind_print, add_events_add. }
  rewrite Hr. cbn [fst snd]. split; [done|].
  unfold search_log, chat_log, add_events, w0 in *;
    cbn [trace available_queries used_queries] in *.
  rewrite !searches_app, !chats_app, Hs0, Hc0, Hse, Hch. simpl.
  by rewrite !(right_id_L [] (++)).
Qed.

Lemma fruitless_call_asks_every_term_witness :
  let r := fetch_article sample_config barren_service ∅ (initial (Some ["climate"; "AI"])) in
  r.1 = Ok None ∧ search_log r.2 = ["AI"; "climate"] ∧ used_queries r.2 = [].
Proof.
  intros r.
  destruct (fruitless_call_asks_every_term sample_config barren_service ∅
              (initial (Some ["climate"; "AI"])) eq_refl (λ _ _, eq_refl))
    as (Hr & Hlog & _ & _ & Hused).
  split; [exact Hr|]. split; [exact Hlog|exact Hused].
Defined.

(** *** The term of the round that returns *)

#[local] Instance grows_preorder : PreOrder grows.
Proof.
  split.
  - intros p. exists []. by rewrite (right_id_L [] (++)).
  - intros p q r [m1 H1] [m2 H2]. exists (m1 ++ m2). by rewrite H2, H1, (assoc_L (++)).
Qed.

Lemma eq_grows p q : p = q → grows p q.
Proof. intros ->. done. Qed.

Lemma commit_ok q w u w' :
  commit q w = (Ok u, w') →
  list_remove q (available_queries w) = Some (available_queries w') ∧
  used_queries w' = used_queries w ++ [q].
Proof.
  unfold commit, bind, get_available, get_used, set_pools, raise.
  destruct (list_remove q (available_queries w)) as [av|]; [|done].
  by intros [= _ <-].
Qed.

Lemma commit_grows q : preserves grows (commit q).
Proof.
  intros w. unfold commit, bind, get_available, get_used, set_pools, raise, grows.
  destruct (list_remove q (available_queries w)) as [av|]; simpl.
  - by exists [q].
  - exists []. by rewrite (right_id_L [] (++)).
Qed.

Lemma round_grows cfg svc E i q : preserves grows (round cfg svc E i q).
Proof.
  unfold round, attempt. preserve.
  - eapply preserves_weaken; [apply eq_grows|apply handle_api_limit_keeps_pools].
  - apply commit_grows.
  - eapply preserves_weaken; [apply eq_grows|apply summarize_keeps_pools].
Qed.

Lemma summarize_pools cfg svc a w r w' :
  summarize_with_lmstudio cfg svc a w = (r, w') → pools w' = pools w.
Proof.
  intros H. pose proof (summarize_keeps_pools cfg svc a w) as Hk. by rewrite H in Hk.
Qed.

Lemma attempt_commits cfg svc E i q w art w' :
  attempt cfg svc E i q w = (Ok (Return (Some art)), w') →
  list_remove q (available_queries w) = Some (available_queries w') ∧
  used_queries w' = used_queries w ++ [q].
Proof.
  unfold attempt. intros H. invert_ok; simplify_eq.
  all: match goal with
       | Hc : commit _ _ = (Ok _, _), Hs : summarize_with_lmstudio _ _ _ _ = _ |- _ =>
           apply commit_ok in Hc as [Hrm Hus]; apply summarize_pools in Hs;
           injection Hs as Hav' Hus'; simpl in *; by rewrite Hav', Hus'
       end.
Qed.

Lemma fetch_loop_commits cfg svc E i qs w art w' :
  fetch_loop cfg svc E i qs w = (Ok (Return (Some art)), w') →
  ∃ j q top earlier,
    q ∈ qs ∧ top_result (search svc j q) = Some top ∧
    get top "url" JNull = Ok (link art) ∧
    used_queries w' = used_queries w ++ earlier ++ [q].
Proof.
  revert i w. induction qs as [|q qs IH]; intros i w; simpl; [done|].
  intros H. destruct (round_total cfg svc E i q w) as (s & w2 & Hr).
  rewrite (bind_run _ _ _ _ _ Hr) in H. destruct s as [|r].
  - destruct (IH _ _ H) as (j & q' & top & earlier & Hq & Htop & Hurl & Hus).
    pose proof (round_grows cfg svc E i q w) as [more Hm]. rewrite Hr in Hm; simpl in Hm.
    exists j, q', top, (more ++ earlier). split; [by apply elem_of_cons; right|].
    split; [done|]. split; [done|]. by rewrite Hus, Hm, <- !(assoc_L (++)).
  - injection H as -> ->.
    destruct (round_returned _ _ _ _ _ _ _ _ Hr) as (top & d & Htop & Hurl & _).
    unfold round in Hr. apply try_except_ok in Hr as [Hr|(e & w1 & _ & Hr)].
    + apply attempt_commits in Hr as [_ Hus].
      exists i, q, top, []. split; [by apply elem_of_cons; left|]. by rewrite Hus.
    + by rewrite bind_print in Hr.
Qed.

(** X4: when [fetch_article] returns an article, the term it was found
    for is a candidate term and is the last entry of the used pool; before
    it come the terms the pool held at the start of the loop and those
    committed by earlier rounds of the call that lost their article. *)
Theorem returned_article_term_is_committed cfg svc (E : gset string) w art w' :
  fetch_article cfg svc E w = (Ok (Some art), w') →
  ∃ j q top earlier,
    q ∈ candidates w ∧ top_result (search svc j q) = Some top ∧
    get top "url" JNull = Ok (link art) ∧
    used_queries w' = used_at_start w ++ earlier ++ [q].
Proof.
  unfold fetch_article. intros H.
  destruct (unset (NEWS_API_KEY cfg)); [done|].
  destruct (prepare_world svc w) as (es0 & Hp & _).
  match type of Hp with _ = (_, ?x) => set (w0 := x) in * end.
  rewrite (bind_run _ _ _ _ _ Hp) in H. unfold bind at 1, get_available in H.
  destruct (fetch_loop_total cfg svc E 0 (available_queries w0) w0) as (s & w1 & Hl).
  rewrite (bind_run _ _ _ _ _ Hl) in H. destruct s as [|r]; [done|].
  injection H as -> ->.
  apply fetch_loop_commits in Hl as (j & q & top & earlier & Hq & Htop & Hurl & Hus).
  exists j, q, top, earlier. simpl in Hq, Hus.
  split; [by rewrite shuffle_perm in Hq|]. done.
Qed.

Lemma returned_article_term_is_committed_witness :
  let r := fetch_article sample_config fresh_service ∅ (initial (Some ["climate"; "AI"])) in
  ∃ q earlier, q ∈ ["climate"; "AI"] ∧ used_queries r.2 = earlier ++ [q].
Proof.
  intros r.
  assert (Hr : r = (Ok (Some sample_article), r.2)) by (vm_compute; reflexivity).
  destruct (returned_article_term_is_committed _ _ _ _ _ _ Hr)
    as (j & q & top & earlier & Hq & _ & _ & Hus).
  exists q, earlier. split; [exact Hq|exact Hus].
Defined.

(** ** The summarizer: settings, failures and the order of its requests *)

Lemma ensure_required_settings cfg :
  ensure_required cfg = Passed →
  (∃ m, LMSTUDIO_MODEL cfg = Some m) ∧ (∃ b, LMSTUDIO_BASE_URL cfg = Some b) ∧
  is_Some (ADMIN_CHANNEL_ID cfg) ∧ is_Some (POST_CHANNEL_ID cfg).
Proof.
  unfold ensure_required, missing_keys, unset.
  destruct (ADMIN_CHANNEL_ID cfg), (POST_CHANNEL_ID cfg),
    (LMSTUDIO_BASE_URL cfg) as [b|], (LMSTUDIO_MODEL cfg) as [m|]; simpl;
    repeat case_match; try done; eauto 10.
Qed.

Lemma stripped_total v : text_or_empty v = true → ∃ s, stripped v = Ok s.
Proof.
  unfold stripped, py_or. destruct v as [|b|n|s|l|l]; simpl; eauto.
  - destruct b; [done|eauto].
  - destruct (n =? 0)%Z; [eauto|done].
  - destruct (negb (s =? "")%string); eauto.
  - destruct l; [eauto|done].
  - destruct l; [eauto|done].
Qed.

Lemma build_prompt_total a : plain_text a = true → ∃ p, build_prompt a = Ok p.
Proof.
  unfold plain_text. simpl. rewrite !andb_true_iff. intros (H1 & H2 & H3 & H4 & _).
  unfold build_prompt.
  destruct (stripped_total _ H1) as [? ->], (stripped_total _ H2) as [? ->],
    (stripped_total _ H3) as [? ->], (stripped_total _ H4) as [? ->]. eauto.
Qed.

(** X5: with the settings [ensure_required] asks for in place, the adapter
    raises nothing on an article whose four fields are strings or empty:
    it returns null or a dict with a non-empty title, and leaves the query
    pools alone. *)
Theorem checked_settings_summarizer_returns cfg svc a w :
  ensure_required cfg = Passed → plain_text a = true →
  ∃ r w', summarize_with_lmstudio cfg svc a w = (Ok r, w') ∧
          (∀ v, r = Some v → accepted v = true) ∧
          pools w' = pools w.
Proof.
  intros Hc Ha.
  destruct (ensure_required_settings cfg Hc) as ([m Hm] & [b Hb] & _).
  destruct (build_prompt_total a Ha) as [p Hp].
  destruct (summarize_total cfg svc a w m b p Hm Hb Hp) as (r & w' & Hs).
  exists r, w'. split; [done|]. split.
  - by apply (summarize_ok _ _ _ _ _ _ Hs).
  - pose proof (summarize_keeps_pools cfg svc a w) as Hk. by rewrite Hs in Hk.
Qed.

Lemma checked_settings_summarizer_returns_witness :
  ∃ r w', summarize_with_lmstudio sample_config fresh_service sample_article empty_world =
          (Ok r, w') ∧ pools w' = pools empty_world.
Proof.
  destruct (checked_settings_summarizer_returns sample_config fresh_service sample_article
              empty_world eq_refl eq_refl) as (r & w' & Hs & _ & Hp).
  exists r, w'. split; [exact Hs|exact Hp].
Defined.

(** X6: with the base URL unset the adapter raises as well, even when the
    model id is set: [LMSTUDIO_BASE_URL.rstrip('/')] is caught inside
    [lmstudio_models] but not where the endpoint is built. No completion
    request has been made by then. *)
Theorem summarizer_raises_without_base_url cfg svc a w m :
  LMSTUDIO_MODEL cfg = Some m → LMSTUDIO_BASE_URL cfg = None →
  ∃ w', summarize_with_lmstudio cfg svc a w = (Raise AttributeError, w') ∧
        chat_log w' = chat_log w.
Proof.
  intros Hm Hb. unfold summarize_with_lmstudio.
  destruct (preflight_total cfg svc w m Hm) as [w1 H1].
  pose proof (preflight_issues cfg svc w) as Hi. rewrite H1 in Hi; simpl in Hi.
  rewrite (bind_run _ _ _ _ _ H1). unfold endpoint. rewrite Hb.
  exists w1. split; [done|]. by rewrite Hi, (right_id_L [] (++)).
Qed.

Lemma summarizer_raises_without_base_url_witness :
  ∃ w', summarize_with_lmstudio no_base_config fresh_service sample_article empty_world =
        (Raise AttributeError, w') ∧ chat_log w' = [].
Proof.
  exact (summarizer_raises_without_base_url no_base_config fresh_service sample_article
           empty_world "qwen2.5-7b-instruct-mlx" eq_refl eq_refl).
Defined.

Lemma schema_attempt_unreachable cfg svc p w :
  chat svc (schema_payload cfg p) = NoReply true →
  schema_attempt cfg svc p w =
  (Ok (Returned None),
   add_events [EvChat (schema_payload cfg p); EvPrint LogCannotConnect] w).
Proof.
  intros Hc. unfold schema_attempt, try_except, post.
  rewrite bind_bind, bind_emit, Hc. simpl received. rewrite bind_lift_raise.
  cbv beta iota. rewrite bind_print. unfold ret. by rewrite add_events_add.
Qed.

Lemma schema_attempt_failed cfg svc p w :
  chat svc (schema_payload cfg p) = NoReply false →
  schema_attempt cfg svc p w =
  (Ok FellThrough,
   add_events [EvChat (schema_payload cfg p); EvPrint (LogSchemaFailed RequestException)] w).
Proof.
  intros Hc. unfold schema_attempt, try_except, post.
  rewrite bind_bind, bind_emit, Hc. simpl received. rewrite bind_lift_raise.
  cbv beta iota. rewrite bind_print. unfold ret. by rewrite add_events_add.
Qed.

(** The requests of the three [try] blocks: a prefix of the plan. *)
Lemma attempts_requests cfg svc p w :
  ∃ L, chat_log (attempts cfg svc p w).2 = chat_log w ++ L ∧
       L `prefix_of` request_plan cfg p ∧ L ≠ [].
Proof.
  unfold attempts, request_plan.
  destruct (schema_attempt_total cfg svc p w) as (f1 & w1 & H1).
  pose proof (issues_run _ _ _ _ _ (schema_attempt_issues cfg svc p) H1) as L1.
  rewrite (bind_run _ _ _ _ _ H1). destruct f1.
  { eexists. split; [exact L1|]. split; [|done]. by apply prefix_cons, prefix_nil. }
  destruct (tool_attempt_total cfg svc p w1) as (f2 & w2 & H2).
  pose proof (issues_run _ _ _ _ _ (tool_attempt_issues cfg svc p) H2) as L2.
  rewrite (bind_run _ _ _ _ _ H2). destruct f2.
  { eexists. split; [unfold ret; cbn [snd]; rewrite L2, L1, <- (assoc_L (++)); done|].
    split; [|done]. by apply prefix_cons, prefix_cons, prefix_nil. }
  destruct (plain_attempt_total cfg svc p w2) as (f3 & w3 & H3).
  pose proof (issues_run _ _ _ _ _ (plain_attempt_issues cfg svc p) H3) as L3.
  rewrite (bind_run _ _ _ _ _ H3).
  exists [schema_payload cfg p; tool_payload cfg p; plain_payload cfg p].
  split; [|done].
  destruct f3.
  - unfold ret; cbn [snd]. by rewrite L3, L2, L1, <- !(assoc_L (++)).
  - rewrite bind_print. unfold ret; cbn [snd].
    rewrite (chat_log_add [EvPrint LogNoStructured]). simpl chats.
    by rewrite (right_id_L [] (++)), L3, L2, L1, <- !(assoc_L (++)).
Qed.

(** X7: the completion requests of one call of the adapter are a prefix of
    the plan: the schema-constrained request, the second request, the
    plain-instruction request, each made at most once and in this order;
    none is made when a field of the article cannot be stripped. *)
Theorem chat_requests_follow_plan cfg svc a w :
  ∃ L, chat_log (summarize_with_lmstudio cfg svc a w).2 = chat_log w ++ L ∧
       (length L ≤ 3)%nat ∧
       match build_prompt a with
       | Ok p => L `prefix_of` request_plan cfg p
       | Raise _ => L = []
       end.
Proof.
  assert (Hnone : ∀ w1 : world, chat_log w1 = chat_log w →
            ∃ L, chat_log w1 = chat_log w ++ L ∧ (length L ≤ 3)%nat ∧
                 match build_prompt a with
                 | Ok p => L `prefix_of` request_plan cfg p
                 | Raise _ => L = []
                 end).
  { intros w1 H1. exists []. rewrite (right_id_L [] (++)). split; [done|].
    split; [simpl; lia|]. destruct (build_prompt a); [apply prefix_nil|done]. }
  unfold summarize_with_lmstudio.
  pose proof (preflight_issues cfg svc w) as Hi.
  destruct (preflight cfg svc w) as [[[]|e] w1] eqn:H1; simpl in Hi;
    rewrite (right_id_L [] (++)) in Hi.
  2:{ unfold bind at 1. rewrite H1. by apply Hnone. }
  rewrite (bind_run _ _ _ _ _ H1).
  destruct (endpoint cfg) as [url|e]; [|by apply Hnone].
  rewrite bind_lift_ok.
  destruct (build_prompt a) as [p|e] eqn:Hp.
  2:{ exists []. rewrite (right_id_L [] (++)). split; [done|]. split; [simpl; lia|done]. }
  rewrite bind_lift_ok.
  destruct (attempts_requests cfg svc p w1) as (L & HL & Hpre & _).
  exists L. rewrite HL, Hi. split; [done|]. split; [|done].
  apply prefix_length in Hpre. exact Hpre.
Qed.

(** X8: with the settings in place and a strippable article, a connection
    error on the schema-constrained request ends the call at once: null is
    returned after that single request. Any other failure to get a reply (a
    timeout, say) is followed by the second request. *)
Theorem connection_error_ends_call cfg svc a w m b p :
  LMSTUDIO_MODEL cfg = Some m → LMSTUDIO_BASE_URL cfg = Some b → build_prompt a = Ok p →
  let r := summarize_with_lmstudio cfg svc a w in
  (chat svc (schema_payload cfg p) = NoReply true →
   r.1 = Ok None ∧ chat_log r.2 = chat_log w ++ [schema_payload cfg p]) ∧
  (chat svc (schema_payload cfg p) = NoReply false →
   ∃ rest, chat_log r.2 = chat_log w ++ schema_payload cfg p :: tool_payload cfg p :: rest).
Proof.
  intros Hm Hb Hp r.
  destruct (preflight_total cfg svc w m Hm) as [w1 H1].
  pose proof (preflight_issues cfg svc w) as Hi. rewrite H1 in Hi; simpl in Hi.
  rewrite (right_id_L [] (++)) in Hi.
  assert (Hr : r = attempts cfg svc p w1).
  { subst r. unfold summarize_with_lmstudio.
    rewrite (bind_run _ _ _ _ _ H1). unfold endpoint.
    by rewrite Hb, bind_lift_ok, Hp, bind_lift_ok. }
  rewrite Hr. unfold attempts. split; intros Hc.
  - rewrite (bind_run _ _ _ _ _ (schema_attempt_unreachable cfg svc p w1 Hc)).
    unfold ret; cbn [fst snd]. split; [done|].
    rewrite (chat_log_add [EvChat (schema_payload cfg p); EvPrint LogCannotConnect]).
    by rewrite Hi.
  - rewrite (bind_run _ _ _ _ _ (schema_attempt_failed cfg svc p w1 Hc)).
    set (w2 := add_events [EvChat (schema_payload cfg p);
                           EvPrint (LogSchemaFailed RequestException)] w1).
    destruct (tool_attempt_total cfg svc p w2) as (f2 & w3 & H2).
    pose proof (issues_run _ _ _ _ _ (tool_attempt_issues cfg svc p) H2) as L2.
    unfold w2 in L2.
    rewrite (chat_log_add [EvChat (schema_payload cfg p);
                           EvPrint (LogSchemaFailed RequestException)]) in L2.
    simpl chats in L2. rewrite Hi, <- (assoc_L (++)) in L2. simpl in L2.
    rewrite (bind_run _ _ _ _ _ H2). destruct f2.
    { exists []. exact L2. }
    destruct (plain_attempt_total cfg svc p w3) as (f3 & w4 & H3).
    pose proof (issues_run _ _ _ _ _ (plain_attempt_issues cfg svc p) H3) as L3.
    rewrite (bind_run _ _ _ _ _ H3). exists [plain_payload cfg p].
    destruct f3.
    + unfold ret; cbn [snd]. by rewrite L3, L2, <- (assoc_L (++)).
    + rewrite bind_print. unfold ret; cbn [snd].
      rewrite (chat_log_add [EvPrint LogNoStructured]). simpl chats.
      by rewrite (right_id_L [] (++)), L3, L2, <- (assoc_L (++)).
Qed.

Lemma connection_error_ends_call_witness :
  let r := summarize_with_lmstudio sample_config fresh_service sample_article empty_world in
  r.1 = Ok None ∧ chat_log r.2 = [schema_payload sample_config sample_prompt].
Proof.
  exact (proj1 (connection_error_ends_call sample_config fresh_service sample_article
                  empty_world "qwen2.5-7b-instruct-mlx" "http://localhost:1234/" sample_prompt
                  eq_refl eq_refl eq_refl) eq_refl).
Defined.

(** ** The models the completion service lists *)

Lemma lmstudio_models_keeps_pools cfg svc : preserves eq (lmstudio_models cfg svc).
Proof. unfold lmstudio_models. preserve. Qed.

Lemma lmstudio_models_issues cfg svc : issues [] (lmstudio_models cfg svc).
Proof. unfold lmstudio_models. issue. Qed.

Lemma lmstudio_models_asks cfg svc : asks [] (lmstudio_models cfg svc).
Proof. unfold lmstudio_models. ask. Qed.

(** X9: [lmstudio_models] raises nothing and touches neither the pools
    nor the other services; every id it returns is a string under the key
    "id" of a dict the endpoint listed, and with no base URL, no reply or
    an HTTP error status it returns the empty list. *)
Theorem models_listing_is_safe cfg svc w :
  ∃ ids w', lmstudio_models cfg svc w = (Ok ids, w') ∧
    pools w' = pools w ∧ chat_log w' = chat_log w ∧ search_log w' = search_log w ∧
    (LMSTUDIO_BASE_URL cfg = None → ids = []) ∧
    (∀ c, models svc = NoReply c → ids = []) ∧
    (∀ status body, models svc = Reply status body →
                    raise_for_status status = Raise HTTPError → ids = []) ∧
    (∀ id, id ∈ ids →
       ∃ status data listed items m,
         models svc = Reply status (Some data) ∧
         get data "data" (JArr []) = Ok listed ∧ iterate listed = Ok items ∧
         m ∈ items ∧ get m "id" JNull = Ok (JStr id)).
Proof.
  destruct (lmstudio_models_total cfg svc w) as (ids & w' & H).
  exists ids, w'. split; [done|].
  split; [pose proof (lmstudio_models_keeps_pools cfg svc w) as Hk; by rewrite H in Hk|].
  split; [pose proof (lmstudio_models_issues cfg svc w) as Hk; rewrite H in Hk; simpl in Hk;
          by rewrite (right_id_L [] (++)) in Hk|].
  split; [pose proof (lmstudio_models_asks cfg svc w) as Hk; rewrite H in Hk; simpl in Hk;
          by rewrite (right_id_L [] (++)) in Hk|].
  unfold lmstudio_models in H. apply try_except_ok in H as [H|(e & w1 & _ & H)].
  2:{ rewrite bind_print in H. injection H as <- _.
      repeat split; try done. intros id Hid. by apply elem_of_nil in Hid. }
  invert_ok. simplify_eq.
  match goal with Hr : received _ = Ok ?p |- _ =>
    apply received_ok in Hr; destruct p as [status body]; simpl in *
  end.
  split; [intros Hb; by rewrite Hb in *|].
  split; [intros c Hc; congruence|].
  split.
  { intros status' body' Hm Hst. rewrite Hm in *. simplify_eq.
    match goal with Hs : raise_for_status _ = Ok _ |- _ => by rewrite Hst in Hs end. }
  intros id Hid. apply list_elem_of_omap in Hid as (v & Hv & Hjs).
  destruct v; simplify_eq.
  apply list_elem_of_omap in Hv as (m & Hm & Hget).
  destruct (get m "id" JNull) as [v|] eqn:Hg; simplify_eq.
  destruct body as [data|]; simplify_eq. simpl in *. simplify_eq.
  eexists status, _, _, _, m. repeat split; eauto.
Qed.

(** ** The scheduler: how long it sleeps *)

Lemma quiet_rounds_step s :
  (0 < s)%Z → quiet_rounds s = S (quiet_rounds (s - seconds 60)).
Proof.
  intros Hs. unfold quiet_rounds, seconds.
  replace (s + 60 * 1000000 - 1)%Z
    with ((s - 60 * 1000000 + 60 * 1000000 - 1) + 1 * (60 * 1000000))%Z by lia.
  rewrite Z.div_add by lia.
  rewrite Z2Nat.inj_add; [|apply Z.div_pos; lia|lia].
  by rewrite Nat.add_comm.
Qed.

Lemma quiet_rounds_zero s : (s ≤ 0)%Z → quiet_rounds s = O.
Proof.
  intros Hs. unfold quiet_rounds, seconds.
  assert ((s + 60 * 1000000 - 1) / (60 * 1000000) < 1)%Z
    by (apply Z.div_lt_upper_bound; lia).
  lia.
Qed.

(** The loop never sleeps longer, in all, than the duration it was given. *)
Lemma quiet_wait_total_le n s clock k :
  (total (quiet_wait n s clock k) ≤ Z.max 0 s)%Z.
Proof.
  revert s k. induction n as [|n IH]; intros s k; simpl; [lia|].
  destruct (0 <? s)%Z eqn:Hs; simpl; [|lia]. apply Z.ltb_lt in Hs.
  destruct (active (hour (clock k))); simpl.
  - unfold seconds. lia.
  - specialize (IH (s - seconds 60)%Z (S k)). unfold seconds in *. lia.
Qed.

(** Left alone, it sleeps exactly that long. *)
Lemma quiet_wait_total_eq n s clock k :
  (∀ j, active (hour (clock j)) = false) → (quiet_rounds s ≤ n)%nat →
  total (quiet_wait n s clock k) = Z.max 0 s.
Proof.
  intros Hq. revert s k. induction n as [|n IH]; intros s k Hn; simpl.
  - destruct (decide (0 < s)%Z) as [Hs|Hs]; [|lia].
    rewrite (quiet_rounds_step s Hs) in Hn. lia.
  - destruct (0 <? s)%Z eqn:Hs; simpl; [|apply Z.ltb_ge in Hs; lia].
    apply Z.ltb_lt in Hs. rewrite Hq. rewrite (quiet_rounds_step s Hs) in Hn.
    rewrite IH by lia. unfold seconds. lia.
Qed.

(** X10: the sleeps of the quiet loop add up to the computed duration at
    most, and to exactly that duration when no wake falls in the active
    hours; so the loop itself neither shortens nor stretches the sleep. *)
Theorem quiet_loop_sleeps_the_duration (s : Z) clock k :
  (0 ≤ s)%Z →
  let slept := quiet_wait (quiet_rounds s) s clock k in
  (total slept ≤ s)%Z ∧
  ((∀ j, active (hour (clock j)) = false) → total slept = s).
Proof.
  intros Hs slept. split.
  - pose proof (quiet_wait_total_le (quiet_rounds s) s clock k). subst slept. lia.
  - intros Hq. subst slept. rewrite quiet_wait_total_eq by done. lia.
Qed.

Lemma quiet_loop_sleeps_the_duration_witness :
  total (quiet_wait (quiet_rounds (seconds 150)) (seconds 150) (λ _, eleven_pm) 0) =
  seconds 150.
Proof.
  refine (proj2 (quiet_loop_sleeps_the_duration (seconds 150) (λ _, eleven_pm) 0 _) _).
  - unfold seconds. lia.
  - intros j. reflexivity.
Defined.

(** X11: from 22:00 to midnight the scheduler is in its quiet state and the
    sleep it computes is the time to the next 09:00: more than nine hours,
    eleven at most. *)
Theorem evening_sleep_reaches_next_morning now :
  (22 ≤ hour now < 24)%Z → (0 ≤ minute now < 60)%Z → (0 ≤ second now < 60)%Z →
  (0 ≤ microsecond now < 1000000)%Z →
  quiet (hour now) = true ∧
  sleep_until_morning now = until_next_nine now ∧
  (seconds (9 * 3600) < sleep_until_morning now ≤ seconds (11 * 3600))%Z.
Proof.
  intros Hh Hm Hs Hu. split; [unfold quiet; lia|]. split.
  - unfold sleep_until_morning, until_next_nine, next_nine.
    by destruct (hour now <? 9)%Z eqn:H9; [lia|].
  - unfold sleep_until_morning, total_microseconds, microseconds_of, on_date_of,
      plus_days, seconds. simpl. lia.
Qed.

Lemma evening_sleep_reaches_next_morning_witness :
  quiet (hour eleven_pm) = true ∧
  sleep_until_morning eleven_pm = until_next_nine eleven_pm ∧
  (seconds (9 * 3600) < sleep_until_morning eleven_pm ≤ seconds (11 * 3600))%Z.
Proof.
  apply (evening_sleep_reaches_next_morning eleven_pm); simpl; lia.
Defined.

(** X12: what the scheduler sleeps at the end of a round: half an hour in
    one piece in the active hours; in the quiet hours pieces of a minute at
    most, no more in all than the duration it computed. *)
Theorem scheduler_sleep_pattern now clock :
  if active (hour now) then scheduler_sleeps now clock = [seconds 1800]
  else Forall (λ d, (d ≤ seconds 60)%Z) (scheduler_sleeps now clock) ∧
       (total (scheduler_sleeps now clock) ≤ Z.max 0 (sleep_until_morning now))%Z.
Proof.
  unfold scheduler_sleeps. rewrite quiet_not_active.
  destruct (active (hour now)); simpl; [done|].
  split; [apply quiet_wait_chunks|apply quiet_wait_total_le].
Qed.

(** X13: in tasks.py every hour is either active or quiet, never both. In
    backup.py the two tests overlap: from 19:00 to 22:59 a round fetches and
    then sleeps until the morning, and a wake in those hours does not end
    that sleep. *)
Theorem hour_windows (h : Z) :
  active h = negb (quiet h) ∧
  (Backup.active h && Backup.quiet h = true ↔ (19 ≤ h < 23)%Z) ∧
  (Backup.active h || Backup.quiet h = true) ∧
  (Backup.resumes h = true → Backup.quiet h = false).
Proof.
  unfold active, quiet, Backup.active, Backup.quiet, Backup.resumes.
  repeat split; lia.
Qed.

(** ** The topics file *)






(** ** The cards and the scan of the review channel *)

Lemma length_take_chars n s : (String.length (take_chars n s) ≤ n)%nat.
Proof.
  unfold take_chars. revert s. induction n as [|n IH]; intros [|c s]; simpl; try lia.
  specialize (IH s). lia.
Qed.

Lemma prefix_take_chars n s : String.prefix (take_chars n s) s = true.
Proof.
  unfold take_chars. revert s. induction n as [|n IH]; intros [|c s]; simpl; try done.
  rewrite IH. by destruct (ascii_dec c c).
Qed.

Lemma card_fields repr a e :
  moderation_embed repr a = Ok e →
  ∃ rest, embed_fields e =
          {| field_name := "Source"; field_value := str repr (source a); inline := true |} ::
          {| field_name := "Link"; field_value := str repr (link a); inline := false |} :: rest ∧
          (rest = [] ∨
           ∃ why, rest = [{| field_name := "Why it matters"; field_value := why;
                             inline := false |}]).
Proof.
  unfold moderation_embed. intros H.
  destruct (summary a) as [| | | | |fields].
  6:{ destruct (bullets repr _) as [description|]; [|done]. injection H as <-. simpl.
      eexists. split; [done|]. destruct (truthy _); eauto. }
  all: injection H as <-; simpl; eauto.
Qed.

Lemma card_texts repr a e :
  moderation_embed repr a = Ok e →
  ∃ description, embed_title e = take_chars 256 (title_text repr a) ∧
                 embed_description e = take_chars 4000 description.
Proof.
  unfold moderation_embed. intros H.
  destruct (summary a) as [| | | | |fields].
  6:{ destruct (bullets repr _) as [description|]; [|done]. injection H as <-. simpl. eauto. }
  all: injection H as <-; simpl; eauto.
Qed.

(** X15: the card of an article has a title of 256 characters at most and
    a description of 4000 at most, the title being the beginning of the
    full title; its fields are Source and Link, the link being that of the
    article, and after them at most the field "Why it matters". *)
Theorem card_within_limits repr a e :
  moderation_embed repr a = Ok e →
  (String.length (embed_title e) ≤ 256)%nat ∧
  (String.length (embed_description e) ≤ 4000)%nat ∧
  String.prefix (embed_title e) (title_text repr a) = true ∧
  ∃ rest,
    embed_fields e =
      {| field_name := "Source"; field_value := str repr (source a); inline := true |} ::
      {| field_name := "Link"; field_value := str repr (link a); inline := false |} :: rest ∧
    (rest = [] ∨
     ∃ why, rest = [{| field_name := "Why it matters"; field_value := why; inline := false |}]).
Proof.
  intros H. destruct (card_texts repr a e H) as (description & -> & ->).
  split; [apply length_take_chars|]. split; [apply length_take_chars|].
  split; [apply prefix_take_chars|]. by apply card_fields.
Qed.

Lemma card_within_limits_witness :
  ∃ e, moderation_embed sample_repr sample_article = Ok e ∧
       (String.length (embed_title e) ≤ 256)%nat ∧
       (String.length (embed_description e) ≤ 4000)%nat.
Proof.
  eexists. split; [reflexivity|].
  destruct (card_within_limits sample_repr sample_article _ eq_refl) as (Ht & Hd & _).
  split; [exact Ht|exact Hd].
Defined.

Lemma embeds_agree repr a : public_embed repr a = moderation_embed repr a.
Proof. unfold public_embed, moderation_embed. by destruct (summary a). Qed.

(** X16: the card published on acceptance is the card the moderators were
    shown: the two senders, each with its own copy of the code, put the
    same embed into their message (the review message with the buttons, the
    public one without), or raise the same exception. *)
Theorem public_card_is_review_card repr a review_history public_history :
  match send_moderation_message repr a (Some review_history),
        post_to_public_channel repr a (Some public_history) with
  | Ok sent, Ok posted =>
      ∃ e, moderation_embed repr a = Ok e ∧
           sent = Some ({| by_bot := true; msg_content := "New article for review:";
                           embeds := [e]; with_view := true |} :: review_history) ∧
           posted = Some ({| by_bot := true; msg_content := ""; embeds := [e];
                             with_view := false |} :: public_history)
  | Raise e1, Raise e2 => e1 = e2
  | _, _ => False
  end.
Proof.
  unfold send_moderation_message, post_to_public_channel.
  pose proof (embeds_agree repr a) as Hp.
  destruct (public_embed repr a) as [p|p], (moderation_embed repr a) as [e|e];
    simplify_eq; eauto.
Qed.

(** X17: a structured summary whose key points cannot be iterated (a
    number, a boolean, null under the key) makes both senders raise;
    [fetch_and_post_articles] and the accept handler call them outside any
    [try]. *)
Theorem card_fails_on_bad_key_points repr a fields e history :
  summary a = JObj fields →
  iterate (entry "key_points" fields (JArr [])) = Raise e →
  send_moderation_message repr a (Some history) = Raise e ∧
  post_to_public_channel repr a (Some history) = Raise e.
Proof.
  intros Hs Hk. unfold send_moderation_message, post_to_public_channel.
  unfold public_embed, moderation_embed, bullets.
  by rewrite Hs, Hk.
Qed.

Lemma card_fails_on_bad_key_points_witness :
  send_moderation_message sample_repr odd_article (Some []) = Raise TypeError ∧
  post_to_public_channel sample_repr odd_article (Some []) = Raise TypeError.
Proof.
  exact (card_fails_on_bad_key_points sample_repr odd_article _ TypeError [] eq_refl eq_refl).
Defined.

(** *** The scan *)

Lemma elem_of_add_links L urls e :
  L ∈ add_links urls e ↔
  L ∈ urls ∨ ∃ f, f ∈ embed_fields e ∧ field_name f = "Link" ∧ field_value f = L.
Proof.
  unfold add_links. revert urls. induction (embed_fields e) as [|f fs IH]; intros urls; simpl.
  - split; [by left|]. intros [?|(f & Hf & _)]; [done|]. by apply elem_of_nil in Hf.
  - rewrite IH. destruct (String.eqb (field_name f) "Link") eqn:Hn.
    + apply String.eqb_eq in Hn. rewrite elem_of_union, elem_of_singleton. split.
      * intros [[?| ->]|(g & Hg & ?)]; [by left| |].
        -- right. exists f. split; [by apply elem_of_cons; left|done].
        -- right. exists g. split; [by apply elem_of_cons; right|done].
      * intros [?|(g & Hg & Hgn & Hgv)]; [by left; left|].
        apply elem_of_cons in Hg as [->|Hg]; [by left; right|].
        right. by exists g.
    + apply String.eqb_neq in Hn. split.
      * intros [?|(g & Hg & ?)]; [by left|].
        right. exists g. split; [by apply elem_of_cons; right|done].
      * intros [?|(g & Hg & Hgn & Hgv)]; [by left|].
        apply elem_of_cons in Hg as [->|Hg]; [done|]. right. by exists g.
Qed.

Lemma elem_of_add_all_links L urls es :
  L ∈ foldl add_links urls es ↔
  L ∈ urls ∨ ∃ e f, e ∈ es ∧ f ∈ embed_fields e ∧ field_name f = "Link" ∧ field_value f = L.
Proof.
  revert urls. induction es as [|e es IH]; intros urls; simpl.
  - split; [by left|]. intros [?|(e & f & He & _)]; [done|]. by apply elem_of_nil in He.
  - rewrite IH, elem_of_add_links. split.
    + intros [[?|(f & Hf & ?)]|(e' & f & He & ?)]; [by left| |].
      * right. exists e, f. split; [by apply elem_of_cons; left|done].
      * right. exists e', f. split; [by apply elem_of_cons; right|done].
    + intros [?|(e' & f & He & Hf)]; [by left; left|].
      apply elem_of_cons in He as [->|He]; [left; right; by exists f|].
      right. by exists e', f.
Qed.

Lemma elem_of_scan L urls ms :
  L ∈ foldl (λ urls m,
               if by_bot m && match embeds m with [] => false | _ :: _ => true end
               then foldl add_links urls (embeds m)
               else urls) urls ms ↔
  L ∈ urls ∨ ∃ m, m ∈ ms ∧ carries m L.
Proof.
  revert urls. induction ms as [|m ms IH]; intros urls; simpl.
  - split; [by left|]. intros [?|(m & Hm & _)]; [done|]. by apply elem_of_nil in Hm.
  - rewrite IH. clear IH.
    assert (Hm : L ∈ (if by_bot m && match embeds m with [] => false | _ :: _ => true end
                      then foldl add_links urls (embeds m) else urls) ↔
                 L ∈ urls ∨ carries m L).
    { unfold carries. destruct (by_bot m); simpl.
      - destruct (embeds m) as [|e es] eqn:He.
        + split; [by left|]. intros [?|(_ & e & f & Hin & _)]; [done|].
          by apply elem_of_nil in Hin.
        + rewrite elem_of_add_all_links. split.
          * intros [?|(e' & f & Hef)]; [by left|]. right. split; [done|]. by exists e', f.
          * intros [?|(_ & e' & f & Hef)]; [by left|]. right. by exists e', f.
      - split; [by left|]. by intros [?|[? _]]. }
    rewrite Hm. split.
    + intros [[?|?]|(m' & Hin & ?)]; [by left| |].
      * right. exists m. split; [by apply elem_of_cons; left|done].
      * right. exists m'. split; [by apply elem_of_cons; right|done].
    + intros [?|(m' & Hin & Hc)]; [by left; left|].
      apply elem_of_cons in Hin as [->|Hin]; [by left; right|]. right. by exists m'.
Qed.

(** The scan finds [L] when one of the fifty newest messages carries it. *)
Lemma scan_links_at (history : list message) (L : string) :
  L ∈ get_all_recent_bot_article_urls history ↔
  ∃ k m, (k < 50)%nat ∧ history !! k = Some m ∧ carries m L.
Proof.
  unfold get_all_recent_bot_article_urls. rewrite elem_of_scan. split.
  - intros [H|(m & Hm & Hc)]; [by apply elem_of_empty in H|].
    apply list_elem_of_lookup in Hm as [k Hk].
    apply lookup_take_Some in Hk as [Hk Hlt]. by exists k, m.
  - intros (k & m & Hlt & Hk & Hc). right. exists m. split; [|done].
    apply list_elem_of_lookup. exists k. by apply lookup_take_Some.
Qed.

(** X18: the links [get_all_recent_bot_article_urls] collects are exactly
    the values of the "Link" fields of the embeds of the bot's own messages
    among the fifty newest of the channel: messages of others, fields of
    other names and older messages count for nothing. *)
Theorem scan_collects_bot_links (history : list message) (L : string) :
  L ∈ get_all_recent_bot_article_urls history ↔
  ∃ k m e f, (k < 50)%nat ∧ history !! k = Some m ∧ by_bot m = true ∧
             e ∈ embeds m ∧ f ∈ embed_fields e ∧
             field_name f = "Link" ∧ field_value f = L.
Proof.
  rewrite scan_links_at. unfold carries. split.
  - intros (k & m & Hlt & Hk & Hb & e & f & H). by exists k, m, e, f.
  - intros (k & m & e & f & Hlt & Hk & Hb & H). exists k, m. split; [done|].
    split; [done|]. split; [done|]. by exists e, f.
Qed.

(** X19: editing a review message as the handlers do (new content, the
    buttons removed) changes nothing for the scan: a moderated article,
    accepted or rejected, stays excluded as long as its message is among
    the fifty newest. *)
Theorem moderated_message_still_scanned (history : list message) k m content :
  history !! k = Some m →
  get_all_recent_bot_article_urls (<[k := edit content m]> history) =
  get_all_recent_bot_article_urls history.
Proof.
  intros Hk. apply set_eq. intros L. rewrite !scan_links_at.
  assert (Hlen : (k < length history)%nat) by (by eapply lookup_lt_Some).
  split.
  - intros (j & m' & Hlt & Hj & Hc). destruct (decide (j = k)) as [->|Hne].
    + rewrite list_lookup_insert_eq in Hj by done.
      injection Hj as <-. by exists k, m.
    + rewrite list_lookup_insert_ne in Hj by done. by exists j, m'.
  - intros (j & m' & Hlt & Hj & Hc). destruct (decide (j = k)) as [->|Hne].
    + exists k, (edit content m). split; [done|].
      rewrite list_lookup_insert_eq by done.
      split; [done|]. by simplify_eq.
    + exists j, m'. by rewrite list_lookup_insert_ne.
Qed.

Lemma moderated_message_still_scanned_witness :
  get_all_recent_bot_article_urls (<[0%nat := edit "Rejected" sample_review]> [sample_review]) =
  get_all_recent_bot_article_urls [sample_review].
Proof.
  exact (moderated_message_still_scanned [sample_review] 0 sample_review "Rejected" eq_refl).
Defined.

(** A review message carries the link of its article. *)
Lemma review_message_carries repr a e L content view :
  moderation_embed repr a = Ok e → link a = JStr L →
  carries {| by_bot := true; msg_content := content; embeds := [e]; with_view := view |} L.
Proof.
  intros He HL. split; [done|].
  apply card_fields in He as (rest & Hf & _).
  exists e. eexists. split; [by apply elem_of_cons; left|].
  split; [rewrite Hf; apply elem_of_cons; right; by apply elem_of_cons; left|].
  simpl. by rewrite HL.
Qed.

Lemma sent_message_carries repr a L history sent :
  link a = JStr L → send_moderation_message repr a (Some history) = Ok sent →
  ∃ m, sent = Some (m :: history) ∧ carries m L.
Proof.
  intros HL. unfold send_moderation_message.
  destruct (moderation_embed repr a) as [e|] eqn:He; [|done].
  intros [= <-]. eexists. split; [done|]. by eapply review_message_carries.
Qed.

(** X20: an article sent for review is not fetched again while its review
    message is among the fifty newest of the channel: with fewer than fifty
    newer messages above it, the scan finds its link, and [fetch_article],
    given that scan, returns no article with that link. *)
Theorem reviewed_article_not_fetched_again repr a L history sent newer :
  link a = JStr L →
  send_moderation_message repr a (Some history) = Ok (Some sent) →
  (length newer < 50)%nat →
  let recent_urls := get_all_recent_bot_article_urls (newer ++ sent) in
  L ∈ recent_urls ∧
  ∀ cfg svc w art w',
    fetch_article cfg svc recent_urls w = (Ok (Some art), w') → link art ≠ link a.
Proof.
  intros HL Hs Hn recent_urls.
  destruct (sent_message_carries repr a L history _ HL Hs) as (m & [= ->] & Hc).
  assert (Hin : L ∈ recent_urls).
  { apply scan_links_at. exists (length newer), m. split; [done|]. split; [|done].
    by rewrite lookup_app_r, Nat.sub_diag by lia. }
  split; [done|]. intros cfg svc w art w' Hf Heq.
  apply fetch_article_returned in Hf as (j & q & top & d & _ & _ & Hseen & _).
  rewrite Heq, HL in Hseen. by eapply seen_false.
Qed.

Lemma reviewed_article_not_fetched_again_witness :
  "https://example.org/AI" ∈ get_all_recent_bot_article_urls [sample_review].
Proof.
  exact (proj1 (reviewed_article_not_fetched_again sample_repr sample_article
                  "https://example.org/AI" [] [sample_review] [] eq_refl eq_refl
                  ltac:(simpl; lia))).
Defined.

(** X21: what the card of a fetched article shows. With the description as
    summary the card is always built: its description is the beginning of
    that text, its title that of the search result. With a structured
    summary the title is the summarizer's. *)
Theorem fetched_article_card repr cfg svc (E : gset string) w art w' :
  fetch_article cfg svc E w = (Ok (Some art), w') →
  (∃ text, summary art = JStr text ∧ text ≠ "" ∧
           moderation_embed repr art =
           Ok {| embed_title := take_chars 256 (str repr (title art));
                 embed_description := take_chars 4000 text;
                 embed_fields :=
                   [{| field_name := "Source"; field_value := str repr (source art);
                       inline := true |};
                    {| field_name := "Link"; field_value := str repr (link art);
                       inline := false |}] |}) ∨
  (∃ fields t, summary art = JObj fields ∧ assoc "title" fields = Some t ∧ truthy t = true ∧
               ∀ e, moderation_embed repr art = Ok e →
                    embed_title e = take_chars 256 (str repr t)).
Proof.
  intros Hf.
  apply fetch_article_returned in Hf as (j & q & top & d & _ & _ & _ & _ & Hs).
  destruct Hs as [(fields & t & Hs & Ht & Htr)|(text & Hs & Hne & _)].
  - right. exists fields, t. split; [done|]. split; [done|]. split; [done|].
    intros e. unfold moderation_embed, title_text, entry. rewrite Hs, Ht, Htr.
    destruct (bullets repr _); [|done]. by intros [= <-].
  - left. exists text. split; [done|]. split; [done|].
    unfold moderation_embed, title_text. by rewrite Hs.
Qed.

Lemma fetched_article_card_witness :
  ∃ e, moderation_embed sample_repr sample_article = Ok e ∧
       embed_title e = "News on AI" ∧ embed_description e = placeholder.
Proof.
  assert (Hr : fetch_article sample_config fresh_service ∅ (initial (Some ["climate"; "AI"])) =
               (Ok (Some sample_article),
                (fetch_article sample_config fresh_service ∅
                   (initial (Some ["climate"; "AI"]))).2))
    by (vm_compute; reflexivity).
  destruct (fetched_article_card sample_repr _ _ _ _ _ _ Hr)
    as [(text & Hs & _ & He)|(fields & t & Hs & _)]; [|discriminate Hs].
  injection Hs as <-. eexists. split; [exact He|]. split; reflexivity.
Defined.

(** ** The diagnostics of start-up *)

Lemma list_channels_resolved g (c : nat) chs :
  me_resolved g = true → (c < 50)%nat →
  let viewable := take (50 - c) (List.filter view_channel chs) in
  list_channels g c chs =
  (map (λ ch, ChannelLine (ch_name ch) (ch_id ch)) viewable, (c + length viewable)%nat).
Proof.
  intros Hme. revert c. induction chs as [|ch chs IH]; intros c Hc.
  - cbn -[Nat.leb Nat.sub]. rewrite take_nil. simpl. by rewrite Nat.add_0_r.
  - cbn -[Nat.leb Nat.sub take]. rewrite Hme. cbn -[Nat.leb Nat.sub take].
    destruct (view_channel ch) eqn:Hv.
    + destruct (50 <=? S c)%nat eqn:H50.
      * apply Nat.leb_le in H50. assert (c = 49)%nat as -> by lia. done.
      * apply Nat.leb_gt in H50. rewrite (IH (S c) H50). cbn -[Nat.leb Nat.sub take].
        replace (50 - c)%nat with (S (50 - S c)) by lia. cbn -[Nat.leb Nat.sub take].
        f_equal. simpl. lia.
    + destruct (50 <=? c)%nat eqn:H50; [apply Nat.leb_le in H50; lia|].
      by rewrite (IH c Hc).
Qed.

(** X22: for a guild in which the bot's member resolves,
    [list_accessible_text_channels] prints the guild and then the channels
    the bot may view, in their order, the first fifty at most; the line
    "No accessible text channels found." follows exactly when there is none. *)
Theorem listing_shows_first_fifty_viewable g :
  me_resolved g = true →
  let viewable := List.filter view_channel (text_channels g) in
  list_guild g =
  GuildLine (g_name g) (g_id g) ::
  map (λ ch, ChannelLine (ch_name ch) (ch_id ch)) (take 50 viewable) ++
  (match viewable with [] => [NoAccessible] | _ :: _ => [] end).
Proof.
  intros Hme viewable. unfold list_guild.
  rewrite (list_channels_resolved g 0 (text_channels g) Hme) by lia. simpl.
  fold viewable. by destruct viewable.
Qed.

Lemma listing_shows_first_fifty_viewable_witness :
  list_accessible_text_channels [sample_guild] =
  [ListingHeader; GuildLine "newsroom" 10; ChannelLine "review" 1; ChannelLine "news" 2].
Proof.
  unfold list_accessible_text_channels. cbn [flat_map].
  rewrite (listing_shows_first_fifty_viewable sample_guild eq_refl). reflexivity.
Defined.

(** X23: [check_channel_perms], once channel, guild and member resolve,
    reports the permissions as in order exactly when the bot may view the
    channel, send messages, embed links and read the history; else it names
    the permissions that are missing, in this order, and only those. *)
Theorem channel_check_names_missing ch g label :
  me_resolved g = true →
  let report := check_channel_perms (Some (ch, Some g)) label in
  let missing :=
    (if view_channel ch then [] else ["view_channel"]) ++
    (if send_messages ch then [] else ["send_messages"]) ++
    (if embed_links ch then [] else ["embed_links"]) ++
    (if read_message_history ch then [] else ["read_message_history"]) in
  match missing with
  | [] => report = PermissionsOK label (ch_name ch)
  | _ :: _ => report = PermissionsMissing label (ch_name ch) (String.concat ", " missing)
  end.
Proof.
  intros Hme. unfold check_channel_perms, required. rewrite Hme. simpl.
  by destruct (view_channel ch), (send_messages ch), (embed_links ch),
    (read_message_history ch).
Qed.

Lemma channel_check_names_missing_witness :
  check_channel_perms
    (Some ({| ch_name := "news"; ch_id := 2; view_channel := true; send_messages := true;
              embed_links := false; read_message_history := true |}, Some sample_guild))
    "Public channel" =
  PermissionsMissing "Public channel" "news" "embed_links".
Proof.
  exact (channel_check_names_missing
           {| ch_name := "news"; ch_id := 2; view_channel := true; send_messages := true;
              embed_links := false; read_message_history := true |}
           sample_guild "Public channel" eq_refl).
Defined.

(** ** One round of the scheduler *)

Lemma active_branch_cases repr cfg svc guilds b r b' :
  active_branch repr cfg svc guilds b = (r, b') →
  (review b = None ∧ b' = b ∧ news b' = news b ∧
   r = Ok ([ReviewChannelInvalid; Diagnostics (list_accessible_text_channels guilds)], true)) ∨
  (∃ history,
     review b = Some history ∧
     ((∃ w, fetch_article cfg svc (get_all_recent_bot_article_urls history) (news b) =
            (Ok None, w) ∧
            r = Ok ([NoNewArticles], false) ∧
            b' = {| news := w; unactioned := unactioned b; review := review b |}) ∨
      (∃ art w,
         fetch_article cfg svc (get_all_recent_bot_article_urls history) (news b) =
         (Ok (Some art), w) ∧
         ((∃ e, send_moderation_message repr art (Some history) = Raise e ∧ r = Raise e ∧
                b' = {| news := w; unactioned := unactioned b ++ [art];
                        review := review b |}) ∨
          (∃ sent, send_moderation_message repr art (Some history) = Ok sent ∧
                   r = Ok ([NewArticle art (unactioned b ++ [art])], false) ∧
                   b' = {| news := w; unactioned := unactioned b ++ [art];
                           review := sent |}))))).
Proof.
  unfold active_branch. destruct (review b) as [history|] eqn:Hr.
  - intros H. right. exists history. split; [done|].
    destruct (fetch_article_total cfg svc (get_all_recent_bot_article_urls history) (news b))
      as (o & w & Hf).
    rewrite Hf in H. destruct o as [art|].
    + right. exists art, w. split; [done|].
      destruct (send_moderation_message repr art (Some history)) as [sent|e] eqn:Hs;
        injection H as <- <-; [right|left]; eauto.
    + left. exists w. by injection H as <- <-.
  - intros [= <- <-]. by left.
Qed.

(** A round that returns leaves queue and channel as they were, or has
    added the fetched article to both. *)
Lemma round_step repr cfg svc guilds now clock b out b' :
  fetch_and_post_round repr cfg svc guilds now clock b = (Ok out, b') →
  (unactioned b' = unactioned b ∧ review b' = review b) ∨
  ∃ art m history,
    review b = Some history ∧
    unactioned b' = unactioned b ++ [art] ∧
    review b' = Some (m :: history) ∧
    ∀ L, link art = JStr L →
         carries m L ∧ L ∉ get_all_recent_bot_article_urls history.
Proof.
  unfold fetch_and_post_round.
  destruct (active (hour now)) eqn:Ha; [|intros [= _ <-]; by left].
  destruct (active_branch repr cfg svc guilds b) as [res b1] eqn:Hb.
  apply active_branch_cases in Hb
    as [(Hr & -> & _ & ->)
       |(history & Hr & [(w & Hf & -> & ->)|(art & w & Hf & [(e & Hs & -> & ->)
                                                          |(sent & Hs & -> & ->)])])];
    simpl; intros H; simplify_eq; simpl.
  - by left.
  - by left.
  - right.
    assert (Hsent : ∃ m, sent = Some (m :: history) ∧ ∀ L, link art = JStr L → carries m L).
    { revert Hs. unfold send_moderation_message.
      destruct (moderation_embed repr art) as [e|] eqn:He; [|done]. intros [= <-].
      eexists. split; [done|]. intros L HL. by eapply review_message_carries. }
    destruct Hsent as (m & -> & Hm). exists art, m, history.
    split; [done|]. split; [done|]. split; [done|].
    intros L HL. split; [by apply Hm|]. intros Hin.
    apply fetch_article_returned in Hf as (j & q & top & d & _ & _ & Hseen & _).
    rewrite HL in Hseen. by eapply seen_false.
Qed.

(** A round that raises has appended the article and sent nothing. *)
Lemma round_raised repr cfg svc guilds now clock b e b' :
  fetch_and_post_round repr cfg svc guilds now clock b = (Raise e, b') →
  ∃ art history,
    review b = Some history ∧
    send_moderation_message repr art (Some history) = Raise e ∧
    unactioned b' = unactioned b ++ [art] ∧ review b' = review b.
Proof.
  unfold fetch_and_post_round.
  destruct (active (hour now)) eqn:Ha; [|done].
  destruct (active_branch repr cfg svc guilds b) as [res b1] eqn:Hb.
  apply active_branch_cases in Hb
    as [(Hr & -> & _ & ->)
       |(history & Hr & [(w & Hf & -> & ->)|(art & w & Hf & [(e' & Hs & -> & ->)
                                                          |(sent & Hs & -> & ->)])])];
    simpl; intros H; simplify_eq; simpl.
  by exists art, history.
Qed.

(** X24: a round of [fetch_and_post_articles] changes queue and review
    channel together or not at all: outside the active hours and without a
    review channel nothing changes; else the queue is as it was, or it has
    one more entry at its end, the article just fetched, whose link the scan
    of the channel did not hold, and the channel has its review message on
    top. A round that raises has appended the article and sent nothing. *)
Theorem round_keeps_queue_and_channel_in_step repr cfg svc guilds now clock b :
  let r := fetch_and_post_round repr cfg svc guilds now clock b in
  (active (hour now) = false ∨ review b = None → r.2 = b) ∧
  (∀ out, r.1 = Ok out →
     (unactioned r.2 = unactioned b ∧ review r.2 = review b) ∨
     ∃ art m history,
       review b = Some history ∧
       unactioned r.2 = unactioned b ++ [art] ∧
       review r.2 = Some (m :: history) ∧
       ∀ L, link art = JStr L →
            carries m L ∧ L ∉ get_all_recent_bot_article_urls history) ∧
  (∀ e, r.1 = Raise e →
     ∃ art, unactioned r.2 = unactioned b ++ [art] ∧ review r.2 = review b).
Proof.
  intros r. split; [|split].
  - subst r. unfold fetch_and_post_round, active_branch.
    intros [Ha|Hr]; [by rewrite Ha|]. rewrite Hr. by destruct (active (hour now)).
  - intros out Hout. destruct r as [res b'] eqn:Hr. simpl in *. subst res.
    by apply (round_step repr cfg svc guilds now clock b out).
  - intros e He. destruct r as [res b'] eqn:Hr. simpl in *. subst res.
    apply round_raised in Hr as (art & history & _ & _ & Hq & Hc). by exists art.
Qed.

Lemma scan_older (history : list message) m L :
  (length history < 50)%nat →
  L ∈ get_all_recent_bot_article_urls history →
  L ∈ get_all_recent_bot_article_urls (m :: history).
Proof.
  intros Hlen. rewrite !scan_links_at. intros (k & m' & _ & Hk & Hc).
  exists (S k), m'. split; [|done]. apply lookup_lt_Some in Hk. lia.
Qed.

(** X25: as long as the review channel has fewer than fifty messages, a
    round keeps the queue free of repeated links: if every link in the
    queue is found by the scan and no two entries share a link, the same
    holds after the round. *)
Theorem queue_links_stay_distinct repr cfg svc guilds now clock b out b' :
  links_known b → distinct_links (unactioned b) → has_room b →
  fetch_and_post_round repr cfg svc guilds now clock b = (Ok out, b') →
  links_known b' ∧ distinct_links (unactioned b').
Proof.
  intros (history & Hr & Hknown) Hdist Hroom Hround.
  destruct (round_step _ _ _ _ _ _ _ _ _ Hround)
    as [[Hq Hc]|(art & m & history' & Hr' & Hq & Hc & Hart)].
  - split; [|by rewrite Hq]. exists history. rewrite Hc, Hq. done.
  - rewrite Hr in Hr'. injection Hr' as <-.
    specialize (Hroom history Hr).
    split.
    + exists (m :: history). split; [done|]. intros a L Ha HL. rewrite Hq in Ha.
      apply elem_of_app in Ha as [Ha|Ha].
      * apply scan_older; [done|]. by eapply Hknown.
      * apply list_elem_of_singleton in Ha as ->. apply scan_links_at.
        exists 0%nat, m. split; [lia|]. split; [done|]. by apply Hart.
    + rewrite Hq. intros i j a a' L Hi Hj Ha Ha'.
      assert (Hold : ∀ k x, (unactioned b ++ [art]) !! k = Some x → link x = JStr L →
                     (k < length (unactioned b))%nat → False
                     ∨ L ∈ get_all_recent_bot_article_urls history).
      { intros k x Hk Hx Hlt. right. rewrite lookup_app_l in Hk by done.
        eapply Hknown; [|done]. by eapply list_elem_of_lookup_2. }
      assert (Hnew : ∀ k x, (unactioned b ++ [art]) !! k = Some x →
                     ¬ (k < length (unactioned b))%nat →
                     k = length (unactioned b) ∧ x = art).
      { intros k x Hk Hge.
        rewrite lookup_app_r in Hk by lia.
        destruct (k - length (unactioned b))%nat as [|n] eqn:Hn; simpl in Hk; [|done].
        injection Hk as <-. split; [lia|done]. }
      destruct (decide (i < length (unactioned b))%nat) as [Hi'|Hi'],
               (decide (j < length (unactioned b))%nat) as [Hj'|Hj'].
      * rewrite lookup_app_l in Hi, Hj by done. by eapply Hdist.
      * destruct (Hnew j a' Hj Hj') as [-> ->].
        destruct (Hold i a Hi Ha Hi') as [[]|Hin]. by destruct (proj2 (Hart L Ha')).
      * destruct (Hnew i a Hi Hi') as [-> ->].
        destruct (Hold j a' Hj Ha' Hj') as [[]|Hin]. by destruct (proj2 (Hart L Ha)).
      * destruct (Hnew i a Hi Hi') as [-> _], (Hnew j a' Hj Hj') as [-> _]. done.
Qed.

Lemma queue_links_stay_distinct_witness :
  let r := fetch_and_post_round sample_repr sample_config fresh_service [sample_guild]
             noon (λ _, noon) fresh_bot in
  unactioned r.2 = [sample_article] ∧ distinct_links (unactioned r.2).
Proof.
  intros r.
  assert (Hr : r = (Ok ([NewArticle sample_article [sample_article]], [seconds 1800]), r.2))
    by (vm_compute; reflexivity).
  split; [vm_compute; reflexivity|].
  refine (proj2 (queue_links_stay_distinct _ _ _ _ _ _ fresh_bot _ _ _ _ _ Hr)).
  - exists []. split; [reflexivity|]. intros a L Ha. by apply elem_of_nil in Ha.
  - intros i j a a' L Hi. simpl in Hi. by rewrite lookup_nil in Hi.
  - intros history [= <-]. simpl. lia.
Defined.

(** ** The handlers, whatever the queue holds *)
Section HandlerFacts.
Context {A : Type} `{EqDecision A}.
Implicit Types (a : A) (q : list A) (s : mstate (A := A)) (t : tid).

Lemma lawful_pressed presses q : lawful presses (pressed q).
Proof.
  intros t. unfold posted; simpl. split_and!.
  - intros [H|H]; by apply elem_of_nil in H.
  - intros [[H|H]|?]; [by apply elem_of_nil in H..|done].
  - intros [[H|H]|?]; [by apply elem_of_nil in H..|done].
Qed.

(** Takes the step of a handler apart, by the point where it stands. *)
Ltac step_cases Hs :=
  unfold handler_step in Hs;
  repeat match type of Hs with
         | context [match ?x with _ => _ end] => destruct x eqn:?
         end;
  try discriminate Hs; injection Hs as <-.

Lemma handler_step_lawful a presses t0 ok s s' :
  lawful presses s → handler_step a presses t0 ok s = Some s' → lawful presses s'.
Proof.
  intros HL Hs t. specialize (HL t). unfold posted in *.
  destruct (decide (t = t0)) as [->|Hne].
  - step_cases Hs; simpl; rewrite set_pc_same.
    all: simpl in *; set_unfold; intuition congruence.
  - step_cases Hs; simpl; rewrite set_pc_other by done.
    all: simpl in *; set_unfold; intuition congruence.
Qed.

Lemma step_lawful a presses m s : lawful presses s → lawful presses (step a presses m s).
Proof.
  intros HL. destruct m as [t ok|q']; simpl.
  - destruct (handler_step a presses t ok s) as [s'|] eqn:Hs; [|done].
    by eapply handler_step_lawful.
  - by repeat case_match.
Qed.

Lemma run_lawful a presses schedule s :
  lawful presses s → lawful presses (run a presses schedule s).
Proof.
  revert s. induction schedule as [|m rest IH]; intros s HL; simpl; [done|].
  by apply IH, step_lawful.
Qed.

(** X26: whatever the queue holds and however the two handlers are
    interleaved, a handler that reaches the public channel is an accept, has
    removed the article from the queue itself before, and has returned; a
    reject publishes nothing. *)
Theorem publication_needs_accept_and_removal a (presses : tid → press) (queue : list A)
    (schedule : list move) t :
  let s := run a presses schedule (pressed queue) in
  (posted t s → button (presses t) = Accept ∧ Removed t ∈ effects s ∧ at_pc s t = Done) ∧
  (button (presses t) = Reject → Published t ∉ effects s).
Proof.
  intros s.
  destruct (run_lawful a presses schedule (pressed queue) (lawful_pressed presses queue) t)
    as (Hd & Ha & Hr). fold s in Hd, Ha, Hr.
  split; [intros Hp; auto|].
  intros Hrej Hpub. assert (button (presses t) = Accept) by (apply Ha; left; by left).
  congruence.
Qed.

Lemma unnoticed_pressed a q : a ∉ q → unnoticed a (pressed q).
Proof. intros Hq. split; [done|]. by intros t. Qed.

Lemma effects_of_own t e :
  by_handler t e = true → effects_of t [e] = [e].
Proof. intros He. unfold effects_of; simpl. by rewrite He. Qed.

Lemma effects_of_foreign t t' e :
  by_handler t e = true → t' ≠ t → effects_of t' [e] = [].
Proof. intros He Hne. by apply (own_effect t e He). Qed.

Lemma handler_step_unnoticed a presses t0 ok s s' :
  unnoticed a s → handler_step a presses t0 ok s = Some s' → unnoticed a s'.
Proof.
  intros [Hq HU] Hs. pose proof (HU t0) as H0.
  step_cases Hs.
  all: try done.
  all: try (exfalso;
            match goal with Hb : bool_decide _ = true |- _ =>
              by apply bool_decide_eq_true in Hb end).
  all: split; [done|]; intros t; simpl; rewrite effects_of_app;
    (destruct (decide (t = t0)) as [->|Hne];
     [rewrite set_pc_same, H0;
      first [done|by rewrite effects_of_own by (by apply bool_decide_eq_true)]
     |rewrite set_pc_other by done; specialize (HU t)]).
  all: first [rewrite (effects_of_foreign t0) by (done || by apply bool_decide_eq_true)
             |change (effects_of t []) with (@nil effect)].
  all: rewrite (right_id_L [] (++)); exact HU.
Qed.

Lemma step_unnoticed a presses m s : unnoticed a s → unnoticed a (step a presses m s).
Proof.
  intros HU. destruct m as [t ok|q']; simpl.
  - destruct (handler_step a presses t ok s) as [s'|] eqn:Hs; [|done].
    by eapply handler_step_unnoticed.
  - destruct (lock_owner s); [done|].
    unfold same_count. destruct (bool_decide_reflect
      (occurrences a q' = occurrences a (unactioned_articles s))) as [Hc|Hc]; [|done].
    destruct HU as [Hq HU]. split; [|done]. simpl.
    rewrite occurrences_elem, Hc, <- occurrences_elem. done.
Qed.

Lemma run_unnoticed a presses schedule s :
  unnoticed a s → unnoticed a (run a presses schedule s).
Proof.
  revert s. induction schedule as [|m rest IH]; intros s HU; simpl; [done|].
  by apply IH, step_unnoticed.
Qed.

(** X27: a press on an article that is not in the queue (it was moderated
    before, or the queue was lost) gets the already-moderated notice and
    nothing else, however the handlers are interleaved: nothing is removed,
    acknowledged, edited or published, and the article does not come back
    into the queue. *)
Theorem absent_article_only_notice a (presses : tid → press) (queue : list A)
    (schedule : list move) :
  a ∉ queue →
  let s := run a presses schedule (pressed queue) in
  (a ∉ unactioned_articles s) ∧
  ∀ t, (effects_of t (effects s) = [] ∨ effects_of t (effects s) = [AlreadyModerated t]) ∧
       (at_pc s t = Done → effects_of t (effects s) = [AlreadyModerated t]).
Proof.
  intros Hq s.
  destruct (run_unnoticed a presses schedule (pressed queue) (unnoticed_pressed a queue Hq))
    as [Hout HU]. fold s in Hout, HU.
  split; [done|]. intros t. specialize (HU t).
  destruct (at_pc s t); try done; split; auto; done.
Qed.

End HandlerFacts.

Lemma absent_article_only_notice_witness :
  let s := run "article" sample_presses late_schedule (pressed ["older"]) in
  effects_of T1 (effects s) = [AlreadyModerated T1] ∧
  effects_of T2 (effects s) = [AlreadyModerated T2].
Proof.
  intros s.
  assert (Hq : "article" ∉ ["older"]) by decide_by_compute.
  destruct (absent_article_only_notice "article" sample_presses ["older"] late_schedule Hq)
    as [_ Hall].
  split; [exact (proj2 (Hall T1) eq_refl)|exact (proj2 (Hall T2) eq_refl)].
Defined.

